(** * pathFinder: corridor routing, capture choreography and the Animator

    A shallow embedding of [printer_sim.py] (corridor graph, A* planner,
    knight router, margin route, graveyard slots, move sequencers, Animator)
    and of the knight router and graveyard of [pathfinder.py], with the
    properties the specification states about them.

    Numbers.  Python [int]s are [Z].  The planners' [float]s are modelled as
    exact rationals [Q].  Centers and corridor nodes are whole numbers of
    pixels, on which binary64 is exact.  The heights of the graveyard slots
    and the step of 0.6 of a square outside the board are multiples of a
    tenth of a pixel here and differ from the code's values in their last
    bits: the closed form of the slots and the length of that step are
    stated with a tolerance, and [nearest_node_to_xy] is characterised on
    whole pixel coordinates.  The Animator, whose arithmetic calls
    [math.hypot] and divides, is stated over an abstract arithmetic and run
    on IEEE binary64 ([PrimFloat]), which is what a Python [float] is; what
    holds of it in exact arithmetic only is stated over the real numbers. *)

From Stdlib Require Import Rbase R_sqrt Lra.
From stdpp Require Import gmap list strings.
From Stdlib Require Import ZArith QArith Qabs Qminmax Qround Lia Lqa.
From Stdlib Require Import Floats.
From Stdlib Require Uint63.

Open Scope Z_scope.

(** ** Exceptions and results *)

Inductive exn :=
| KeyError
| IndexError
| AssertionError
| TypeError
| RuntimeError (msg : string).

(** [Timeout] is the embedding's own: a loop ran out of fuel.  The theorems
    below show it never happens for the fuel the definitions pass. *)
Inductive res (A : Type) :=
| Ok (a : A)
| Raise (e : exn)
| Timeout.
Arguments Ok {A} a.
Arguments Raise {A} e.
Arguments Timeout {A}.

Global Instance res_bind : MBind res := fun A B (k : A → res B) (m : res A) =>
  match m with
  | Ok a => k a
  | Raise e => Raise e
  | Timeout => Timeout
  end.

Fixpoint for_each {A S} (body : A → S → res S) (l : list A) (s : S) : res S :=
  match l with
  | [] => Ok s
  | a :: l' => s' ← body a s ; for_each body l' s'
  end.

(** [range(n)] *)
Definition range (n : nat) : list Z := Z.of_nat <$> seq 0 n.

(** ** Window and board geometry *)

Definition INCH_PX : Z := 96.
Definition MARGIN : Z := 32.
Definition SQUARE : Z := (640 - 2 * MARGIN) `div` 8.
Definition BOARD_PIXELS : Z := 2 * MARGIN + SQUARE * 8.
Definition SIDEBAR_W : Z := INCH_PX.
Definition INPUT_H : Z := 56.
Definition WIN_W : Z := BOARD_PIXELS + SIDEBAR_W.
Definition WIN_H : Z := BOARD_PIXELS + INPUT_H.

Definition point : Type := Q * Q.

Definition Zq (z : Z) : Q := inject_Z z.

Definition rc_to_center_xy (r c : Z) : point :=
  ((Zq (MARGIN + c * SQUARE) + Zq SQUARE / 2)%Q,
   (Zq (MARGIN + (7 - r) * SQUARE) + Zq SQUARE / 2)%Q).

(** ** Corridor graph *)

Inductive tag := TC | TH | TV.

Global Instance tag_eq_dec : EqDecision tag.
Proof. solve_decision. Defined.

Global Instance tag_countable : Countable tag.
Proof.
  refine (inj_countable'
            (fun t => match t with TC => 0%nat | TH => 1%nat | TV => 2%nat end)
            (fun n => match n with 0%nat => TC | 1%nat => TH | _ => TV end) _).
  by intros [].
Defined.

(** A node is the Python tuple [(t, r, c)]. *)
Definition node : Type := tag * Z * Z.

Definition ntag (n : node) : tag := n.1.1.
Definition nrow (n : node) : Z := n.1.2.
Definition ncol (n : node) : Z := n.2.

Record graph := { g_nodes : gset node; g_edges : gmap node (gset node) }.

Definition add (n : node) (gr : graph) : graph :=
  if decide (n ∈ g_nodes gr) then gr
  else {| g_nodes := g_nodes gr ∪ {[n]}; g_edges := <[n := ∅]> (g_edges gr) |}.

(** [edges[a].add(b)]: raises [KeyError] when [a] has no entry. *)
Definition edge_add (a b : node) (e : gmap node (gset node)) : res (gmap node (gset node)) :=
  match e !! a with
  | Some s => Ok (<[a := s ∪ {[b]}]> e)
  | None => Raise KeyError
  end.

Definition link (a b : node) (gr : graph) : res graph :=
  e1 ← edge_add a b (g_edges gr) ;
  e2 ← edge_add b a e1 ;
  Ok {| g_nodes := g_nodes gr; g_edges := e2 |}.

Definition build_corridor_graph : res graph :=
  let gr := {| g_nodes := ∅; g_edges := ∅ |} in
  gr ← for_each (fun r gr =>
          for_each (fun c gr => Ok (add (TC, r, c) gr)) (range 8) gr) (range 8) gr ;
  gr ← for_each (fun r gr =>
          for_each (fun c gr =>
            let n := (TH, r, c) in
            let gr := add n gr in
            gr ← link n (TC, r, c) gr ;
            link n (TC, r, c + 1) gr) (range 7) gr) (range 8) gr ;
  for_each (fun r gr =>
          for_each (fun c gr =>
            let n := (TV, r, c) in
            let gr := add n gr in
            gr ← link n (TC, r, c) gr ;
            link n (TC, r + 1, c) gr) (range 8) gr) (range 7) gr.

(** [NODES, EDGES = build_corridor_graph()]; the construction raises nothing
    ([build_corridor_graph_ok] below). *)
Definition GRAPH : graph :=
    match build_corridor_graph with
    | Ok gr => gr
    | _ => {| g_nodes := ∅; g_edges := ∅ |}
    end.

Definition NODES : gset node := g_nodes GRAPH.
Definition EDGES : gmap node (gset node) := g_edges GRAPH.

Definition node_xy (n : node) : point :=
  match n with
  | (TC, r, c) => rc_to_center_xy r c
  | (TH, r, c) =>
      let '(x1, y1) := rc_to_center_xy r c in
      let '(x2, y2) := rc_to_center_xy r (c + 1) in
      (((x1 + x2) / 2)%Q, ((y1 + y2) / 2)%Q)
  | (TV, r, c) =>
      let '(x1, y1) := rc_to_center_xy r c in
      let '(x2, y2) := rc_to_center_xy (r + 1) c in
      (((x1 + x2) / 2)%Q, ((y1 + y2) / 2)%Q)
  end.

Definition heuristic (a b : node) : Q :=
  let '(ax, ay) := node_xy a in
  let '(bx, by_) := node_xy b in
  (Qabs (ax - bx) + Qabs (ay - by_))%Q.

(** ** The open list

    [heapq] keeps a binary heap of [(f, node)] tuples; all the planner asks of
    it is that [heappop] hands back a least tuple.  Tuples compare
    lexicographically: the float first, then the node, itself a tuple of a
    one-letter string (["C" < "H" < "V"]) and two integers.  Two tuples that
    compare equal are the same value, so a list kept in increasing order
    stands for the heap. *)

Definition tag_rank (t : tag) : Z :=
  match t with TC => 0 | TH => 1 | TV => 2 end.

Definition node_compare (a b : node) : comparison :=
  match tag_rank (ntag a) ?= tag_rank (ntag b) with
  | Eq => match nrow a ?= nrow b with
          | Eq => ncol a ?= ncol b
          | o => o
          end
  | o => o
  end.

Definition entry : Type := Q * node.

Definition entry_compare (a b : entry) : comparison :=
  match (a.1 ?= b.1)%Q with
  | Eq => node_compare a.2 b.2
  | o => o
  end.

Fixpoint heappush (h : list entry) (e : entry) : list entry :=
  match h with
  | [] => [e]
  | x :: h' =>
      match entry_compare e x with
      | Gt => x :: heappush h' e
      | _ => e :: h
      end
  end.

Definition heappop (h : list entry) : option (entry * list entry) :=
  match h with
  | [] => None
  | x :: h' => Some (x, h')
  end.

(** ** A* *)

Record astate := {
  openh : list entry;
  came : gmap node (option node);
  gsc : gmap node Z
}.

Definition getitem {K V} `{Countable K} (m : gmap K V) (k : K) : res V :=
  match m !! k with
  | Some v => Ok v
  | None => Raise KeyError
  end.

(** The body of [for nb in EDGES[cur]]. *)
Definition relax (goal : node) (is_blocked_center : Z → Z → bool) (cur nb : node)
    (st : astate) : res astate :=
  if bool_decide (ntag nb = TC)
     && (is_blocked_center (nrow nb) (ncol nb) && negb (bool_decide (nb = goal)))
  then Ok st
  else
    gcur ← getitem (gsc st) cur;
    let t := gcur + 1 in
    if t <? default (10 ^ 18) (gsc st !! nb) then
      let f := (Zq t + heuristic nb goal)%Q in
      Ok {| openh := heappush (openh st) (f, nb);
            came := <[nb := Some cur]> (came st);
            gsc := <[nb := t]> (gsc st) |}
    else Ok st.

(** The test before [continue]: a blocked Center that is not the goal. *)
Definition skipped (goal : node) (is_blocked_center : Z → Z → bool) (nb : node) : bool :=
  bool_decide (ntag nb = TC)
  && (is_blocked_center (nrow nb) (ncol nb) && negb (bool_decide (nb = goal))).

(** Fuel for the two loops of [a_star]; enough for any run, see
    [a_star_total]. *)
Definition A_STAR_FUEL : nat := 176 * 176 + 2.

(** [while n is not None: path.append(n); n = came[n]] *)
Fixpoint walk_back (fuel : nat) (came : gmap node (option node)) (n : option node)
    (path : list node) : res (list node) :=
  match n with
  | None => Ok path
  | Some m =>
      match fuel with
      | O => Timeout
      | S fuel' =>
          p ← getitem came m;
          walk_back fuel' came p (path ++ [m])
      end
  end.

(** The [while openh] loop; [edges] is the module's [EDGES]. *)
Fixpoint a_star_loop (edges : gmap node (gset node)) (fuel : nat) (goal : node)
    (is_blocked_center : Z → Z → bool) (st : astate) : res (option (list node)) :=
  match fuel with
  | O => Timeout
  | S fuel' =>
      match heappop (openh st) with
      | None => Ok None
      | Some ((_, cur), rest) =>
          let st := {| openh := rest; came := came st; gsc := gsc st |} in
          if bool_decide (cur = goal) then
            path ← walk_back A_STAR_FUEL (came st) (Some cur) [];
            Ok (Some (reverse path))
          else
            nbs ← getitem edges cur;
            st ← for_each (relax goal is_blocked_center cur) (elements nbs) st;
            a_star_loop edges fuel' goal is_blocked_center st
      end
  end.

Definition a_star (start goal : node) (is_blocked_center : Z → Z → bool)
    : res (option (list node)) :=
  a_star_loop EDGES A_STAR_FUEL goal is_blocked_center
    {| openh := heappush [] (0%Q, start);
       came := {[start := None]};
       gsc := {[start := 0]} |}.


(** ** Corridor routes, and the invariant of the search *)

Section routes.
Variables (edges : gmap node (gset node)) (start goal : node) (blk : Z → Z → bool).

(** One step of a corridor route under the blocked predicate: along an edge
    of the graph, and never onto a blocked Center other than the goal. *)
Definition legal_step (p n : node) : Prop :=
  (∃ s, edges !! p = Some s ∧ n ∈ s) ∧
  (ntag n = TC → blk (nrow n) (ncol n) = true → n = goal).

(** [route_to n l]: [l] is a corridor route from [start] to [n]. *)
Inductive route_to : node → list node → Prop :=
| route_here : route_to start [start]
| route_snoc p n l : route_to p l → legal_step p n → route_to n (l ++ [n]).

(** What holds of [came] and [g] whenever the loop of [a_star] is at its
    head. *)
Record inv (st : astate) : Prop := {
  inv_start_came : came st !! start = Some None;
  inv_start_g : gsc st !! start = Some 0;
  inv_root : ∀ n, came st !! n = Some None → n = start;
  inv_link : ∀ n p, came st !! n = Some (Some p) →
    legal_step p n ∧
    ∃ vn vp, gsc st !! n = Some vn ∧ gsc st !! p = Some vp ∧ vp + 1 ≤ vn;
  inv_g : ∀ n v, gsc st !! n = Some v →
    0 ≤ v < Z.of_nat (size (gsc st)) ∧ is_Some (edges !! n) ∧ is_Some (came st !! n);
  inv_open : ∀ e, e ∈ openh st → is_Some (gsc st !! e.2)
}.

Definition sumg (g : gmap node Z) : Z := map_fold (fun _ v acc => v + acc) 0 g.

(** The termination measure: entries waiting in the open list, plus what
    the scores can still lose. *)
Definition pot (g : gmap node Z) : Z :=
  Z.of_nat (size edges) * (Z.of_nat (size edges) - Z.of_nat (size g)) + sumg g.
Definition measure (st : astate) : Z := Z.of_nat (length (openh st)) + pot (gsc st).

(** Every scored node is the one being expanded ([pending]), or waits in the
    open list, or has all the nodes one legal step away scored. *)
Definition frontier (pending : option node) (st : astate) : Prop :=
  ∀ n, is_Some (gsc st !! n) →
    Some n = pending
    ∨ (∃ f, (f, n) ∈ openh st)
    ∨ (∀ m, legal_step n m → is_Some (gsc st !! m)).

(** A scored goal waits in the open list: the loop returns when it pops it. *)
Definition goal_waits (st : astate) : Prop :=
  is_Some (gsc st !! goal) → ∃ f, (f, goal) ∈ openh st.
End routes.

Definition is_ok {A} (m : res A) : bool :=
  match m with Ok _ => true | _ => false end.

(** ** The board collaborator (python-chess)

    The planners read a [chess.Board] through [piece_at] and [ep_square] and
    derive hypothetical successors with [copy], [remove_piece_at] and [push].
    Squares are the integers 0..63, [square(file, rank) = rank * 8 + file]. *)

Inductive PieceType := PAWN | KNIGHT | BISHOP | ROOK | QUEEN | KING.

Global Instance PieceType_eq_dec : EqDecision PieceType.
Proof. solve_decision. Defined.

(** [chess.WHITE] is [True], [chess.BLACK] is [False]. *)
Definition WHITE : bool := true.
Definition BLACK : bool := false.

Record Piece := { piece_type : PieceType; color : bool }.

Record Move := { from_square : Z; to_square : Z }.

Definition square (file rank : Z) : Z := rank * 8 + file.
Definition square_file (sq : Z) : Z := Z.land sq 7.
Definition square_rank (sq : Z) : Z := Z.shiftr sq 3.

(** [chess.SQUARES] *)
Definition SQUARES : list Z := range 64.

Class ChessBoard (B : Type) := {
  piece_at : B → Z → option Piece;
  ep_square : B → option Z;
  (** [b.copy()] followed by [remove_piece_at(sq)] on the copy *)
  remove_piece_at : B → Z → B;
  (** [b.copy()] followed by [push(move)] on the copy; python-chess asserts
      that a piece stands on the move's origin *)
  push : B → Move → res B
}.

(** A board as a finite map from squares to pieces, with the en-passant
    target square. *)
Record MapBoard := { mb_pieces : gmap Z Piece; mb_ep : option Z }.

Global Instance MapBoard_board : ChessBoard MapBoard := {|
  piece_at b sq := mb_pieces b !! sq;
  ep_square b := mb_ep b;
  remove_piece_at b sq := {| mb_pieces := delete sq (mb_pieces b); mb_ep := mb_ep b |};
  push b m :=
    match mb_pieces b !! from_square m with
    | Some p => Ok {| mb_pieces := <[to_square m := p]> (delete (from_square m) (mb_pieces b));
                      mb_ep := None |}
    | None => Raise AssertionError
    end
|}.

(** ** Chess / mapping helpers *)

Definition sq_to_rc (sq : Z) : Z * Z := (square_rank sq, square_file sq).

Definition rc_to_sq (r c : Z) : Z := square c r.

Section occupancy.
Context {B : Type} `{ChessBoard B}.

Definition board_occupied_rc (board : B) : gset (Z * Z) :=
  foldl (fun occ sq =>
           match piece_at board sq with
           | Some _ => occ ∪ {[sq_to_rc sq]}
           | None => occ
           end) ∅ SQUARES.

(** Safe en passant detector *)
Definition is_en_passant (board : B) (move : Move) : bool :=
  match piece_at board (from_square move) with
  | None => false
  | Some p =>
      if negb (bool_decide (piece_type p = PAWN)) then false
      else if bool_decide (square_file (from_square move) = square_file (to_square move))
      then false
      else bool_decide (piece_at board (to_square move) = None)
           && bool_decide (ep_square board = Some (to_square move))
  end.
End occupancy.

(** [nearest_node_to_xy] walks the set [NODES]; the order in which a Python
    set of tuples holding strings is walked is not fixed, so it is an
    argument ([order]). *)
Definition nearest_node_to_xy (order : list node) (xy : point) : option node :=
  (foldl (fun '(best, bestd) n =>
            let '(nx, ny) := node_xy n in
            let d := (Qabs (nx - xy.1) + Qabs (ny - xy.2))%Q in
            if Qlt_le_dec d bestd then (Some n, d) else (best, bestd))
         (None, Zq (10 ^ 18)) order).1.

Definition no_corridor_path : exn := RuntimeError "No corridor path found.".
Definition no_path_between : exn := RuntimeError "No path between points.".

(** [if not nodes: raise RuntimeError(msg)], then the nodes' coordinates *)
Definition path_or_raise (e : exn) (nodes : option (list node)) : res (list point) :=
  match nodes with
  | None | Some [] => Raise e
  | Some ns => Ok (node_xy <$> ns)
  end.

(** The closure [blocked] of [plan_corridor_path] (and of
    [corridor_to_point]): occupied, and not the source square. *)
Definition blocked (occ : gset (Z * Z)) (rs cs : Z) (r c : Z) : bool :=
  bool_decide ((r, c) ∈ occ) && negb (bool_decide (r = rs) && bool_decide (c = cs)).

(** The closure [blocked] of [corridor_between_points]. *)
Definition blocked_exempt (occ exempt : gset (Z * Z)) (r c : Z) : bool :=
  bool_decide ((r, c) ∈ occ) && negb (bool_decide ((r, c) ∈ exempt)).

Section planners.
Context {B : Type} `{ChessBoard B}.

Definition plan_corridor_path (board : B) (src_sq dst_sq : Z) : res (list point) :=
  let occ := board_occupied_rc board in
  let '(rs, cs) := sq_to_rc src_sq in
  let '(rd, cd) := sq_to_rc dst_sq in
  let start := (TC, rs, cs) in
  let goal := (TC, rd, cd) in
  nodes ← a_star start goal (blocked occ rs cs);
  path_or_raise no_corridor_path nodes.

(** [nearest_node_to_xy] of a non-empty [NODES] is a node; [start[0]] on
    [None] would raise [TypeError], which an empty [order] is the only way
    to reach. *)
Definition corridor_between_points (order : list node) (board : B) (xy_start xy_end : point)
    : res (list point) :=
  let occ := board_occupied_rc board in
  match nearest_node_to_xy order xy_start, nearest_node_to_xy order xy_end with
  | Some start, Some goal =>
      let exempt : gset (Z * Z) := ∅ in
      let exempt := if bool_decide (ntag start = TC)
                    then exempt ∪ {[(nrow start, ncol start)]} else exempt in
      let exempt := if bool_decide (ntag goal = TC)
                    then exempt ∪ {[(nrow goal, ncol goal)]} else exempt in
      nodes ← a_star start goal (blocked_exempt occ exempt);
      path_or_raise no_path_between nodes
  | _, _ => Raise TypeError
  end.
End planners.

(** ** Segments and plans *)

(** [{"waypoints": [...], "magnet_on": bool}], over any type of points. *)
Record segment (P : Type) := { waypoints : list P; magnet_on : bool }.
Arguments waypoints {P} s.
Arguments magnet_on {P} s.

(** [l[-1]] *)
Definition last_item {A} (l : list A) : res A :=
  match last l with
  | Some a => Ok a
  | None => Raise IndexError
  end.

(** ** Special knight route (on lines) *)

Section knight.
Context {B : Type} `{ChessBoard B}.

Definition plan_knight_route_on_lines (board : B) (move : Move) : res (list point) :=
  let src := from_square move in
  let dst := to_square move in
  let '(r0, c0) := sq_to_rc src in
  let '(r1, c1) := sq_to_rc dst in
  let dr := r1 - r0 in
  let dc := c1 - c0 in
  let '(x0, y0) := rc_to_center_xy r0 c0 in
  let '(x1, y1) := rc_to_center_xy r1 c1 in
  let half := (Zq SQUARE * (1 # 2))%Q in
  let two := (Zq SQUARE * 2)%Q in
  if bool_decide (Z.abs dr = 2) && bool_decide (Z.abs dc = 1) then
    (* vertical long leg *)
    let dir_x := if 0 <? dc then 1 else -1 in
    let lane_x := (x0 + Zq dir_x * half)%Q in
    let dir_y := if 0 <? dr then -1 else 1 in
    Ok [(x0, y0); (lane_x, y0); (lane_x, (y0 + Zq dir_y * two)%Q); (x1, y1)]
  else if bool_decide (Z.abs dr = 1) && bool_decide (Z.abs dc = 2) then
    (* horizontal long leg *)
    let dir_y := if 0 <? dr then -1 else 1 in
    let lane_y := (y0 + Zq dir_y * half)%Q in
    let dir_x := if 0 <? dc then 1 else -1 in
    Ok [(x0, y0); (x0, lane_y); ((x0 + Zq dir_x * two)%Q, lane_y); (x1, y1)]
  else plan_corridor_path board src dst.
End knight.

(** ** Capture: margin / perimeter route *)

Inductive edge := left_edge | right_edge | top_edge | bottom_edge.

(** [min(l, key=...)]: the first item whose key is least. *)
Fixpoint min_by_key {A} (best : A * Q) (l : list (A * Q)) : A * Q :=
  match l with
  | [] => best
  | x :: l' => min_by_key (if Qlt_le_dec x.2 best.2 then x else best) l'
  end.

Definition plan_margin_escape_path (cap_xy grave_xy : point) : list point :=
  let '(cx, cy) := cap_xy in
  let x_left := Zq MARGIN in
  let x_right := Zq (BOARD_PIXELS - MARGIN) in
  let y_top := Zq MARGIN in
  let y_bottom := Zq (BOARD_PIXELS - MARGIN) in
  let d_left := Qabs (cx - x_left) in
  let d_right := Qabs (x_right - cx) in
  let d_top := Qabs (cy - y_top) in
  let d_bottom := Qabs (y_bottom - cy) in
  let e := (min_by_key (left_edge, d_left)
              [(right_edge, d_right); (top_edge, d_top); (bottom_edge, d_bottom)]).1 in
  let outside := (Zq SQUARE * (6 # 10))%Q in
  let '(gx, gy) := grave_xy in
  match e with
  | left_edge | right_edge =>
      let dir_x := match e with left_edge => -1 | _ => 1 end in
      let lane_x := (cx + Zq dir_x * (Zq SQUARE * (1 # 2)))%Q in
      let border_x := match e with left_edge => x_left | _ => x_right end in
      let outside_x := (border_x + Zq dir_x * outside)%Q in
      [(cx, cy); (lane_x, cy); (outside_x, cy); (gx, cy); (gx, gy)]
  | _ =>
      let dir_y := match e with top_edge => -1 | _ => 1 end in
      let lane_y := (cy + Zq dir_y * (Zq SQUARE * (1 # 2)))%Q in
      let border_y := match e with top_edge => y_top | _ => y_bottom end in
      let outside_y := (border_y + Zq dir_y * outside)%Q in
      [(cx, cy); (cx, lane_y); (cx, outside_y); (cx, gy); (gx, gy)]
  end.

(** ** Graveyard slots

    The module globals [grave_positions], [captured_white] and
    [captured_black], passed explicitly. *)

Definition GRAVE_COLS : Z := 2.

Record graveyard := {
  grave_positions : list point;
  captured_white : list point;
  captured_black : list point
}.

Definition init_grave_positions (gy : graveyard) : graveyard :=
  let col_w := (Zq SIDEBAR_W / Zq GRAVE_COLS)%Q in
  let x0 := Zq BOARD_PIXELS in
  let y0 := Zq MARGIN in
  {| grave_positions :=
       r ← range 10;
       c ← range (Z.to_nat GRAVE_COLS);
       [((x0 + Zq c * col_w + col_w / 2)%Q,
         (y0 + Zq r * (Zq SQUARE * (9 # 10)) + Zq SQUARE * (45 # 100))%Q)];
     captured_white := captured_white gy;
     captured_black := captured_black gy |}.

Definition next_grave_xy (gy : graveyard) (color : bool) : point :=
  let arr := if color then captured_white gy else captured_black gy in
  let idx := length arr in
  match grave_positions gy !! idx with
  | Some p => p
  | None => ((Zq BOARD_PIXELS + Zq SIDEBAR_W / 2)%Q,
             Zq (WIN_H - INPUT_H - 20 - Z.of_nat idx * 10))
  end.

(** What [main] does with the slot a capture plan returned:
    [captured_white.append(cap_xy)] or [captured_black.append(cap_xy)]. *)
Definition record_capture (gy : graveyard) (cap_color : bool) (cap_xy : point) : graveyard :=
  if cap_color
  then {| grave_positions := grave_positions gy;
          captured_white := captured_white gy ++ [cap_xy];
          captured_black := captured_black gy |}
  else {| grave_positions := grave_positions gy;
          captured_white := captured_white gy;
          captured_black := captured_black gy ++ [cap_xy] |}.

(** ** Move planning: normal / capture / castling *)

Definition is_nil {A} (l : list A) : bool :=
  match l with [] => true | _ => false end.

(** [chess.FILE_NAMES.index(name)] for the four files castling names. *)
Definition FILE_a : Z := 0.
Definition FILE_d : Z := 3.
Definition FILE_f : Z := 5.
Definition FILE_h : Z := 7.

Section sequencers.
Context {B : Type} `{ChessBoard B}.

Definition is_knight (p : option Piece) : bool :=
  match p with
  | Some p => bool_decide (piece_type p = KNIGHT)
  | None => false
  end.

(** Returns [(segments, captured_color, grave_xy)]. *)
Definition plan_capture_sequence (order : list node) (gy : graveyard) (board : B) (move : Move)
    : res (list (segment point) * bool * point) :=
  let src := from_square move in
  let dst := to_square move in
  (* Determine captured square (safe en passant handling) *)
  let cap_sq :=
    if is_en_passant board move
    then square (square_file dst) (square_rank src)
    else dst in
  let captured_piece := piece_at board cap_sq in
  let captured_color :=
    match captured_piece with Some p => color p | None => WHITE end in
  (* to target (OFF), grab (ON) *)
  path_to_target ← plan_corridor_path board src cap_sq;
  if is_nil path_to_target then Raise (RuntimeError "No path to captured piece.") else
  let cap_xy := rc_to_center_xy (sq_to_rc cap_sq).1 (sq_to_rc cap_sq).2 in
  let grave_xy := next_grave_xy gy captured_color in
  (* remove captured from temp BEFORE planning own path *)
  let temp := remove_piece_at board cap_sq in
  (* margin/perimeter for the captured piece *)
  let margin_path := plan_margin_escape_path cap_xy grave_xy in
  let margin_path := if is_nil margin_path then [cap_xy; grave_xy] else margin_path in
  (* back to src (OFF) *)
  let src_xy := rc_to_center_xy (sq_to_rc src).1 (sq_to_rc src).2 in
  path_back ← corridor_between_points order temp grave_xy src_xy;
  (* move own piece *)
  path_src_to_dst ←
    (if is_knight (piece_at board src)
     then plan_knight_route_on_lines temp move
     else plan_corridor_path temp src dst);
  target_end ← last_item path_to_target;
  margin_end ← last_item margin_path;
  dst_end ← last_item path_src_to_dst;
  Ok ([ {| waypoints := path_to_target; magnet_on := false |};
        {| waypoints := [target_end]; magnet_on := true |};
        {| waypoints := margin_path; magnet_on := true |};
        {| waypoints := [margin_end]; magnet_on := false |};
        {| waypoints := path_back; magnet_on := false |};
        {| waypoints := path_src_to_dst; magnet_on := true |};
        {| waypoints := [dst_end]; magnet_on := false |} ],
      captured_color, grave_xy).

Definition plan_normal_move (board : B) (move : Move) : res (list (segment point)) :=
  path ←
    (if is_knight (piece_at board (from_square move))
     then plan_knight_route_on_lines board move
     else plan_corridor_path board (from_square move) (to_square move));
  path_end ← last_item path;
  Ok [ {| waypoints := path; magnet_on := true |};
       {| waypoints := [path_end]; magnet_on := false |} ].

Definition plan_castling (board : B) (move : Move) : res (list (segment point)) :=
  let src := from_square move in
  let dst := to_square move in
  let king_rank := square_rank src in
  let kingside := square_file src <? square_file dst in
  let '(rook_from, rook_to) :=
    if kingside
    then (square FILE_h king_rank, square FILE_f king_rank)
    else (square FILE_a king_rank, square FILE_d king_rank) in
  rook_path ← plan_corridor_path board rook_from rook_to;
  tmp ← push board {| from_square := rook_from; to_square := rook_to |};
  king_path ← plan_corridor_path tmp src dst;
  rook_end ← last_item rook_path;
  king_end ← last_item king_path;
  Ok [ {| waypoints := rook_path; magnet_on := true |};
       {| waypoints := [rook_end]; magnet_on := false |};
       {| waypoints := king_path; magnet_on := true |};
       {| waypoints := [king_end]; magnet_on := false |} ].

(** The planning branch of [main] for a legal move; [is_castling] and
    [is_capture] are the rules engine's verdicts on it. *)
Definition plan_move (order : list node) (gy : graveyard) (board : B) (move : Move)
    (is_castling is_capture : bool) : res (list (segment point)) :=
  if is_castling then plan_castling board move
  else if is_capture then
    r ← plan_capture_sequence order gy board move; Ok r.1.1
  else plan_normal_move board move.
End sequencers.

(** ** [pathfinder.py]: board-unit geometry (one square = 1 x 1) *)

Definition center_of (fr : Z * Z) : point :=
  ((Zq fr.1 + (1 # 2))%Q, (Zq fr.2 + (1 # 2))%Q).

Definition corridor_to_x (x_line y : Q) : point := (x_line, y).
Definition corridor_to_y (x y_line : Q) : point := (x, y_line).

Record CaptureGraveyard := {
  cg_margin : Q;
  cg_spacing : Q;
  cg_count : Z
}.


Definition next_slot (g : CaptureGraveyard) : point * CaptureGraveyard :=
  let col := cg_count g `div` 8 in
  let row := cg_count g `mod` 8 in
  let x := (8 + cg_margin g + (1 # 2) + Zq col * (9 # 10))%Q in
  let y := ((1 # 2) + Zq row * cg_spacing g)%Q in
  ((x, y),
   {| cg_margin := cg_margin g; cg_spacing := cg_spacing g; cg_count := cg_count g + 1 |}).

Definition path_knight_units (fr_from fr_to : Z * Z) : list point :=
  let '(fx, fy) := fr_from in
  let '(tx, ty) := fr_to in
  let '(sx, sy) := center_of fr_from in
  let '(dx, dy) := center_of fr_to in
  let x_line := if fx <? tx then (Zq fx + 1)%Q else (Zq tx + 1)%Q in
  let y_line := if fy <? ty then (Zq fy + 1)%Q else (Zq ty + 1)%Q in
  [ (sx, sy);
    corridor_to_x x_line sy;
    corridor_to_y x_line y_line;
    (dx, dy) ].

(** ** Animator

    The arithmetic of [Animator.step] is kept abstract: the operations and
    the five constants it uses.  [float_arith] below is IEEE binary64. *)

Class Arith (F : Type) := {
  fadd : F → F → F;
  fsub : F → F → F;
  fmul : F → F → F;
  fdiv : F → F → F;
  fabs : F → F;
  (** [a < b] *)
  fltb : F → F → bool;
  (** [math.hypot] *)
  fhypot : F → F → F;
  (** [TRAVEL_SPEED_PX = 8.0], [DRAG_SPEED_PX = 5.0] *)
  TRAVEL_SPEED_PX : F;
  DRAG_SPEED_PX : F;
  (** the literals [1e-3], [1e-9] and [0.5] *)
  lit_1e_3 : F;
  lit_1e_9 : F;
  lit_0_5 : F
}.

(** Python floats.  [math.hypot dx dy] is taken as [sqrt (dx*dx + dy*dy)],
    which is what it returns for the axis-aligned displacements evaluated
    below. *)
#[warnings="-inexact-float"]
Global Instance float_arith : Arith float := {|
  fadd := PrimFloat.add;
  fsub := PrimFloat.sub;
  fmul := PrimFloat.mul;
  fdiv := PrimFloat.div;
  fabs := PrimFloat.abs;
  fltb := PrimFloat.ltb;
  fhypot x y := PrimFloat.sqrt (PrimFloat.add (PrimFloat.mul x x) (PrimFloat.mul y y));
  TRAVEL_SPEED_PX := 8%float;
  DRAG_SPEED_PX := 5%float;
  lit_1e_3 := 1e-3%float;
  lit_1e_9 := 1e-9%float;
  lit_0_5 := 0.5%float
|}.

(** Exact arithmetic: the real numbers, [math.hypot] as the square root of
    the sum of the squares. *)
Global Instance real_arith : Arith Rdefinitions.R := {|
  fadd := Rdefinitions.Rplus;
  fsub := Rdefinitions.Rminus;
  fmul := Rdefinitions.Rmult;
  fdiv := Rdefinitions.Rdiv;
  fabs := Rbasic_fun.Rabs;
  fltb x y := if RIneq.Rlt_dec x y then true else false;
  fhypot x y := R_sqrt.sqrt (Rdefinitions.Rplus (Rdefinitions.Rmult x x) (Rdefinitions.Rmult y y));
  TRAVEL_SPEED_PX := Rdefinitions.IZR 8;
  DRAG_SPEED_PX := Rdefinitions.IZR 5;
  lit_1e_3 := Rdefinitions.Rinv (Rdefinitions.IZR 1000);
  lit_1e_9 := Rdefinitions.Rinv (Rdefinitions.IZR 1000000000);
  lit_0_5 := Rdefinitions.Rinv (Rdefinitions.IZR 2)
|}.

Record Animator (F : Type) := {
  segments : list (segment (F * F));
  cur_seg_i : nat;
  cur_wp_i : nat;
  pos : option (F * F);
  done : bool;
  last_draw_path : list (F * F)
}.
Arguments segments {F} a.
Arguments cur_seg_i {F} a.
Arguments cur_wp_i {F} a.
Arguments pos {F} a.
Arguments done {F} a.
Arguments last_draw_path {F} a.

(** [l[i]] for an index that is never negative *)
Definition getidx {A} (l : list A) (i : nat) : res A :=
  match l !! i with
  | Some a => Ok a
  | None => Raise IndexError
  end.

Section animator.
Context {F : Type} `{Arith F}.

(** [Animator.__init__] *)
Definition new_animator : Animator F :=
  {| segments := []; cur_seg_i := 0; cur_wp_i := 0; pos := None;
     done := true; last_draw_path := [] |}.

(** [load(segments, start_pos)]; a [segments] of [None] is the empty list. *)
Definition load (a : Animator F) (segs : list (segment (F * F))) (start_pos : option (F * F))
    : Animator F :=
  {| segments := segs;
     cur_seg_i := 0;
     cur_wp_i := 0;
     done := is_nil segs;
     pos := match start_pos, segs with
            | None, s :: _ =>
                match waypoints s with
                | p :: _ => Some p
                | [] => start_pos
                end
            | _, _ => start_pos
            end;
     last_draw_path := [] |}.

Definition current_magnet_on (a : Animator F) : res bool :=
  if done a || is_nil (segments a) then Ok false
  else seg ← getidx (segments a) (cur_seg_i a); Ok (magnet_on seg).

Definition _advance_segment (a : Animator F) : Animator F :=
  let i := S (cur_seg_i a) in
  {| segments := segments a;
     cur_seg_i := i;
     cur_wp_i := 0;
     pos := pos a;
     done := if (length (segments a) <=? i)%nat then true else done a;
     last_draw_path := last_draw_path a |}.

(** [step] returns [self.last_draw_path]: the new state and that list. *)
Definition step (a : Animator F) : res (Animator F * list (F * F)) :=
  if done a || is_nil (segments a) then Ok (a, last_draw_path a)
  else
    seg ← getidx (segments a) (cur_seg_i a);
    let wps := waypoints seg in
    if is_nil wps then
      let a := _advance_segment a in Ok (a, last_draw_path a)
    else
      p ← match pos a with
          | None => getidx wps 0
          | Some p => Ok p
          end;
      let speed := if magnet_on seg then DRAG_SPEED_PX else TRAVEL_SPEED_PX in
      target ← getidx wps (cur_wp_i a);
      let dx := fsub target.1 p.1 in
      let dy := fsub target.2 p.2 in
      let dist := fhypot dx dy in
      if fltb dist lit_1e_3 then
        let trace :=
          if magnet_on seg then last_draw_path a ++ [(target.1, target.2)]
          else last_draw_path a in
        let a := {| segments := segments a; cur_seg_i := cur_seg_i a;
                    cur_wp_i := S (cur_wp_i a); pos := Some p; done := done a;
                    last_draw_path := trace |} in
        let a := if (length wps <=? cur_wp_i a)%nat then _advance_segment a else a in
        Ok (a, last_draw_path a)
      else
        let stp := if fltb dist speed then dist else speed in
        let nx := fadd p.1 (fmul (fdiv dx (fadd dist lit_1e_9)) stp) in
        let ny := fadd p.2 (fmul (fdiv dy (fadd dist lit_1e_9)) stp) in
        let trace :=
          if magnet_on seg then
            match last (last_draw_path a) with
            | None => last_draw_path a ++ [(nx, ny)]
            | Some (lastx, lasty) =>
                if fltb lit_0_5 (fadd (fabs (fsub nx lastx)) (fabs (fsub ny lasty)))
                then last_draw_path a ++ [(nx, ny)]
                else last_draw_path a
            end
          else last_draw_path a in
        let a := {| segments := segments a; cur_seg_i := cur_seg_i a;
                    cur_wp_i := cur_wp_i a; pos := Some (nx, ny); done := done a;
                    last_draw_path := trace |} in
        Ok (a, last_draw_path a).

(** [n] calls of [step], one after the other. *)
Fixpoint ticks (n : nat) (a : Animator F) : res (Animator F) :=
  match n with
  | O => Ok a
  | S n' => r ← step a; ticks n' r.1
  end.
End animator.

(** ** Inputs the properties below are evaluated on *)

(** Only a3 is blocked. *)
Definition a3_blocked (r c : Z) : bool := bool_decide (r = 2) && bool_decide (c = 0).

(** Checks [route_to] on a concrete list: each step along an edge, never onto
    a blocked Center other than the goal. *)
Definition step_ok (edges : gmap node (gset node)) (goal : node) (blk : Z → Z → bool)
    (p n : node) : bool :=
  match edges !! p with
  | Some s => bool_decide (n ∈ s)
  | None => false
  end
  && (negb (bool_decide (ntag n = TC) && blk (nrow n) (ncol n)) || bool_decide (n = goal)).

Fixpoint steps_ok (edges : gmap node (gset node)) (goal : node) (blk : Z → Z → bool)
    (p : node) (l : list node) : bool :=
  match l with
  | [] => true
  | n :: l' => step_ok edges goal blk p n && steps_ok edges goal blk n l'
  end.

(** A set of nodes no legal step leaves. *)
Definition region_closed (edges : gmap node (gset node)) (goal : node) (blk : Z → Z → bool)
    (region : list node) : bool :=
  forallb (fun p =>
    match edges !! p with
    | Some s =>
        forallb (fun n =>
          implb (negb (bool_decide (ntag n = TC) && blk (nrow n) (ncol n))
                 || bool_decide (n = goal))
                (bool_decide (n ∈ region))) (elements s)
    | None => true
    end) region.

Definition white (t : PieceType) : Piece := {| piece_type := t; color := WHITE |}.
Definition black (t : PieceType) : Piece := {| piece_type := t; color := BLACK |}.

(** White rook a1, knight b1, pawn a2: the rook is walled in. *)
Definition walled_board : MapBoard :=
  {| mb_pieces := list_to_map [(0, white ROOK); (1, white KNIGHT); (8, white PAWN)];
     mb_ep := None |}.

(** The value of a result, or [d] when there is none. *)
Definition unwrap {A} (d : A) (m : res A) : A :=
  match m with Ok a => a | _ => d end.

(** The graveyard at the start of a game: [init_grave_positions()] with both
    capture lists empty. *)
Definition fresh_graveyard : graveyard :=
  init_grave_positions {| grave_positions := []; captured_white := []; captured_black := [] |}.

(** Kings on e1 and e8, a white pawn on e4 and a black pawn on d5. *)
Definition capture_board : MapBoard :=
  {| mb_pieces := list_to_map [(4, white KING); (60, black KING);
                               (28, white PAWN); (35, black PAWN)];
     mb_ep := None |}.
Definition e4d5 : Move := {| from_square := 28; to_square := 35 |}.

(** After d7-d5 next to a white pawn on e5: en passant on d6 is on. *)
Definition en_passant_board : MapBoard :=
  {| mb_pieces := list_to_map [(4, white KING); (60, black KING);
                               (36, white PAWN); (35, black PAWN)];
     mb_ep := Some 43 |}.
Definition e5d6 : Move := {| from_square := 36; to_square := 43 |}.

(** White king e1 and rook h1, black king e8. *)
Definition castling_board : MapBoard :=
  {| mb_pieces := list_to_map [(4, white KING); (7, white ROOK); (60, black KING)];
     mb_ep := None |}.
Definition e1g1 : Move := {| from_square := 4; to_square := 6 |}.

(** A lone white knight on b1. *)
Definition knight_board : MapBoard :=
  {| mb_pieces := list_to_map [(1, white KNIGHT)]; mb_ep := None |}.
Definition b1c3 : Move := {| from_square := 1; to_square := 18 |}.

(** ** Vocabulary of the router properties *)

(** The eight knight offsets, read off two squares. *)
Definition knight_offset (src dst : Z) : Prop :=
  let dr := square_rank dst - square_rank src in
  let dc := square_file dst - square_file src in
  (Z.abs dr = 2 ∧ Z.abs dc = 1) ∨ (Z.abs dr = 1 ∧ Z.abs dc = 2).

(** A point of a corridor, in pixels: on one of the seven grid lines between
    two files ([x = MARGIN + k * SQUARE], [k] from 1 to 7) or between two
    ranks, and within the span of the board along that line. *)
Definition on_corridor_line (p : point) : Prop :=
  ∃ k : Z, 1 ≤ k ≤ 7 ∧
    ((Qeq p.1 (Zq (MARGIN + k * SQUARE))
      ∧ Qle (Zq MARGIN) p.2 ∧ Qle p.2 (Zq (BOARD_PIXELS - MARGIN)))
     ∨ (Qeq p.2 (Zq (MARGIN + k * SQUARE))
        ∧ Qle (Zq MARGIN) p.1 ∧ Qle p.1 (Zq (BOARD_PIXELS - MARGIN)))).

(** The same in board units: x or y one of the integers 1..7, the other
    coordinate from 0 to 8. *)
Definition on_unit_line (p : point) : Prop :=
  ∃ k : Z, 1 ≤ k ≤ 7 ∧
    ((Qeq p.1 (Zq k) ∧ Qle (Zq 0) p.2 ∧ Qle p.2 (Zq 8))
     ∨ (Qeq p.2 (Zq k) ∧ Qle (Zq 0) p.1 ∧ Qle p.1 (Zq 8))).

(** A point on one of the nine vertical or nine horizontal grid lines of the
    board, its four edges included, in pixels. *)
Definition on_grid_line (p : point) : Prop :=
  ∃ k : Z, 0 ≤ k ≤ 8 ∧
    (Qeq p.1 (Zq (MARGIN + k * SQUARE)) ∨ Qeq p.2 (Zq (MARGIN + k * SQUARE))).

(** A vertical step b1-b2, which is no knight move. *)
Definition b1b2 : Move := {| from_square := 1; to_square := 9 |}.

(** ** Vocabulary of the margin-route and graveyard properties *)

(** Strictly inside the 8 x 8 play area, in pixels. *)
Definition inside_play_area (p : point) : Prop :=
  (Zq MARGIN < p.1 ∧ p.1 < Zq (BOARD_PIXELS - MARGIN)
   ∧ Zq MARGIN < p.2 ∧ p.2 < Zq (BOARD_PIXELS - MARGIN))%Q.

(** Equal as points of the plane (a rational has many fractions). *)
Definition pt_eq (p q : point) : Prop := Qeq p.1 q.1 ∧ Qeq p.2 q.2.

(** The point [next_grave_xy] hands out when the colour's list holds [idx]
    captures and the grid is the initialised one. *)
Definition grave_slot (idx : nat) : point :=
  match grave_positions fresh_graveyard !! idx with
  | Some p => p
  | None => ((Zq BOARD_PIXELS + Zq SIDEBAR_W / 2)%Q,
             Zq (WIN_H - INPUT_H - 20 - Z.of_nat idx * 10))
  end.

Definition pt_eqb (p q : point) : bool := Qeq_bool p.1 q.1 && Qeq_bool p.2 q.2.

(** ** Vocabulary of the Animator properties *)

Section animator_vocabulary.
Context {F : Type} `{Arith F}.

(** An engaged travel segment, then a one-point disengage segment. *)
Definition engaged_plan (w1 : list (F * F)) (p : F * F) : list (segment (F * F)) :=
  [ {| waypoints := w1; magnet_on := true |};
    {| waypoints := [p]; magnet_on := false |} ].

(** [k] waypoints of the plan are behind the Animator: it is in segment 1 at
    waypoint [k], or in segment 2, or done. *)
Definition at_cursor (w1 : list (F * F)) (p : F * F) (k : nat) (a : Animator F) : Prop :=
  segments a = engaged_plan w1 p ∧
  if (k <? length w1)%nat then cur_seg_i a = 0%nat ∧ cur_wp_i a = k ∧ done a = false
  else if (k =? length w1)%nat then cur_seg_i a = 1%nat ∧ cur_wp_i a = 0%nat ∧ done a = false
  else done a = true.

(** The waypoint a tick at cursor [k] makes for, and the speed of its
    segment: dragging in segment 1, travelling in segment 2. *)
Definition target_at (w1 : list (F * F)) (p : F * F) (k : nat) : F * F :=
  default p (w1 !! k).

Definition speed_at (w1 : list (F * F)) (k : nat) : F :=
  if (k <? length w1)%nat then DRAG_SPEED_PX else TRAVEL_SPEED_PX.

(** [dist], the distance a tick computes from the position [q] to the
    waypoint [t]. *)
Definition gap (q t : F * F) : F := fhypot (fsub t.1 q.1) (fsub t.2 q.2).

(** [dist < 1e-3]: the test by which a tick takes the waypoint [t] as
    reached from the position [q]. *)
Definition reached (q t : F * F) : bool := fltb (gap q t) lit_1e_3.

(** The position a tick moves to from [q]: [min(speed, dist)] along
    [(dx, dy) / (dist + 1e-9)]. *)
Definition moved (speed : F) (q t : F * F) : F * F :=
  let dx := fsub t.1 q.1 in
  let dy := fsub t.2 q.2 in
  let dist := fhypot dx dy in
  let stp := if fltb dist speed then dist else speed in
  (fadd q.1 (fmul (fdiv dx (fadd dist lit_1e_9)) stp),
   fadd q.2 (fmul (fdiv dy (fadd dist lit_1e_9)) stp)).

(** The test by which a position moved to is added to the trace: the trace
    is empty, or its last point is more than 0.5 away (Manhattan). *)
Definition far_from_last (tr : list (F * F)) (q : F * F) : bool :=
  match last tr with
  | None => true
  | Some l => fltb lit_0_5 (fadd (fabs (fsub q.1 l.1)) (fabs (fsub q.2 l.2)))
  end.

(** What one tick at cursor [k] does, from the position [q].  When the
    waypoint tests as reached the tick consumes it: the cursor moves on, the
    position stays [q], and in segment 1 the waypoint is appended to the
    trace.  Otherwise the cursor stays and the position becomes [moved]; in
    segment 1 that position is appended to the trace when it tests as
    [far_from_last]. *)
Definition tick_outcome (w1 : list (F * F)) (p : F * F) (k : nat) (a a' : Animator F) : Prop :=
  ∃ q, pos a = Some q ∧
    if reached q (target_at w1 p k) then
      at_cursor w1 p (S k) a' ∧ pos a' = Some q
      ∧ last_draw_path a' = last_draw_path a ++ option_list (w1 !! k)
    else
      let q' := moved (speed_at w1 k) q (target_at w1 p k) in
      at_cursor w1 p k a' ∧ pos a' = Some q'
      ∧ last_draw_path a' =
          if (k <? length w1)%nat && far_from_last (last_draw_path a) q'
          then last_draw_path a ++ [q'] else last_draw_path a.

(** What holds after any number of ticks of a loaded two-segment plan: the
    Animator is at some cursor [k], it has a position, and the waypoints of
    segment 1 behind it are in the trace, in order. *)
Definition on_plan (w1 : list (F * F)) (p : F * F) (k : nat) (a : Animator F) : Prop :=
  at_cursor w1 p k a ∧ (k ≤ S (length w1))%nat ∧ is_Some (pos a)
  ∧ sublist (take k w1) (last_draw_path a).
End animator_vocabulary.

(** Two plans for [float_arith]: a drag of ten pixels, and the same drag of
    1008 pixels far from the origin, where floats are 16 apart. *)
Definition drag_plan : list (segment (float * float)) :=
  engaged_plan [(0, 0); (10, 0)]%float (10, 0)%float.

Definition far_plan : list (segment (float * float)) :=
  engaged_plan [(1e17, 0); (100000000000001008, 0)]%float (100000000000001008, 0)%float.

(** A whole number, and a fraction of whole numbers, as a Python float:
    exact on the coordinates of the corridor nodes, which are whole numbers
    of pixels. *)
Definition Zfloat (z : Z) : float :=
  if z <? 0 then PrimFloat.opp (PrimFloat.of_uint63 (Uint63.of_Z (- z)))
  else PrimFloat.of_uint63 (Uint63.of_Z z).

Definition Qfloat (q : Q) : float := PrimFloat.div (Zfloat (Qnum q)) (Zfloat (Zpos (Qden q))).

Definition float_point (p : point) : float * float := (Qfloat p.1, Qfloat p.2).

(** A plan of the planners, as the Animator is handed it. *)
Definition float_plan (segs : list (segment point)) : list (segment (float * float)) :=
  (fun s => {| waypoints := float_point <$> waypoints s; magnet_on := magnet_on s |}) <$> segs.

(** A board with nothing on it. *)
Definition empty_board : MapBoard := {| mb_pieces := ∅; mb_ep := None |}.

(** The number of ticks after which the Animator is done, looked for among
    the first [fuel]. *)
Fixpoint ticks_until_done {F} `{Arith F} (fuel : nat) (a : Animator F) : option nat :=
  if done a then Some 0%nat
  else match fuel with
       | O => None
       | S fuel' =>
           match step a with
           | Ok r => S <$> ticks_until_done fuel' r.1
           | _ => None
           end
       end.

(** The plan of a move on the empty board is run to its end within [N]
    ticks, in floats. *)
Definition runs_within (N : nat) (src dst : Z) : bool :=
  match plan_normal_move empty_board {| from_square := src; to_square := dst |} with
  | Ok segs => bool_decide (is_Some (ticks_until_done N (load new_animator (float_plan segs) None)))
  | _ => false
  end.

(** Strictly beyond one of the four edges of the play area. *)
Definition beyond_board (p : point) : Prop :=
  (p.1 < Zq MARGIN ∨ Zq (BOARD_PIXELS - MARGIN) < p.1
   ∨ p.2 < Zq MARGIN ∨ Zq (BOARD_PIXELS - MARGIN) < p.2)%Q.

(** Manhattan distance. *)
Definition manhattan (p q : point) : Q := (Qabs (p.1 - q.1) + Qabs (p.2 - q.2))%Q.

(** Distance from a point of the board to the nearest of its four edges. *)
Definition nearest_edge_distance (p : point) : Q :=
  Qmin (Qmin (p.1 - Zq MARGIN) (Zq (BOARD_PIXELS - MARGIN) - p.1))
       (Qmin (p.2 - Zq MARGIN) (Zq (BOARD_PIXELS - MARGIN) - p.2)).

(** ** Further functions of [printer_sim.py] *)

(** [a <= b] and [a < b] on numbers, as booleans. *)
Definition Qleb (a b : Q) : bool := if Qlt_le_dec b a then false else true.
Definition Qltb (a b : Q) : bool := if Qlt_le_dec a b then true else false.

(** [mouse_to_square(mx, my)]: [x // SQUARE] is the floor of the quotient,
    for an [int] as for a [float], and [int] of it is that integer. *)
Definition mouse_to_square (mx my : Q) : option Z :=
  if negb ((Qleb (Zq MARGIN) mx && Qltb mx (Zq (BOARD_PIXELS - MARGIN)))
           && (Qleb (Zq MARGIN) my && Qltb my (Zq (BOARD_PIXELS - MARGIN))))
  then None
  else
    let c := Qfloor ((mx - Zq MARGIN) / Zq SQUARE) in
    let r_from_top := Qfloor ((my - Zq MARGIN) / Zq SQUARE) in
    let r := 7 - r_from_top in
    if (0 <=? r) && (r <=? 7) && ((0 <=? c) && (c <=? 7))
    then Some (rc_to_sq r c)
    else None.

Definition no_path_to_point : exn := RuntimeError "No path to point.".

Section point_planner.
Context {B : Type} `{ChessBoard B}.

(** [corridor_to_point].  When no node is within [1e18] of [xy_end] the goal
    handed to [a_star] is [None]: the search then raises at its first
    expansion, [KeyError] on [EDGES[start]] for a start off the graph, and
    otherwise [TypeError] when [heuristic] unpacks the goal (the neighbours
    of a Center are midpoints, which are never skipped). *)
Definition corridor_to_point (order : list node) (board : B) (from_sq : Z) (xy_end : point)
    : res (list point) :=
  let '(rs, cs) := sq_to_rc from_sq in
  let start := (TC, rs, cs) in
  let occ := board_occupied_rc board in
  match nearest_node_to_xy order xy_end with
  | Some goal =>
      nodes ← a_star start goal (blocked occ rs cs);
      path_or_raise no_path_to_point nodes
  | None =>
      match EDGES !! start with
      | None => Raise KeyError
      | Some _ => Raise TypeError
      end
  end.
End point_planner.

(** ** Further functions of [pathfinder.py] *)

(** The state of a [PathFinder]: its margin in board units and its
    graveyard. *)
Record PathFinder := {
  margin_units : Q;
  pf_graveyard : CaptureGraveyard
}.

Definition path_king_castle_units (fr_from fr_to : Z * Z) : list point :=
  let '(sx, sy) := center_of fr_from in
  let '(dx, dy) := center_of fr_to in
  let step := if fr_from.1 <? fr_to.1 then 1 else -1 in
  let mid1 := if 0 <? step then (Zq (Z.min fr_from.1 fr_to.1) + 1)%Q
              else Zq (Z.max fr_from.1 fr_to.1) in
  let mid2 := (mid1 + 1 * Zq step)%Q in
  [ (sx, sy);
    corridor_to_x mid1 sy;
    corridor_to_x mid2 sy;
    (dx, dy) ].

(** The [while True] loop of [path_rook_castle_units]. *)
Fixpoint rook_loop (fuel : nat) (step x1 : Z) (sy : Q) (c : Z) (pts : list point)
    : res (list point) :=
  match fuel with
  | O => Timeout
  | S fuel' =>
      let pts := pts ++ [corridor_to_x (Zq c) sy] in
      if ((0 <? step) && (x1 <=? c)) || ((step <? 0) && (c <=? x1)) then Ok pts
      else rook_loop fuel' step x1 sy (c + step) pts
  end.

Definition path_rook_castle_units (fr_from fr_to : Z * Z) : res (list point) :=
  let '(sx, sy) := center_of fr_from in
  let '(dx, dy) := center_of fr_to in
  let step := if fr_from.1 <? fr_to.1 then 1 else -1 in
  let x0 := fr_from.1 in
  let x1 := fr_to.1 in
  let c := if 0 <? step then Z.min x0 x1 + 1 else Z.max x0 x1 in
  pts ← rook_loop (S (Z.to_nat (Z.abs (x1 - x0)))) step x1 sy c [(sx, sy)];
  Ok (pts ++ [(dx, dy)]).

Definition path_direct_units (fr_from fr_to : Z * Z) : list point :=
  [center_of fr_from; center_of fr_to].

(** Returns the path and the [PathFinder] with its graveyard advanced. *)
Definition path_remove_captured_units (pf : PathFinder) (fr_target : Z * Z)
    : list point * PathFinder :=
  let '(tx, ty) := center_of fr_target in
  let '((gx, gy), g') := next_slot (pf_graveyard pf) in
  let '(f, r) := fr_target in
  let x_line_out := Zq (f + 1) in
  ([ (tx, ty);
     corridor_to_x x_line_out ty;
     corridor_to_x 8 ty;
     corridor_to_x (8 + margin_units pf) ty;
     corridor_to_y (8 + margin_units pf) gy;
     (gx, gy) ],
   {| margin_units := margin_units pf; pf_graveyard := g' |}).

(** [piece_type] is compared with [chess.KNIGHT] and [chess.KING]. *)
Definition path_for_move_units (piece_type : PieceType) (fr_from fr_to : Z * Z)
    (is_capture is_castling : bool) : list point :=
  if bool_decide (piece_type = KNIGHT) then path_knight_units fr_from fr_to
  else if bool_decide (piece_type = KING) && is_castling
  then path_king_castle_units fr_from fr_to
  else path_direct_units fr_from fr_to.

(** ** Vocabulary of the further properties *)

(** The nodes of the corridor graph, by their coordinates. *)
Definition in_graph (n : node) : bool :=
  match n with
  | (TC, r, c) => (0 <=? r) && (r <? 8) && ((0 <=? c) && (c <? 8))
  | (TH, r, c) => (0 <=? r) && (r <? 8) && ((0 <=? c) && (c <? 7))
  | (TV, r, c) => (0 <=? r) && (r <? 7) && ((0 <=? c) && (c <? 8))
  end.

(** The nodes next to a node on the grid: the two Centers a midpoint lies
    between, the four midpoints around a Center. *)
Definition flank (n : node) : list node :=
  match n with
  | (TC, r, c) => [(TH, r, c - 1); (TH, r, c); (TV, r - 1, c); (TV, r, c)]
  | (TH, r, c) => [(TC, r, c); (TC, r, c + 1)]
  | (TV, r, c) => [(TC, r, c); (TC, r + 1, c)]
  end.

Definition all_nodes : list node :=
  (r ← range 8; c ← range 8; [(TC, r, c)])
  ++ (r ← range 8; c ← range 7; [(TH, r, c)])
  ++ (r ← range 7; c ← range 8; [(TV, r, c)]).

(** Two nodes of the graph next to each other. *)
Definition linked (p q : node) : Prop :=
  in_graph p = true ∧ in_graph q = true ∧ q ∈ flank p.

Definition is_center (n : node) : bool := bool_decide (ntag n = TC).

(** Two points half a square apart along one axis. *)
Definition half_step (p q : point) : Prop :=
  (Qeq p.1 q.1 ∧ Qeq (Qabs (p.2 - q.2)) (Zq SQUARE / 2))
  ∨ (Qeq p.2 q.2 ∧ Qeq (Qabs (p.1 - q.1)) (Zq SQUARE / 2)).

Definition half_stepb (p q : point) : bool :=
  (Qeq_bool p.1 q.1 && Qeq_bool (Qabs (p.2 - q.2)) (Zq SQUARE / 2))
  || (Qeq_bool p.2 q.2 && Qeq_bool (Qabs (p.1 - q.1)) (Zq SQUARE / 2)).

(** Two points two squares apart along one corridor line, a grid line
    between two files or between two ranks. *)
Definition long_leg (p q : point) : Prop :=
  ∃ k : Z, 1 ≤ k ≤ 7 ∧
    ((Qeq p.1 (Zq (MARGIN + k * SQUARE)) ∧ Qeq q.1 (Zq (MARGIN + k * SQUARE))
      ∧ Qeq (Qabs (p.2 - q.2)) (Zq (2 * SQUARE)))
     ∨ (Qeq p.2 (Zq (MARGIN + k * SQUARE)) ∧ Qeq q.2 (Zq (MARGIN + k * SQUARE))
        ∧ Qeq (Qabs (p.1 - q.1)) (Zq (2 * SQUARE)))).

(** The vertical grid lines [c], [c + step], ... ([n] of them) at height
    [sy], in board units. *)
Definition grid_lines (c step : Z) (n : nat) (sy : Q) : list point :=
  (fun k => (Zq (c + k * step), sy)) <$> range n.


(** A point of the straight stretch between two waypoints that lie on one
    horizontal or one vertical line. *)
Definition on_segment (p a b : point) : Prop :=
  (Qeq a.2 p.2 ∧ Qeq b.2 p.2
   ∧ ((a.1 <= p.1 ∧ p.1 <= b.1) ∨ (b.1 <= p.1 ∧ p.1 <= a.1))%Q)
  ∨ (Qeq a.1 p.1 ∧ Qeq b.1 p.1
     ∧ ((a.2 <= p.2 ∧ p.2 <= b.2) ∨ (b.2 <= p.2 ∧ p.2 <= a.2))%Q).

(** The slot of the initialised grid at index [i], in closed form: two
    columns 48 pixels apart, rows 64.8 pixels apart, filled row by row. *)
Definition grid_slot (i : Z) : point :=
  ((Zq (BOARD_PIXELS + 24 + 48 * (i `mod` 2)))%Q,
   (Zq MARGIN + Zq (i `div` 2) * (Zq SQUARE * (9 # 10)) + Zq SQUARE * (45 # 100))%Q).

(** Every two consecutive items of a list are related. *)
Fixpoint chain {A} (R : A → A → Prop) (l : list A) : Prop :=
  match l with
  | a :: (b :: _) as l' => R a b ∧ chain R l'
  | _ => True
  end.

(** The Manhattan distance [nearest_node_to_xy] ranks the nodes by. *)
Definition node_distance (xy : point) (n : node) : Q :=
  (Qabs ((node_xy n).1 - xy.1) + Qabs ((node_xy n).2 - xy.2))%Q.

(** One turn of the loop of [nearest_node_to_xy]. *)
Definition nearer (xy : point) (acc : option node * Q) (n : node) : option node * Q :=
  if Qlt_le_dec (node_distance xy n) acc.2 then (Some n, node_distance xy n) else acc.

(** The four squares next to a square along its rank and its file. *)
Definition orthogonal (r c : Z) : list (Z * Z) :=
  [(r, c - 1); (r, c + 1); (r - 1, c); (r + 1, c)].

Definition on_board (rc : Z * Z) : Prop := 0 ≤ rc.1 < 8 ∧ 0 ≤ rc.2 < 8.

(** A node on the grid of half squares: a Center at even coordinates, a
    midpoint one half square further along its rank or its file. *)
Definition half_grid (n : node) : Z * Z :=
  match n with
  | (TC, r, c) => (2 * c, 2 * r)
  | (TH, r, c) => (2 * c + 1, 2 * r)
  | (TV, r, c) => (2 * c, 2 * r + 1)
  end.

(** Nothing is blocked. *)
Definition open_blk (r c : Z) : bool := false.

(** The number of waypoints of a straight corridor route between two
    squares: two per square crossed along the rank and along the file, and
    one. *)
Definition direct_length (rs cs rd cd : Z) : Z :=
  2 * (Z.abs (rd - rs) + Z.abs (cd - cs)) + 1.

(** [a_star] on the open board finds a route of [direct_length] waypoints
    from the square in row [rs], column [cs] to every square. *)
Definition direct_from (rs cs : Z) : bool :=
  forallb (fun rd => forallb (fun cd =>
    match a_star (TC, rs, cs) (TC, rd, cd) open_blk with
    | Ok (Some l) => Z.of_nat (length l) =? direct_length rs cs rd cd
    | _ => false
    end) (range 8)) (range 8).

(** The pixel rectangle of the square in row [r], column [c]: left and top
    edges included, right and bottom edges not. *)
Definition in_square_rect (r c : Z) (mx my : Q) : Prop :=
  (Zq (MARGIN + c * SQUARE) <= mx ∧ mx < Zq (MARGIN + (c + 1) * SQUARE)
   ∧ Zq (MARGIN + (7 - r) * SQUARE) <= my ∧ my < Zq (MARGIN + (8 - r) * SQUARE))%Q.

(** Within the 8 x 8 play area: left and top edges included. *)
Definition in_play_area (mx my : Q) : Prop :=
  (Zq MARGIN <= mx ∧ mx < Zq (BOARD_PIXELS - MARGIN)
   ∧ Zq MARGIN <= my ∧ my < Zq (BOARD_PIXELS - MARGIN))%Q.

(** The squares behind which a castling king is to land, with the
    corridors around them: g and h on the king side, c, b and a on the queen
    side, on the king's rank [kr]. *)
Definition castle_region (kr : Z) (kingside : bool) : list node :=
  if kingside then
    [(TC, kr, 6); (TC, kr, 7); (TH, kr, 5); (TH, kr, 6);
     (TV, kr - 1, 6); (TV, kr, 6); (TV, kr - 1, 7); (TV, kr, 7)]
  else
    [(TC, kr, 2); (TC, kr, 1); (TC, kr, 0); (TH, kr, 2); (TH, kr, 1); (TH, kr, 0);
     (TV, kr - 1, 2); (TV, kr, 2); (TV, kr - 1, 1); (TV, kr, 1);
     (TV, kr - 1, 0); (TV, kr, 0)].

(** The files of these squares. *)
Definition castle_files (kingside : bool) : list Z :=
  if kingside then [6; 7] else [2; 1; 0].

(** The king's move when castling on rank [kr]: e to g, or e to c. *)
Definition castling_move (kr : Z) (kingside : bool) : Move :=
  {| from_square := square 4 kr; to_square := square (if kingside then 6 else 2) kr |}.

(** The opening position after the king's knight and bishop have left: the
    white king may castle king side. *)
Definition opening_board : MapBoard :=
  {| mb_pieces := list_to_map
       ([(0, white ROOK); (1, white KNIGHT); (2, white BISHOP); (3, white QUEEN);
         (4, white KING); (7, white ROOK)]
        ++ ((fun f => (square f 1, white PAWN)) <$> range 8)
        ++ [(60, black KING)]);
     mb_ep := None |}.

Section animator_invariant.
Context {F : Type}.

(** The cursor of an Animator that is not done points at a segment of the
    plan and, when that segment has waypoints, at one of them. *)
Definition cursor_ok (a : Animator F) : Prop :=
  done a = true
  ∨ ∃ seg, segments a !! cur_seg_i a = Some seg
      ∧ (waypoints seg = [] ∧ cur_wp_i a = 0%nat
         ∨ (cur_wp_i a < length (waypoints seg))%nat).
End animator_invariant.

(** * Properties *)

(** ** The corridor graph *)

Lemma build_corridor_graph_ok : build_corridor_graph = Ok GRAPH.
Proof.
  assert (is_ok build_corridor_graph = true) as Hok by (vm_compute; reflexivity).
  unfold GRAPH. destruct build_corridor_graph; simpl in Hok; congruence.
Qed.

Lemma EDGES_size : size EDGES = 176%nat.
Proof. vm_compute. reflexivity. Qed.

(** Every neighbour listed in [EDGES] has an entry of its own. *)
Lemma EDGES_closed n s m :
  EDGES !! n = Some s → m ∈ s → is_Some (EDGES !! m).
Proof.
  assert (bool_decide (map_Forall (fun _ s =>
            set_Forall (fun m => is_Some (EDGES !! m)) s) EDGES) = true) as Hall
    by (vm_compute; reflexivity).
  apply bool_decide_eq_true_1 in Hall.
  intros Hn Hm. exact (Hall n s Hn m Hm).
Qed.

Lemma EDGES_dom : dom EDGES = NODES.
Proof.
  assert (bool_decide (dom EDGES = NODES) = true) as Heq by (vm_compute; reflexivity).
  by apply bool_decide_eq_true_1 in Heq.
Qed.

(** ** The open list *)

Lemma elem_of_heappush (h : list entry) (x e : entry) :
  e ∈ heappush h x ↔ e = x ∨ e ∈ h.
Proof.
  induction h as [|y h IH]; simpl.
  - rewrite list_elem_of_singleton, elem_of_nil. tauto.
  - destruct (entry_compare x y); rewrite ?elem_of_cons, ?IH; rewrite ?elem_of_cons; tauto.
Qed.

Lemma length_heappush (h : list entry) (x : entry) :
  length (heappush h x) = S (length h).
Proof.
  induction h as [|y h IH]; simpl; [done|].
  destruct (entry_compare x y); simpl; by rewrite ?IH.
Qed.

(** ** The order in which the neighbours are visited does not matter *)

Lemma tag_rank_inj t1 t2 : tag_rank t1 = tag_rank t2 → t1 = t2.
Proof. by destruct t1, t2. Qed.

Lemma node_compare_Eq a b : node_compare a b = Eq → a = b.
Proof.
  destruct a as [[ta ra] ca], b as [[tb rb] cb]. unfold node_compare. cbn [ntag nrow ncol fst snd].
  destruct (Z.compare_spec (tag_rank ta) (tag_rank tb)) as [Ht| |]; [|done..].
  destruct (Z.compare_spec ra rb) as [Hr| |]; [|done..].
  intros Hc%Z.compare_eq. apply tag_rank_inj in Ht. congruence.
Qed.

Lemma node_compare_Lt_iff a b :
  node_compare a b = Lt ↔
  tag_rank (ntag a) < tag_rank (ntag b)
  ∨ (tag_rank (ntag a) = tag_rank (ntag b)
     ∧ (nrow a < nrow b ∨ (nrow a = nrow b ∧ ncol a < ncol b))).
Proof.
  unfold node_compare.
  destruct (Z.compare_spec (tag_rank (ntag a)) (tag_rank (ntag b)));
    [|split; [lia|done]|split; [done|lia]].
  destruct (Z.compare_spec (nrow a) (nrow b)); [|split; [lia|done]|split; [done|lia]].
  rewrite Z.compare_lt_iff. lia.
Qed.

Lemma node_compare_Gt_iff a b :
  node_compare a b = Gt ↔
  tag_rank (ntag b) < tag_rank (ntag a)
  ∨ (tag_rank (ntag a) = tag_rank (ntag b)
     ∧ (nrow b < nrow a ∨ (nrow a = nrow b ∧ ncol b < ncol a))).
Proof.
  unfold node_compare.
  destruct (Z.compare_spec (tag_rank (ntag a)) (tag_rank (ntag b)));
    [|split; [done|lia]|split; [lia|done]].
  destruct (Z.compare_spec (nrow a) (nrow b)); [|split; [done|lia]|split; [lia|done]].
  rewrite Z.compare_gt_iff. lia.
Qed.

Lemma node_compare_Lt_trans a b c :
  node_compare a b = Lt → node_compare b c ≠ Gt → node_compare a c = Lt.
Proof. rewrite !node_compare_Lt_iff, node_compare_Gt_iff. lia. Qed.

Lemma node_compare_Gt_Lt a b : node_compare a b = Gt → node_compare b a = Lt.
Proof. rewrite node_compare_Lt_iff, node_compare_Gt_iff. lia. Qed.

Lemma node_compare_refl a : node_compare a a = Eq.
Proof. unfold node_compare. by rewrite !Z.compare_refl. Qed.

Lemma entry_compare_Eq a b : entry_compare a b = Eq → a.2 = b.2.
Proof.
  unfold entry_compare. destruct (Qcompare_spec a.1 b.1); [|done..]. apply node_compare_Eq.
Qed.

Lemma entry_compare_Gt_Lt a b : entry_compare a b = Gt → entry_compare b a = Lt.
Proof.
  unfold entry_compare.
  destruct (Qcompare_spec a.1 b.1) as [Hab|Hab|Hab];
    destruct (Qcompare_spec b.1 a.1) as [Hba|Hba|Hba]; try done; try lra.
  apply node_compare_Gt_Lt.
Qed.

Lemma entry_compare_Lt_trans a b c :
  entry_compare a b = Lt → entry_compare b c ≠ Gt → entry_compare a c = Lt.
Proof.
  unfold entry_compare.
  destruct (Qcompare_spec a.1 b.1) as [Hab|Hab|Hab];
    destruct (Qcompare_spec b.1 c.1) as [Hbc|Hbc|Hbc];
    destruct (Qcompare_spec a.1 c.1) as [Hac|Hac|Hac]; try done; try lra.
  apply node_compare_Lt_trans.
Qed.

Lemma heappush_comm_Lt (h : list entry) (e1 e2 : entry) :
  entry_compare e1 e2 = Lt →
  heappush (heappush h e1) e2 = heappush (heappush h e2) e1.
Proof.
  intros Hlt.
  assert (entry_compare e2 e1 = Gt) as Hgt.
  { assert (entry_compare e1 e1 ≠ Lt) as Hirr.
    { unfold entry_compare. destruct (Qcompare_spec e1.1 e1.1); [|lra..].
      by rewrite node_compare_refl. }
    destruct (entry_compare e2 e1) eqn:Hc; [| |done]; destruct Hirr;
      apply (entry_compare_Lt_trans e1 e2 e1 Hlt); by rewrite Hc. }
  induction h as [|x h IH]; cbn [heappush].
  - by rewrite Hgt, Hlt.
  - destruct (entry_compare e1 x) eqn:H1; destruct (entry_compare e2 x) eqn:H2;
      cbn [heappush]; rewrite ?Hgt, ?Hlt, ?H1, ?H2; try done.
    + pose proof (entry_compare_Lt_trans e1 e2 x Hlt) as Ht. rewrite H2 in Ht.
      specialize (Ht ltac:(done)). congruence.
    + pose proof (entry_compare_Lt_trans e1 e2 x Hlt) as Ht. rewrite H2 in Ht.
      specialize (Ht ltac:(done)). congruence.
    + by rewrite IH.
Qed.

Lemma heappush_comm (h : list entry) (e1 e2 : entry) :
  e1.2 ≠ e2.2 → heappush (heappush h e1) e2 = heappush (heappush h e2) e1.
Proof.
  intros Hne. destruct (entry_compare e1 e2) eqn:Hc.
  - by apply entry_compare_Eq in Hc.
  - by apply heappush_comm_Lt.
  - symmetry. by apply heappush_comm_Lt, entry_compare_Gt_Lt.
Qed.

Lemma relax_unfold goal blk cur nb st :
  relax goal blk cur nb st =
  if skipped goal blk nb then Ok st
  else match gsc st !! cur with
       | None => Raise KeyError
       | Some gcur =>
           if gcur + 1 <? default (10 ^ 18) (gsc st !! nb) then
             Ok {| openh := heappush (openh st) ((Zq (gcur + 1) + heuristic nb goal)%Q, nb);
                   came := <[nb := Some cur]> (came st);
                   gsc := <[nb := gcur + 1]> (gsc st) |}
           else Ok st
       end.
Proof. unfold relax, skipped, getitem. by destruct (gsc st !! cur). Qed.

Lemma relax_comm goal blk cur x y st :
  x ≠ y →
  relax goal blk cur x st ≫= relax goal blk cur y =
  relax goal blk cur y st ≫= relax goal blk cur x.
Proof.
  intros Hxy. rewrite (relax_unfold goal blk cur x st), (relax_unfold goal blk cur y st).
  destruct (skipped goal blk x) eqn:Hsx; destruct (skipped goal blk y) eqn:Hsy;
    cbn [mbind res_bind]; rewrite ?relax_unfold, ?Hsx, ?Hsy; try done.
  - destruct (gsc st !! cur) as [gcur|]; [|done].
    destruct (_ <? _); cbn [mbind res_bind]; by rewrite relax_unfold, Hsx.
  - destruct (gsc st !! cur) as [gcur|]; [|done].
    destruct (_ <? _); cbn [mbind res_bind]; by rewrite relax_unfold, Hsy.
  - destruct (gsc st !! cur) as [gcur|] eqn:Hcur; cbn [mbind res_bind]; [|done].
    destruct (gcur + 1 <? default (10 ^ 18) (gsc st !! x)) eqn:Hx;
      destruct (gcur + 1 <? default (10 ^ 18) (gsc st !! y)) eqn:Hy;
      cbn [mbind res_bind]; rewrite ?relax_unfold, ?Hsx, ?Hsy; cbn [gsc came openh].
    + assert (x ≠ cur) by (intros ->; rewrite Hcur in Hx; cbn in Hx; lia).
      assert (y ≠ cur) by (intros ->; rewrite Hcur in Hy; cbn in Hy; lia).
      rewrite !lookup_insert_ne by done. rewrite Hcur, Hx, Hy. f_equal. f_equal.
      * by apply heappush_comm.
      * by apply insert_insert_ne.
      * by apply insert_insert_ne.
    + assert (x ≠ cur) by (intros ->; rewrite Hcur in Hx; cbn in Hx; lia).
      rewrite !lookup_insert_ne by done. by rewrite Hcur, Hx, Hy.
    + assert (y ≠ cur) by (intros ->; rewrite Hcur in Hy; cbn in Hy; lia).
      rewrite !lookup_insert_ne by done. by rewrite Hcur, Hx, Hy.
    + by rewrite Hcur, Hx, Hy.
Qed.

(** [for nb in EDGES[cur]] gives the same open list, [came] and [g] whatever
    order the set is walked in. *)
Lemma relax_perm goal blk cur (l l' : list node) st :
  NoDup l → l ≡ₚ l' →
  for_each (relax goal blk cur) l st = for_each (relax goal blk cur) l' st.
Proof.
  intros Hnd Hp. revert st Hnd.
  induction Hp as [|x l l' Hp IH|x y l|l l' l'' Hp1 IH1 Hp2 IH2]; intros st Hnd.
  - done.
  - apply NoDup_cons in Hnd as [_ Hnd]. cbn [for_each].
    destruct (relax goal blk cur x st); cbn [mbind res_bind]; [by apply IH|done..].
  - apply NoDup_cons in Hnd as [Hy _]. assert (y ≠ x) as Hxy by set_solver.
    cbn [for_each]. pose proof (relax_comm goal blk cur y x st Hxy) as Hc.
    destruct (relax goal blk cur y st) as [s1| |]; destruct (relax goal blk cur x st) as [s2| |];
      cbn [mbind res_bind] in *; try done.
    + by rewrite Hc.
    + by rewrite Hc.
    + by rewrite Hc.
    + by rewrite <- Hc.
    + by rewrite <- Hc.
  - rewrite IH1 by done. apply IH2. by rewrite <- Hp1.
Qed.

(** ** Sum of the scores of a map, for the termination measure *)

Lemma sumg_insert_None g n v :
  g !! n = None → sumg (<[n := v]> g) = v + sumg g.
Proof.
  intros Hn. unfold sumg. apply (map_fold_insert_L (fun _ v acc => v + acc)); [|done].
  intros. lia.
Qed.

Lemma sumg_insert_Some g n v0 v :
  g !! n = Some v0 → sumg (<[n := v]> g) = sumg g - v0 + v.
Proof.
  intros Hn.
  assert (sumg g = v0 + sumg (delete n g)) as ->.
  { unfold sumg. apply (map_fold_delete_L (fun _ v acc => v + acc)); [|done]. intros. lia. }
  rewrite <- insert_delete_eq, sumg_insert_None by apply lookup_delete_eq. lia.
Qed.

Lemma sumg_nonneg g :
  (∀ n v, g !! n = Some v → 0 ≤ v) → 0 ≤ sumg g.
Proof.
  unfold sumg.
  apply (map_fold_weak_ind (fun r (m : gmap node Z) => (∀ n v, m !! n = Some v → 0 ≤ v) → 0 ≤ r)).
  - intros _. lia.
  - intros i x m r Hi IH Hall.
    assert (0 ≤ x) by (apply (Hall i); apply lookup_insert_eq).
    assert (0 ≤ r); [|lia].
    apply IH. intros n v Hv. apply (Hall n). rewrite lookup_insert_ne; [done|]. congruence.
Qed.

(** ** A*: what a returned path is, and that the search ends *)

Section a_star_facts.
Variables (edges : gmap node (gset node)) (start goal : node) (blk : Z → Z → bool).
Hypothesis edges_closed :
  ∀ n s m, edges !! n = Some s → m ∈ s → is_Some (edges !! m).
Hypothesis edges_fuel :
  Z.of_nat (size edges) * Z.of_nat (size edges) + 1 < Z.of_nat A_STAR_FUEL.

Local Abbreviation Inv := (inv edges start goal blk).
Local Abbreviation Route := (route_to edges start goal blk).
Local Abbreviation Step := (legal_step edges goal blk).
Local Abbreviation Measure := (measure edges).
Local Abbreviation Frontier := (frontier edges goal blk).
Local Abbreviation Goal_waits := (goal_waits goal).

Lemma inv_dom st : Inv st → dom (gsc st) ⊆ dom edges.
Proof.
  intros Hi n [v Hv]%elem_of_dom. apply elem_of_dom. by apply (inv_g _ _ _ _ _ Hi n v).
Qed.

Lemma inv_size st : Inv st → (size (gsc st) ≤ size edges)%nat.
Proof.
  intros Hi.
  rewrite <- (size_dom (D := gset node) (gsc st)), <- (size_dom (D := gset node) edges).
  by apply subseteq_size, inv_dom.
Qed.

Lemma inv_size_fresh st nb :
  Inv st → is_Some (edges !! nb) → gsc st !! nb = None → (size (gsc st) < size edges)%nat.
Proof.
  intros Hi He Hn.
  rewrite <- (size_dom (D := gset node) (gsc st)), <- (size_dom (D := gset node) edges).
  apply subset_size. split; [by apply inv_dom|].
  intros Hsub. assert (nb ∈ dom (gsc st)) as [v Hv]%elem_of_dom
    by (apply Hsub; by apply elem_of_dom).
  congruence.
Qed.

Lemma measure_nonneg st : Inv st → 0 ≤ Measure st.
Proof.
  intros Hi. unfold measure, pot.
  pose proof (inv_size _ Hi).
  assert (0 ≤ sumg (gsc st)); [|nia].
  apply sumg_nonneg. intros n v Hv. by apply (inv_g _ _ _ _ _ Hi n v).
Qed.

Lemma relax_spec cur nbs nb st :
  Inv st → is_Some (gsc st !! cur) → edges !! cur = Some nbs → nb ∈ nbs →
  ∃ st', relax goal blk cur nb st = Ok st' ∧ Inv st' ∧ Measure st' ≤ Measure st
         ∧ is_Some (gsc st' !! cur).
Proof.
  intros Hi [gcur Hcur] Hnbs Hnb. unfold relax.
  destruct (bool_decide (ntag nb = TC) &&
            (blk (nrow nb) (ncol nb) && negb (bool_decide (nb = goal)))) eqn:Hskip.
  { exists st. split; [reflexivity|]. split; [exact Hi|]. split; [lia|by exists gcur]. }
  unfold getitem. rewrite Hcur. simpl.
  destruct (Z.ltb_spec (gcur + 1) (default (10 ^ 18) (gsc st !! nb))) as [Hlt|Hge];
    [|exists st; split; [reflexivity|]; split; [exact Hi|]; split; [lia|by exists gcur]].
  destruct (inv_g _ _ _ _ _ Hi cur gcur Hcur) as ([Hc0 Hcs] & _ & Hcame_cur).
  assert (nb ≠ start) as Hns.
  { intros ->. rewrite (inv_start_g _ _ _ _ _ Hi) in Hlt. simpl in Hlt. lia. }
  assert (nb ≠ cur) as Hnc.
  { intros ->. rewrite Hcur in Hlt. simpl in Hlt. lia. }
  assert (is_Some (edges !! nb)) as Hnbe by exact (edges_closed cur nbs nb Hnbs Hnb).
  assert (Step cur nb) as Hstep.
  { split; [exists nbs; split; assumption|]. intros Ht Hb.
    rewrite Hb in Hskip. rewrite (bool_decide_eq_true_2 _ Ht) in Hskip. simpl in Hskip.
    apply negb_false_iff, bool_decide_eq_true_1 in Hskip. done. }
  clear Hskip.
  eexists. split; [reflexivity|]. split; [|split].
  - constructor; simpl.
    + rewrite lookup_insert_ne by done. apply Hi.
    + rewrite lookup_insert_ne by done. apply Hi.
    + intros n. rewrite lookup_insert. case_decide; [done|]. apply Hi.
    + intros n p. rewrite lookup_insert. case_decide as Hn.
      * subst n. intros [= <-]. split; [done|].
        exists (gcur + 1), gcur. rewrite lookup_insert_eq, lookup_insert_ne by done.
        repeat split; [done|lia].
      * intros Hl. destruct (inv_link _ _ _ _ _ Hi n p Hl) as (Hs & vn & vp & Hvn & Hvp & Hle).
        split; [done|]. rewrite lookup_insert_ne by done.
        destruct (decide (p = nb)) as [->|Hp].
        -- rewrite Hvp in Hlt. simpl in Hlt.
           exists vn, (gcur + 1). rewrite lookup_insert_eq. repeat split; [done|lia].
        -- exists vn, vp. rewrite lookup_insert_ne by done. done.
    + intros n v. rewrite !lookup_insert.
      assert (size (gsc st) ≤ size (<[nb := (gcur + 1)%Z]> (gsc st)))%nat as Hsz.
      { destruct (gsc st !! nb) eqn:Hg.
        - rewrite map_size_insert_Some by done. lia.
        - rewrite map_size_insert_None by done. lia. }
      case_decide as Hn.
      * intros [= <-]. subst n. repeat split; [lia| |done|by eexists].
        destruct (gsc st !! nb) as [v0|] eqn:Hg; simpl in Hlt.
        -- destruct (inv_g _ _ _ _ _ Hi nb v0 Hg) as ([? ?] & _). lia.
        -- rewrite map_size_insert_None by done. lia.
      * intros Hv. destruct (inv_g _ _ _ _ _ Hi n v Hv) as ([? ?] & ? & ?).
        repeat split; [lia|lia|done|done].
    + intros e [->|He]%elem_of_heappush; simpl.
      * rewrite lookup_insert_eq. by eexists.
      * rewrite lookup_insert. case_decide; [by eexists|]. by apply Hi.
  - unfold measure, pot. simpl. rewrite length_heappush.
    destruct (gsc st !! nb) as [v0|] eqn:Hg; simpl in Hlt.
    + rewrite map_size_insert_Some, (sumg_insert_Some _ _ v0) by done. lia.
    + pose proof (inv_size_fresh st nb Hi Hnbe Hg).
      rewrite map_size_insert_None, sumg_insert_None by done. nia.
  - simpl. rewrite lookup_insert_ne by done. by exists gcur.
Qed.

Lemma for_each_relax_spec cur nbs l st :
  Inv st → is_Some (gsc st !! cur) → edges !! cur = Some nbs → (∀ nb, nb ∈ l → nb ∈ nbs) →
  ∃ st', for_each (relax goal blk cur) l st = Ok st' ∧ Inv st' ∧ Measure st' ≤ Measure st.
Proof.
  revert st. induction l as [|nb l IH]; intros st Hi Hc Hn Hl; simpl.
  - exists st. split; [reflexivity|]. split; [exact Hi|lia].
  - destruct (relax_spec cur nbs nb st Hi Hc Hn) as (st1 & -> & Hi1 & Hm1 & Hc1).
    { apply Hl. by left. }
    simpl. destruct (IH st1 Hi1 Hc1 Hn) as (st2 & -> & Hi2 & Hm2).
    { intros x Hx. apply Hl. by right. }
    exists st2. split; [reflexivity|]. split; [exact Hi2|lia].
Qed.

(** Following [came] from a scored node reaches [start], along a route. *)
Lemma walk_back_spec st fuel n v acc :
  Inv st → gsc st !! n = Some v → v < Z.of_nat fuel →
  ∃ l, walk_back fuel (came st) (Some n) acc = Ok (acc ++ l) ∧ Route n (reverse l).
Proof.
  intros Hi. revert n v acc. induction fuel as [|fuel IH]; intros n v acc Hv Hf.
  { destruct (inv_g _ _ _ _ _ Hi n v Hv) as ([? ?] & _). lia. }
  destruct (inv_g _ _ _ _ _ Hi n v Hv) as (_ & _ & [p Hp]).
  simpl. unfold getitem. rewrite Hp. simpl. destruct p as [p|].
  - destruct (inv_link _ _ _ _ _ Hi n p Hp) as (Hs & vn & vp & Hvn & Hvp & Hle).
    assert (vn = v) as -> by congruence.
    destruct (IH p vp (acc ++ [n]) Hvp) as (l & Hl & Hr); [lia|].
    exists (n :: l). rewrite Hl, <- app_assoc. split; [reflexivity|].
    rewrite reverse_cons. by econstructor.
  - apply (inv_root _ _ _ _ _ Hi) in Hp as ->.
    exists [start]. split; [by destruct fuel|]. apply route_here.
Qed.

Lemma a_star_loop_spec fuel st :
  Inv st → Measure st < Z.of_nat fuel →
  a_star_loop edges fuel goal blk st = Ok None ∨
  ∃ l, a_star_loop edges fuel goal blk st = Ok (Some l) ∧ Route goal l.
Proof.
  revert st. induction fuel as [|fuel IH]; intros st Hi Hm.
  { pose proof (measure_nonneg _ Hi). lia. }
  cbn [a_star_loop]. destruct (openh st) as [|[f cur] rest] eqn:Hopen; cbn [heappop]; [by left|].
  destruct (inv_open _ _ _ _ _ Hi (f, cur)) as [v Hv]; [rewrite Hopen; by left|]. simpl in Hv.
  destruct (inv_g _ _ _ _ _ Hi cur v Hv) as ([Hv0 Hvs] & [nbs Hnbs] & _).
  case_bool_decide as Hgoal.
  - subst cur. right. cbn [came].
    destruct (walk_back_spec st A_STAR_FUEL goal v [] Hi Hv) as (l & Hl & Hr).
    { pose proof (inv_size _ Hi). nia. }
    exists (reverse l). rewrite Hl. done.
  - assert (getitem edges cur = Ok nbs) as Hget by (unfold getitem; by rewrite Hnbs).
    rewrite !Hget. cbn [mbind res_bind].
    set (st0 := {| openh := rest; came := came st; gsc := gsc st |}).
    assert (Inv st0) as Hi0.
    { destruct Hi. constructor; simpl; try done.
      intros e He. apply inv_open0. rewrite Hopen. by right. }
    destruct (for_each_relax_spec cur nbs (elements nbs) st0 Hi0) as (st1 & Hst1 & Hi1 & Hm1);
      [by exists v|done|by intros nb ?%elem_of_elements|].
    rewrite !Hst1. cbn [mbind res_bind]. apply IH; [done|].
    unfold measure in *. rewrite Hopen in Hm. simpl in *. lia.
Qed.

Lemma inv_init :
  is_Some (edges !! start) →
  Inv {| openh := heappush [] (0%Q, start); came := {[start := None]}; gsc := {[start := 0]} |}.
Proof.
  intros He. constructor; simpl.
  - apply lookup_singleton_eq.
  - apply lookup_singleton_eq.
  - by intros n [-> _]%lookup_singleton_Some.
  - by intros n p [_ ?]%lookup_singleton_Some.
  - intros n v [<- <-]%lookup_singleton_Some. rewrite map_size_singleton, lookup_singleton_eq.
    split; [split; [lia|reflexivity]|]. split; [done|by eexists].
  - intros e ->%list_elem_of_singleton. simpl. rewrite lookup_singleton_eq. by eexists.
Qed.

Lemma a_star_with_spec :
  is_Some (edges !! start) →
  let st0 := {| openh := heappush [] (0%Q, start);
                came := {[start := None]}; gsc := {[start := 0]} |} in
  a_star_loop edges A_STAR_FUEL goal blk st0 = Ok None ∨
  ∃ l, a_star_loop edges A_STAR_FUEL goal blk st0 = Ok (Some l) ∧ Route goal l.
Proof.
  intros He st0. apply a_star_loop_spec; [by apply inv_init|].
  unfold measure, pot, st0; cbn [openh gsc heappush length].
  rewrite map_size_singleton.
  assert (sumg {[start := 0]} = 0) as ->.
  { unfold sumg. by rewrite map_fold_singleton. }
  assert (0 < size edges)%nat.
  { destruct He as [s Hs]. destruct (decide (size edges = 0%nat)) as [Hz|]; [|lia].
    apply map_size_empty_inv in Hz. rewrite Hz, lookup_empty in Hs. done. }
  nia.
Qed.

(** What a route is made of. *)
Lemma route_to_head n l : Route n l → head l = Some start.
Proof. induction 1 as [|p n l Hr IH Hs]; [done|]. destruct l; [done|]. exact IH. Qed.

Lemma route_to_last n l : Route n l → last l = Some n.
Proof. induction 1; [done|]. apply last_snoc. Qed.

Lemma route_to_allowed n l x :
  Route n l → x ∈ l →
  x = start ∨ (ntag x = TC → blk (nrow x) (ncol x) = true → x = goal).
Proof.
  induction 1 as [|p n l Hr IH [_ Hs]].
  - intros ->%list_elem_of_singleton. by left.
  - intros [Hx| ->%list_elem_of_singleton]%elem_of_app; [by apply IH|by right].
Qed.
(** *** The search misses no route *)

Lemma relax_frontier cur nb st st' :
  Inv st → is_Some (gsc st !! cur) →
  relax goal blk cur nb st = Ok st' →
  Frontier (Some cur) st → Goal_waits st →
  Frontier (Some cur) st' ∧ Goal_waits st'
  ∧ (Step cur nb → is_Some (gsc st' !! nb))
  ∧ (∀ m, is_Some (gsc st !! m) → is_Some (gsc st' !! m)).
Proof.
  intros Hi [gcur Hcur] Hrel Hfr Hgw. rewrite relax_unfold, Hcur in Hrel.
  destruct (skipped goal blk nb) eqn:Hskip.
  { injection Hrel as <-. split; [done|]. split; [done|]. split; [|done].
    intros [_ Hpass]. exfalso. unfold skipped in Hskip.
    apply andb_true_iff in Hskip as [Ht%bool_decide_eq_true_1 [Hb Hg%negb_true_iff]%andb_true_iff].
    apply bool_decide_eq_false_1 in Hg. by apply Hg, Hpass. }
  destruct (Z.ltb_spec (gcur + 1) (default (10 ^ 18) (gsc st !! nb))) as [Hlt|Hge].
  - injection Hrel as <-. unfold frontier, goal_waits. cbn [gsc openh came].
    split; [|split; [|split]].
    + intros n. rewrite lookup_insert. case_decide as Hn.
      * intros _. subst n. right. left. eexists. apply elem_of_heappush. by left.
      * intros Hsome. destruct (Hfr n Hsome) as [?|[[f Hf]|Hclosed]]; [by left| |].
        -- right. left. exists f. apply elem_of_heappush. by right.
        -- right. right. intros m Hm. rewrite lookup_insert. case_decide; [by eexists|].
           by apply Hclosed.
    + intros Hsome. rewrite lookup_insert in Hsome. case_decide as Hn.
      * subst nb. eexists. apply elem_of_heappush. by left.
      * destruct (Hgw Hsome) as [f Hf]. exists f. apply elem_of_heappush. by right.
    + intros _. rewrite lookup_insert_eq. by eexists.
    + intros m Hm. rewrite lookup_insert. case_decide; [by eexists|done].
  - injection Hrel as <-. split; [done|]. split; [done|]. split; [|done].
    intros _. destruct (gsc st !! nb) as [v|] eqn:Hnb; [by eexists|]. exfalso.
    cbn in Hge. destruct (inv_g _ _ _ _ _ Hi cur gcur Hcur) as ([? Hsz] & _).
    pose proof (inv_size _ Hi).
    assert (Z.of_nat A_STAR_FUEL = 30978) as Hfuel by (vm_compute; reflexivity).
    rewrite Hfuel in edges_fuel. nia.
Qed.

Lemma for_each_relax_frontier cur l st st' :
  Inv st → is_Some (gsc st !! cur) → (∃ nbs, edges !! cur = Some nbs ∧ ∀ nb, nb ∈ l → nb ∈ nbs) →
  for_each (relax goal blk cur) l st = Ok st' →
  Frontier (Some cur) st → Goal_waits st →
  Frontier (Some cur) st' ∧ Goal_waits st'
  ∧ (∀ nb, nb ∈ l → Step cur nb → is_Some (gsc st' !! nb))
  ∧ (∀ m, is_Some (gsc st !! m) → is_Some (gsc st' !! m)).
Proof.
  revert st. induction l as [|nb l IH]; intros st Hi Hc (nbs & Hnbs & Hl) Hfe Hfr Hgw.
  - injection Hfe as <-. split; [done|]. split; [done|]. split; [|done].
    by intros nb []%elem_of_nil.
  - cbn [for_each] in Hfe.
    destruct (relax_spec cur nbs nb st Hi Hc Hnbs) as (st1 & Hst1 & Hi1 & _ & Hc1).
    { apply Hl. by left. }
    rewrite Hst1 in Hfe. cbn [mbind res_bind] in Hfe.
    destruct (relax_frontier cur nb st st1 Hi Hc Hst1 Hfr Hgw) as (Hfr1 & Hgw1 & Hnb1 & Hmono1).
    destruct (IH st1 Hi1 Hc1) as (Hfr2 & Hgw2 & Hl2 & Hmono2); [|done..|].
    { exists nbs. split; [done|]. intros x Hx. apply Hl. by right. }
    split; [done|]. split; [done|]. split.
    + intros x [->|Hx]%elem_of_cons Hstep; [by apply Hmono2, Hnb1|by apply Hl2].
    + intros m Hm. by apply Hmono2, Hmono1.
Qed.

Lemma frontier_closed st n l :
  Frontier None st → openh st = [] → is_Some (gsc st !! start) →
  Route n l → is_Some (gsc st !! n).
Proof.
  intros Hfr Hopen Hstart. induction 1 as [|p n l Hr IH Hstep]; [done|].
  destruct (Hfr p IH) as [[=]|[[f Hf]|Hclosed]].
  - rewrite Hopen in Hf. by apply elem_of_nil in Hf.
  - by apply Hclosed.
Qed.

Lemma a_star_loop_complete fuel st :
  Inv st → Frontier None st → Goal_waits st → Measure st < Z.of_nat fuel →
  a_star_loop edges fuel goal blk st = Ok None → ∀ l, ¬ Route goal l.
Proof.
  revert st. induction fuel as [|fuel IH]; intros st Hi Hfr Hgw Hm Hnone l Hl.
  { pose proof (measure_nonneg _ Hi). lia. }
  cbn [a_star_loop] in Hnone.
  destruct (openh st) as [|[f cur] rest] eqn:Hopen; cbn [heappop] in Hnone.
  { assert (is_Some (gsc st !! goal)) as Hg.
    { apply (frontier_closed st goal l Hfr Hopen); [|done].
      rewrite (inv_start_g _ _ _ _ _ Hi). by eexists. }
    destruct (Hgw Hg) as [f Hf]. rewrite Hopen in Hf. by apply elem_of_nil in Hf. }
  destruct (inv_open _ _ _ _ _ Hi (f, cur)) as [v Hv]; [rewrite Hopen; by left|]. simpl in Hv.
  destruct (inv_g _ _ _ _ _ Hi cur v Hv) as ([Hv0 Hvs] & [nbs Hnbs] & _).
  case_bool_decide as Hgoal.
  { subst cur. cbn [came] in Hnone.
    destruct (walk_back_spec st A_STAR_FUEL goal v [] Hi Hv) as (l' & Hl' & _).
    { pose proof (inv_size _ Hi). nia. }
    rewrite Hl' in Hnone. done. }
  assert (getitem edges cur = Ok nbs) as Hget by (unfold getitem; by rewrite Hnbs).
  rewrite !Hget in Hnone. cbn [mbind res_bind] in Hnone.
  set (st0 := {| openh := rest; came := came st; gsc := gsc st |}) in *.
  assert (Inv st0) as Hi0.
  { destruct Hi. constructor; simpl; try done.
    intros e He. apply inv_open0. rewrite Hopen. by right. }
  assert (Frontier (Some cur) st0) as Hfr0.
  { intros n Hn. destruct (decide (n = cur)) as [->|Hne]; [by left|].
    destruct (Hfr n Hn) as [[=]|[[f' Hf']|Hclosed]]; [|by right; right].
    right. left. exists f'. rewrite Hopen in Hf'.
    apply elem_of_cons in Hf' as [[= _ ?]|?]; done. }
  assert (Goal_waits st0) as Hgw0.
  { intros Hg. destruct (Hgw Hg) as [f' Hf']. exists f'. rewrite Hopen in Hf'.
    apply elem_of_cons in Hf' as [[= _ ?]|?]; done. }
  destruct (for_each_relax_spec cur nbs (elements nbs) st0 Hi0) as (st1 & Hst1 & Hi1 & Hm1);
    [by exists v|done|by intros nb ?%elem_of_elements|].
  rewrite !Hst1 in Hnone. cbn [mbind res_bind] in Hnone.
  destruct (for_each_relax_frontier cur (elements nbs) st0 st1 Hi0) as (Hfr1 & Hgw1 & Hall & Hmono);
    [by exists v| |done..|].
  { exists nbs. split; [done|]. by intros nb ?%elem_of_elements. }
  refine (IH st1 Hi1 _ Hgw1 _ Hnone l Hl).
  - intros n Hn. destruct (Hfr1 n Hn) as [[= ->]|[?|?]]; [|by right; left|by right; right].
    right. right. intros m Hstep. apply Hall; [|done].
    destruct Hstep as [(s & Hs & Hms) _]. apply elem_of_elements. congruence.
  - unfold measure in *. rewrite Hopen in Hm. simpl in *. lia.
Qed.

Lemma a_star_with_complete :
  is_Some (edges !! start) →
  a_star_loop edges A_STAR_FUEL goal blk
    {| openh := heappush [] (0%Q, start); came := {[start := None]}; gsc := {[start := 0]} |}
    = Ok None →
  ∀ l, ¬ Route goal l.
Proof.
  intros He. apply a_star_loop_complete.
  - by apply inv_init.
  - intros n [v Hv]. cbn [gsc] in Hv. apply lookup_singleton_Some in Hv as [<- _].
    right. left. exists 0%Q. cbn. by left.
  - intros [v Hv]. cbn [gsc] in Hv. apply lookup_singleton_Some in Hv as [<- _].
    exists 0%Q. cbn. by left.
  - unfold measure, pot; cbn [openh gsc heappush length].
    rewrite map_size_singleton.
    assert (sumg {[start := 0]} = 0) as ->.
    { unfold sumg. by rewrite map_fold_singleton. }
    assert (0 < size edges)%nat.
    { destruct He as [s Hs]. destruct (decide (size edges = 0%nat)) as [Hz|]; [|lia].
      apply map_size_empty_inv in Hz. rewrite Hz, lookup_empty in Hs. done. }
    nia.
Qed.

(** A start that is no node of the graph: the search answers only when the
    start is the goal itself. *)
Lemma a_star_loop_outside fuel l :
  edges !! start = None →
  a_star_loop edges (S fuel) goal blk
    {| openh := heappush [] (0%Q, start); came := {[start := None]}; gsc := {[start := 0]} |}
    = Ok (Some l) →
  start = goal ∧ l = [start].
Proof.
  intros Hnone. cbn [a_star_loop heappush heappop openh came gsc].
  case_bool_decide as Hg.
  - intros Hl. split; [exact Hg|].
    assert (∃ k, A_STAR_FUEL = S k) as [k Hk] by (eexists; reflexivity).
    rewrite Hk in Hl. cbn [walk_back] in Hl. unfold getitem in Hl. rewrite lookup_singleton_eq in Hl.
    cbn [mbind res_bind] in Hl. destruct k; cbn in Hl; congruence.
  - unfold getitem. rewrite Hnone. cbn [mbind res_bind]. intros [=].
Qed.
End a_star_facts.

(** ** [a_star] on the corridor graph *)

Lemma EDGES_fuel :
  Z.of_nat (size EDGES) * Z.of_nat (size EDGES) + 1 < Z.of_nat A_STAR_FUEL.
Proof. rewrite EDGES_size. vm_compute. reflexivity. Qed.

(** On the corridor graph the search always ends, with no route or with one:
    it neither runs out of fuel nor raises. *)
Lemma a_star_total start goal blk :
  is_Some (EDGES !! start) →
  a_star start goal blk = Ok None ∨
  ∃ l, a_star start goal blk = Ok (Some l) ∧ route_to EDGES start goal blk goal l.
Proof. exact (a_star_with_spec EDGES start goal blk EDGES_closed EDGES_fuel). Qed.

(** Whatever [a_star] returns ends at the goal and begins at the start. *)
Lemma a_star_ends start goal blk l :
  a_star start goal blk = Ok (Some l) → head l = Some start ∧ last l = Some goal.
Proof.
  intros Hl. destruct (decide (is_Some (EDGES !! start))) as [Hin|Hout].
  - destruct (a_star_total start goal blk Hin) as [Hnone|(l' & Hsome & Hr)]; [congruence|].
    assert (l' = l) as -> by congruence.
    split; [exact (route_to_head _ _ _ _ _ _ Hr)|exact (route_to_last _ _ _ _ _ _ Hr)].
  - apply eq_None_not_Some in Hout.
    assert (∃ k, A_STAR_FUEL = S k) as [k Hk] by (eexists; reflexivity).
    unfold a_star in Hl. rewrite Hk in Hl.
    destruct (a_star_loop_outside EDGES start goal blk k l Hout Hl) as [<- ->].
    split; reflexivity.
Qed.

Lemma step_ok_legal edges goal blk p n :
  step_ok edges goal blk p n = true → legal_step edges goal blk p n.
Proof.
  unfold step_ok. intros [Hadj Hpass]%andb_true_iff. split.
  - destruct (edges !! p) as [s|]; [|done]. exists s. split; [done|].
    by apply bool_decide_eq_true_1 in Hadj.
  - intros Ht Hb. rewrite Hb, (bool_decide_eq_true_2 _ Ht) in Hpass. simpl in Hpass.
    by apply bool_decide_eq_true_1 in Hpass.
Qed.

Lemma steps_ok_route edges start goal blk p l0 l :
  route_to edges start goal blk p l0 →
  steps_ok edges goal blk p l = true →
  route_to edges start goal blk (default p (last l)) (l0 ++ l).
Proof.
  revert p l0. induction l as [|n l IH]; intros p l0 Hr Hs; simpl in *.
  - by rewrite app_nil_r.
  - apply andb_true_iff in Hs as [Hs1 Hs2].
    replace (l0 ++ n :: l) with ((l0 ++ [n]) ++ l) by (by rewrite <- app_assoc).
    replace (default p (last (n :: l))) with (default n (last l)).
    + apply IH; [|done]. econstructor; [done|]. by apply step_ok_legal.
    + rewrite (last_cons n l). by destruct (last l).
Qed.

(** C1 (the code departs from the specification).  Start b1, goal a4, only a3
    blocked: [a_star] hands back a route of 12 edges through a1, a2 and b2,
    although the route of 8 edges straight up the b file is open.  The
    heuristic is measured in pixels while an edge costs 1: one edge away from
    the goal it already says 36, so it is not admissible. *)
Theorem a_star_returns_a_detour :
  a_star (TC, 0, 1) (TC, 3, 0) a3_blocked =
    Ok (Some [(TC, 0, 1); (TH, 0, 0); (TC, 0, 0); (TV, 0, 0); (TC, 1, 0); (TH, 1, 0);
              (TC, 1, 1); (TV, 1, 1); (TC, 2, 1); (TV, 2, 1); (TC, 3, 1); (TH, 3, 0);
              (TC, 3, 0)])
  ∧ route_to EDGES (TC, 0, 1) (TC, 3, 0) a3_blocked (TC, 3, 0)
      [(TC, 0, 1); (TV, 0, 1); (TC, 1, 1); (TV, 1, 1); (TC, 2, 1); (TV, 2, 1);
       (TC, 3, 1); (TH, 3, 0); (TC, 3, 0)]
  ∧ (∃ s, EDGES !! (TH, 3, 0) = Some s ∧ (TC, 3, 0) ∈ s)
  ∧ Qeq (heuristic (TH, 3, 0) (TC, 3, 0)) (Zq 36).
Proof.
  split; [vm_compute; reflexivity|]. split; [|split].
  - apply (steps_ok_route EDGES (TC, 0, 1) (TC, 3, 0) a3_blocked (TC, 0, 1) [(TC, 0, 1)]
             [(TV, 0, 1); (TC, 1, 1); (TV, 1, 1); (TC, 2, 1); (TV, 2, 1);
              (TC, 3, 1); (TH, 3, 0); (TC, 3, 0)]).
    + apply route_here.
    + vm_compute. reflexivity.
  - assert (step_ok EDGES (TC, 3, 0) a3_blocked (TH, 3, 0) (TC, 3, 0) = true) as Hs
      by (vm_compute; reflexivity).
    apply step_ok_legal in Hs. exact (proj1 Hs).
  - vm_compute. reflexivity.
Qed.

(** ** Squares and occupancy *)

Lemma square_rank_div sq : square_rank sq = sq `div` 8.
Proof. unfold square_rank. by rewrite Z.shiftr_div_pow2. Qed.

Lemma square_file_mod sq : square_file sq = sq `mod` 8.
Proof. unfold square_file. change 7 with (Z.ones 3). by rewrite Z.land_ones. Qed.

Lemma square_split sq : sq = square (square_file sq) (square_rank sq).
Proof.
  unfold square. rewrite square_rank_div, square_file_mod.
  pose proof (Z.div_mod sq 8). lia.
Qed.

Lemma sq_to_rc_inj a b : sq_to_rc a = sq_to_rc b → a = b.
Proof.
  unfold sq_to_rc. intros [= Hr Hf].
  rewrite (square_split a), (square_split b). congruence.
Qed.

Lemma sq_to_rc_square f r : 0 ≤ f < 8 → sq_to_rc (square f r) = (r, f).
Proof.
  intros Hf. unfold sq_to_rc, square. rewrite square_rank_div, square_file_mod.
  f_equal.
  - rewrite Z.div_add_l by lia. rewrite Z.div_small by lia. lia.
  - rewrite Z.add_comm, Z.mod_add by lia. apply Z.mod_small; lia.
Qed.

Lemma square_file_range sq : 0 ≤ square_file sq < 8.
Proof. rewrite square_file_mod. apply Z.mod_pos_bound. lia. Qed.

Lemma elem_of_range n z : z ∈ range n ↔ 0 ≤ z < Z.of_nat n.
Proof.
  unfold range. rewrite list_elem_of_fmap. split.
  - intros (k & -> & Hk%elem_of_seq). lia.
  - intros Hz. exists (Z.to_nat z). split; [lia|]. apply elem_of_seq. lia.
Qed.

Lemma elem_of_SQUARES sq : sq ∈ SQUARES ↔ 0 ≤ sq < 64.
Proof. unfold SQUARES. rewrite elem_of_range. lia. Qed.

(** Every square's Center is a node of the graph. *)
Lemma center_in_graph sq :
  0 ≤ sq < 64 → is_Some (EDGES !! (TC, square_rank sq, square_file sq)).
Proof.
  intros Hsq%elem_of_SQUARES.
  assert (bool_decide (Forall (fun sq =>
            is_Some (EDGES !! (TC, square_rank sq, square_file sq))) SQUARES) = true) as Hall
    by (vm_compute; reflexivity).
  apply bool_decide_eq_true_1 in Hall. rewrite Forall_forall in Hall. by apply Hall.
Qed.

Section occupancy_facts.
Context {B : Type} `{ChessBoard B}.

Lemma elem_of_board_occupied_rc (board : B) (rc : Z * Z) :
  rc ∈ board_occupied_rc board ↔
  ∃ sq, 0 ≤ sq < 64 ∧ is_Some (piece_at board sq) ∧ sq_to_rc sq = rc.
Proof.
  unfold board_occupied_rc.
  assert (∀ l (acc : gset (Z * Z)),
    rc ∈ foldl (fun occ sq =>
                  match piece_at board sq with
                  | Some _ => occ ∪ {[sq_to_rc sq]}
                  | None => occ
                  end) acc l ↔
    rc ∈ acc ∨ ∃ sq, sq ∈ l ∧ is_Some (piece_at board sq) ∧ sq_to_rc sq = rc) as Hfold.
  { induction l as [|sq l IH]; intros acc; simpl.
    - split; [by left|]. intros [?|(? & []%elem_of_nil & _)]. done.
    - rewrite IH. destruct (piece_at board sq) as [p|] eqn:Hp.
      + rewrite elem_of_union, elem_of_singleton. split.
        * intros [[?| ->]|(sq' & ? & ? & ?)]; [by left| |].
          -- right. exists sq. rewrite Hp. split; [by left|]. split; [by eexists|done].
          -- right. exists sq'. split; [by right|done].
        * intros [?|(sq' & [->|?]%elem_of_cons & ? & ?)]; [by left; left| |].
          -- left. by right.
          -- right. by exists sq'.
      + split.
        * intros [?|(sq' & ? & ? & ?)]; [by left|]. right. exists sq'. split; [by right|done].
        * intros [?|(sq' & [->|?]%elem_of_cons & Hs & ?)]; [by left| |].
          -- rewrite Hp in Hs. by destruct Hs.
          -- right. by exists sq'. }
  rewrite Hfold. split.
  - intros [[]%elem_of_empty|(sq & Hsq%elem_of_SQUARES & ? & ?)]. by exists sq.
  - intros (sq & Hsq%elem_of_SQUARES & ? & ?). right. by exists sq.
Qed.
End occupancy_facts.

Lemma region_closed_sound edges start goal blk region :
  region_closed edges goal blk region = true → start ∈ region →
  ∀ n l, route_to edges start goal blk n l → n ∈ region.
Proof.
  intros Hc Hs n l Hr. induction Hr as [|p n l Hr IH [(s & Hp & Hn) Hpass]]; [done|].
  unfold region_closed in Hc. rewrite forallb_forall in Hc.
  specialize (Hc p). rewrite Hp in Hc.
  assert (In p region) as Hin by (by apply list_elem_of_In).
  specialize (Hc Hin). rewrite forallb_forall in Hc.
  specialize (Hc n). assert (In n (elements s)) as Hin'
    by (by apply list_elem_of_In, elem_of_elements).
  specialize (Hc Hin').
  destruct (bool_decide (n ∈ region)) eqn:Hreg; [by apply bool_decide_eq_true_1 in Hreg|].
  exfalso. rewrite implb_false_r in Hc. apply negb_true_iff, orb_false_iff in Hc as [Hc1 Hc2].
  apply negb_false_iff, andb_true_iff in Hc1 as [Ht%bool_decide_eq_true_1 Hb].
  apply bool_decide_eq_false_1 in Hc2. by apply Hc2, Hpass.
Qed.

(** ** The corridor planner *)

Section planner_facts.
Context {B : Type} `{ChessBoard B}.

Lemma plan_corridor_path_unfold (board : B) (src dst : Z) :
  plan_corridor_path board src dst =
  (nodes ← a_star (TC, square_rank src, square_file src) (TC, square_rank dst, square_file dst)
             (blocked (board_occupied_rc board) (square_rank src) (square_file src));
   path_or_raise no_corridor_path nodes).
Proof. reflexivity. Qed.

(** C2.  [plan_corridor_path] on a board: with no corridor route under the
    occupancy it raises [RuntimeError "No corridor path found."]; whatever
    it returns is the image of a corridor route from the source Center to
    the destination Center, and the Center of an occupied square lies on it
    only if the square is the source or the destination. *)
Theorem plan_corridor_path_safe (board : B) (src dst : Z) :
  0 ≤ src < 64 →
  let start := (TC, square_rank src, square_file src) in
  let goal := (TC, square_rank dst, square_file dst) in
  let blk := blocked (board_occupied_rc board) (square_rank src) (square_file src) in
  ((∀ l, ¬ route_to EDGES start goal blk goal l) →
   plan_corridor_path board src dst = Raise no_corridor_path)
  ∧ (∀ pts, plan_corridor_path board src dst = Ok pts →
     ∃ nodes, pts = node_xy <$> nodes
       ∧ route_to EDGES start goal blk goal nodes
       ∧ ∀ sq, 0 ≤ sq < 64 → is_Some (piece_at board sq) →
           (TC, square_rank sq, square_file sq) ∈ nodes → sq = src ∨ sq = dst).
Proof.
  intros Hsrc start goal blk. rewrite plan_corridor_path_unfold. fold start goal blk.
  destruct (a_star_total start goal blk (center_in_graph src Hsrc))
    as [Hnone|(l & Hsome & Hroute)].
  - rewrite Hnone. split; [done|]. intros pts [=].
  - rewrite Hsome. split.
    + intros Hno. by destruct (Hno l).
    + intros pts Hpts. exists l.
      assert (l ≠ []) as Hne.
      { intros ->. by apply route_to_last in Hroute. }
      split; [|split; [done|]].
      * destruct l; [done|]. cbn [mbind res_bind path_or_raise] in Hpts. by injection Hpts as <-.
      * intros sq Hsq Hocc Hin.
        destruct (route_to_allowed EDGES start goal blk goal l _ Hroute Hin) as [Heq|Hpass].
        -- left. apply sq_to_rc_inj. unfold sq_to_rc. unfold start in Heq. congruence.
        -- destruct (decide (sq_to_rc sq = sq_to_rc src)) as [Hsame|Hdiff];
             [left; by apply sq_to_rc_inj|].
           right. apply sq_to_rc_inj. unfold sq_to_rc in *.
           assert ((TC, square_rank sq, square_file sq) = goal) as Hg; [|unfold goal in Hg; congruence].
           apply Hpass; [done|]. unfold blk, blocked. cbn [nrow ncol fst snd].
           apply andb_true_iff. split.
           ++ apply bool_decide_eq_true_2, elem_of_board_occupied_rc. by exists sq.
           ++ apply negb_true_iff, andb_false_iff.
              destruct (decide (square_rank sq = square_rank src)) as [Hr|Hr];
                [right|left]; apply bool_decide_eq_false_2; congruence.
Qed.
End planner_facts.

Lemma walled_rook_no_route l :
  ¬ route_to EDGES (TC, 0, 0) (TC, 7, 7)
      (blocked (board_occupied_rc walled_board) 0 0) (TC, 7, 7) l.
Proof.
  intros Hr.
  assert ((TC, 7, 7) ∈ [(TC, 0, 0); (TH, 0, 0); (TV, 0, 0)]) as Hin.
  { eapply region_closed_sound; [| |exact Hr].
    - vm_compute. reflexivity.
    - by left. }
  rewrite !elem_of_cons, elem_of_nil in Hin. destruct Hin as [[=]|[[=]|[[=]|[]]]].
Qed.

(** C2 at work: the walled-in rook on a1 cannot be routed to h8, and the
    route found for the knight b1-c3 touches no other piece. *)
Lemma plan_corridor_path_safe_witness :
  plan_corridor_path walled_board 0 63 = Raise no_corridor_path
  ∧ ∃ nodes,
      plan_corridor_path walled_board 1 18 = Ok (node_xy <$> nodes)
      ∧ ∀ sq, 0 ≤ sq < 64 → is_Some (piece_at walled_board sq) →
          (TC, square_rank sq, square_file sq) ∈ nodes → sq = 1 ∨ sq = 18.
Proof.
  split.
  - apply (plan_corridor_path_safe walled_board 0 63); [lia|]. exact walled_rook_no_route.
  - destruct (proj2 (plan_corridor_path_safe walled_board 1 18 ltac:(lia))
                (node_xy <$> [(TC, 0, 1); (TH, 0, 1); (TC, 0, 2); (TV, 0, 2); (TC, 1, 2);
                              (TV, 1, 2); (TC, 2, 2)]))
      as (nodes & Hpts & _ & Hsafe).
    + vm_compute. reflexivity.
    + exists nodes. split; [|exact Hsafe].
      rewrite <- Hpts. vm_compute. reflexivity.
Defined.

(** ** The sequencers *)

Lemma bind_Ok {A C} (m : res A) (k : A → res C) (c : C) :
  m ≫= k = Ok c → ∃ a, m = Ok a ∧ k a = Ok c.
Proof. destruct m as [a| |]; [|intros [=]..]. intros Hk. by exists a. Qed.

Lemma last_item_Ok {A} (l : list A) (a : A) : last_item l = Ok a → last l = Some a.
Proof. unfold last_item. destruct (last l); [|intros [=]]. by intros [= ->]. Qed.

Section sequencer_facts.
Context {B : Type} `{ChessBoard B}.

Lemma plan_corridor_path_ends (board : B) (src dst : Z) (pts : list point) :
  plan_corridor_path board src dst = Ok pts →
  head pts = Some (rc_to_center_xy (square_rank src) (square_file src)) ∧
  last pts = Some (rc_to_center_xy (square_rank dst) (square_file dst)).
Proof.
  rewrite plan_corridor_path_unfold. intros (nodes & Ha & Hp)%bind_Ok.
  destruct nodes as [[|n l]|]; [discriminate| |discriminate].
  injection Hp as <-. apply a_star_ends in Ha as [Hh Hl].
  split.
  - simpl in *. by injection Hh as ->.
  - change (last (node_xy <$> n :: l) = Some (node_xy (TC, square_rank dst, square_file dst))).
    by rewrite fmap_last, Hl.
Qed.

Lemma plan_knight_route_ends (board : B) (move : Move) (pts : list point) :
  plan_knight_route_on_lines board move = Ok pts →
  last pts = Some (rc_to_center_xy (square_rank (to_square move)) (square_file (to_square move))).
Proof.
  unfold plan_knight_route_on_lines.
  cbv beta iota zeta delta [sq_to_rc rc_to_center_xy].
  destruct (_ && _); [by intros [= <-]|].
  destruct (_ && _); [by intros [= <-]|].
  intros Hp. by apply plan_corridor_path_ends in Hp as [_ Hl].
Qed.

Lemma plan_normal_move_shape (board : B) (move : Move) segs :
  plan_normal_move board move = Ok segs →
  length segs = 2%nat ∧ magnet_on <$> segs = [true; false].
Proof.
  unfold plan_normal_move. intros (path & _ & (e & _ & [= <-])%bind_Ok)%bind_Ok. done.
Qed.

Lemma plan_castling_shape (board : B) (move : Move) segs :
  plan_castling board move = Ok segs →
  length segs = 4%nat ∧ magnet_on <$> segs = [true; false; true; false].
Proof.
  unfold plan_castling. destruct (_ <? _); cbv beta iota zeta.
  all: intros (rp & _ & (tmp & _ & (kp & _ & (re & _ & (ke & _ & [= <-])%bind_Ok)%bind_Ok)
    %bind_Ok)%bind_Ok)%bind_Ok.
  all: done.
Qed.

(** The square a capture removes the piece from. *)
Lemma plan_capture_sequence_shape order gy (board : B) (move : Move) segs col gxy :
  plan_capture_sequence order gy board move = Ok (segs, col, gxy) →
  let cap_sq :=
    if is_en_passant board move
    then square (square_file (to_square move)) (square_rank (from_square move))
    else to_square move in
  let cap_xy := rc_to_center_xy (square_rank cap_sq) (square_file cap_sq) in
  let dst_xy :=
    rc_to_center_xy (square_rank (to_square move)) (square_file (to_square move)) in
  ∃ path_to_target path_back path_src_to_dst,
    segs = [ {| waypoints := path_to_target; magnet_on := false |};
             {| waypoints := [cap_xy]; magnet_on := true |};
             {| waypoints := plan_margin_escape_path cap_xy gxy; magnet_on := true |};
             {| waypoints := [gxy]; magnet_on := false |};
             {| waypoints := path_back; magnet_on := false |};
             {| waypoints := path_src_to_dst; magnet_on := true |};
             {| waypoints := [dst_xy]; magnet_on := false |} ]
    ∧ last path_to_target = Some cap_xy
    ∧ last path_src_to_dst = Some dst_xy
    ∧ plan_corridor_path board (from_square move) cap_sq = Ok path_to_target
    ∧ col = match piece_at board cap_sq with Some p => color p | None => WHITE end
    ∧ gxy = next_grave_xy gy col.
Proof.
  intros Hplan cap_sq cap_xy dst_xy. unfold plan_capture_sequence in Hplan. fold cap_sq in Hplan.
  apply bind_Ok in Hplan as (path_to_target & Hp1 & Hplan).
  destruct (is_nil path_to_target); [discriminate|].
  change (rc_to_center_xy (sq_to_rc cap_sq).1 (sq_to_rc cap_sq).2) with cap_xy in Hplan.
  set (ccol := match piece_at board cap_sq with Some p => color p | None => WHITE end) in *.
  set (gxy0 := next_grave_xy gy ccol) in *.
  set (margin := plan_margin_escape_path cap_xy gxy0) in *.
  apply bind_Ok in Hplan as (path_back & _ & Hplan).
  apply bind_Ok in Hplan as (path_src_to_dst & Hp6 & Hplan).
  apply bind_Ok in Hplan as (e1 & He1%last_item_Ok & Hplan).
  apply bind_Ok in Hplan as (e3 & He3%last_item_Ok & Hplan).
  apply bind_Ok in Hplan as (e6 & He6%last_item_Ok & Hplan).
  injection Hplan as <- <- <-.
  pose proof (plan_corridor_path_ends _ _ _ _ Hp1) as [_ Hl1]. fold cap_xy in Hl1.
  assert (last path_src_to_dst = Some dst_xy) as Hl6.
  { destruct (is_knight _).
    - by apply plan_knight_route_ends in Hp6.
    - by apply plan_corridor_path_ends in Hp6 as [_ ?]. }
  rewrite Hl1 in He1. injection He1 as <-.
  rewrite Hl6 in He6. injection He6 as <-.
  assert (is_nil margin = false ∧ last margin = Some gxy0) as [Hnil Hl3].
  { unfold margin, plan_margin_escape_path. destruct cap_xy as [cx cy], gxy0 as [gx gy0].
    cbv zeta. by destruct (min_by_key _ _).1. }
  rewrite Hnil in He3. rewrite Hl3 in He3. injection He3 as <-.
  exists path_to_target, path_back, path_src_to_dst. rewrite Hnil. done.
Qed.
End sequencer_facts.

Lemma margin_path_head cap_xy grave_xy :
  head (plan_margin_escape_path cap_xy grave_xy) = Some cap_xy.
Proof.
  unfold plan_margin_escape_path. destruct cap_xy as [cx cy], grave_xy as [gx gy].
  cbv zeta. by destruct (min_by_key _ _).1.
Qed.

Section plan_facts.
Context {B : Type} `{ChessBoard B}.

(** C3.  What [main] plans for a move: 4 segments for castling, 7 for a
    capture, 2 otherwise.  A capture plan engages as off, on, on, off, off,
    on, off; when the capture is not en passant, its first segment ends on
    the center of the captured (destination) square, its second segment is
    that one point, and its seventh is the destination center. *)
Theorem plan_segment_counts (order : list node) (gy : graveyard) (board : B) (move : Move)
    (is_castling is_capture : bool) (segs : list (segment point)) :
  plan_move order gy board move is_castling is_capture = Ok segs →
  length segs = (if is_castling then 4 else if is_capture then 7 else 2)%nat
  ∧ (is_castling = false → is_capture = true →
     magnet_on <$> segs = [false; true; true; false; false; true; false]
     ∧ (is_en_passant board move = false →
        let dst_xy :=
          rc_to_center_xy (square_rank (to_square move)) (square_file (to_square move)) in
        (∃ s1, segs !! 0%nat = Some s1 ∧ last (waypoints s1) = Some dst_xy)
        ∧ waypoints <$> (segs !! 1%nat) = Some [dst_xy]
        ∧ waypoints <$> (segs !! 6%nat) = Some [dst_xy])).
Proof.
  unfold plan_move. destruct is_castling.
  { intros [Hlen _]%plan_castling_shape. split; [exact Hlen|]. intros [=]. }
  destruct is_capture.
  2:{ intros [Hlen _]%plan_normal_move_shape. split; [exact Hlen|]. intros _ [=]. }
  intros ([[segs' col] gxy] & Hplan & [= <-])%bind_Ok.
  apply plan_capture_sequence_shape in Hplan
    as (p1 & p5 & p6 & -> & Hl1 & Hl6 & _ & _ & _).
  split; [reflexivity|]. intros _ _. split; [reflexivity|].
  intros Hep. rewrite Hep in Hl1. cbv zeta. split; [|split; [|reflexivity]].
  - eexists. split; [reflexivity|]. exact Hl1.
  - rewrite Hep. reflexivity.
Qed.

(** C4.  Under en passant the captured square is (destination file, source
    rank), which is the destination only if the two ranks agree; the
    approach leg ends on its center, the engage point is its center, and the
    removal leg is the margin route from its center. *)
Theorem en_passant_captured_square (order : list node) (gy : graveyard) (board : B)
    (move : Move) (segs : list (segment point)) (col : bool) (gxy : point) :
  is_en_passant board move = true →
  plan_capture_sequence order gy board move = Ok (segs, col, gxy) →
  let cap_sq := square (square_file (to_square move)) (square_rank (from_square move)) in
  let cap_xy :=
    rc_to_center_xy (square_rank (from_square move)) (square_file (to_square move)) in
  sq_to_rc cap_sq = (square_rank (from_square move), square_file (to_square move))
  ∧ (cap_sq = to_square move ↔
     square_rank (from_square move) = square_rank (to_square move))
  ∧ (∃ s1, segs !! 0%nat = Some s1 ∧ last (waypoints s1) = Some cap_xy)
  ∧ waypoints <$> (segs !! 1%nat) = Some [cap_xy]
  ∧ (∃ s3, segs !! 2%nat = Some s3 ∧ magnet_on s3 = true
       ∧ waypoints s3 = plan_margin_escape_path cap_xy gxy
       ∧ head (waypoints s3) = Some cap_xy)
  ∧ col = match piece_at board cap_sq with Some p => color p | None => WHITE end.
Proof.
  intros Hep Hplan cap_sq cap_xy.
  assert (sq_to_rc cap_sq = (square_rank (from_square move), square_file (to_square move)))
    as Hrc by apply sq_to_rc_square, square_file_range.
  apply plan_capture_sequence_shape in Hplan
    as (p1 & p5 & p6 & -> & Hl1 & _ & _ & Hcol & _).
  rewrite Hep in Hl1, Hcol. rewrite Hep.
  subst cap_xy cap_sq. injection Hrc as Hr Hf. rewrite Hr, Hf in Hl1. rewrite Hr, Hf.
  split; [unfold sq_to_rc; congruence|]. split; [|split; [|split; [|split]]].
  - split.
    + intros Heq. rewrite Heq in Hr. done.
    + intros Heq. apply sq_to_rc_inj. unfold sq_to_rc. congruence.
  - eexists. split; [reflexivity|]. exact Hl1.
  - reflexivity.
  - eexists. split; [reflexivity|]. cbn [waypoints magnet_on].
    split; [done|]. split; [done|]. apply margin_path_head.
  - exact Hcol.
Qed.
End plan_facts.

(** C3 on three boards: the lone knight b1-c3, castling e1-g1, and the
    capture e4xd5. *)
Lemma plan_segment_counts_witness :
  let order := elements NODES in
  length (unwrap [] (plan_move order fresh_graveyard knight_board b1c3 false false)) = 2%nat
  ∧ length (unwrap [] (plan_move order fresh_graveyard castling_board e1g1 true false)) = 4%nat
  ∧ length (unwrap [] (plan_move order fresh_graveyard capture_board e4d5 false true)) = 7%nat
  ∧ waypoints <$> (unwrap [] (plan_move order fresh_graveyard capture_board e4d5 false true)
                   !! 6%nat) = Some [rc_to_center_xy 4 3].
Proof.
  cbv zeta. split; [|split; [|split]].
  - apply (plan_segment_counts (elements NODES) fresh_graveyard knight_board b1c3 false false).
    vm_compute. reflexivity.
  - apply (plan_segment_counts (elements NODES) fresh_graveyard castling_board e1g1 true false).
    vm_compute. reflexivity.
  - apply (plan_segment_counts (elements NODES) fresh_graveyard capture_board e4d5 false true).
    vm_compute. reflexivity.
  - apply (plan_segment_counts (elements NODES) fresh_graveyard capture_board e4d5 false true);
      [vm_compute; reflexivity|reflexivity|reflexivity|vm_compute; reflexivity].
Defined.

(** C4 on the board after d7-d5: e5 takes d6 en passant, and the pawn is
    fetched from d5. *)
Lemma en_passant_captured_square_witness :
  let plan := unwrap ([], true, (0, 0)%Q)
                (plan_capture_sequence (elements NODES) fresh_graveyard
                   en_passant_board e5d6) in
  waypoints <$> (plan.1.1 !! 1%nat) = Some [rc_to_center_xy 4 3]
  ∧ plan.1.2 = BLACK.
Proof.
  cbv zeta.
  pose proof (en_passant_captured_square (elements NODES) fresh_graveyard en_passant_board e5d6
    (unwrap ([], true, (0, 0)%Q)
       (plan_capture_sequence (elements NODES) fresh_graveyard en_passant_board e5d6)).1.1
    (unwrap ([], true, (0, 0)%Q)
       (plan_capture_sequence (elements NODES) fresh_graveyard en_passant_board e5d6)).1.2
    (unwrap ([], true, (0, 0)%Q)
       (plan_capture_sequence (elements NODES) fresh_graveyard en_passant_board e5d6)).2)
    as Hthm.
  destruct Hthm as (_ & _ & _ & Hseg2 & _ & Hcol).
  - vm_compute. reflexivity.
  - vm_compute. reflexivity.
  - split; [exact Hseg2|]. rewrite Hcol. vm_compute. reflexivity.
Defined.

(** ** The knight router *)

Lemma square_rank_range sq : 0 ≤ sq < 64 → 0 ≤ square_rank sq < 8.
Proof.
  intros Hsq. rewrite square_rank_div. split.
  - apply Z.div_pos; lia.
  - apply Z.div_lt_upper_bound; lia.
Qed.

Lemma SQUARE_72 : SQUARE = 72.
Proof. reflexivity. Qed.

Lemma MARGIN_32 : MARGIN = 32.
Proof. reflexivity. Qed.

Lemma BOARD_PIXELS_640 : BOARD_PIXELS = 640.
Proof. reflexivity. Qed.

(** Rational equations and inequalities between pixel expressions. *)
Ltac pixels :=
  rewrite ?SQUARE_72, ?MARGIN_32, ?BOARD_PIXELS_640;
  unfold Qeq, Qlt, Qle, Zq; cbn; lia.

Lemma center_x_plus_half c :
  Qeq ((Zq (MARGIN + c * SQUARE) + Zq SQUARE / 2) + Zq 1 * (Zq SQUARE * (1 # 2)))
      (Zq (MARGIN + (c + 1) * SQUARE)).
Proof. pixels. Qed.

Lemma center_x_minus_half c :
  Qeq ((Zq (MARGIN + c * SQUARE) + Zq SQUARE / 2) + Zq (-1) * (Zq SQUARE * (1 # 2)))
      (Zq (MARGIN + c * SQUARE)).
Proof. pixels. Qed.

Lemma center_of_line k : Qeq (Zq k + 1) (Zq (k + 1)).
Proof. pixels. Qed.

Section knight_facts.
Context {B : Type} `{ChessBoard B}.

(** C5.  For a knight offset between two squares of the board the router
    of [printer_sim.py] returns four points whatever the board holds: the
    source center, two points on corridor lines (grid lines between two
    files or two ranks, never an edge of the board), the destination
    center; the first intermediate point is half a square from the source
    center, the second two squares further along the same line and half a
    square from the destination center.  [PathFinder.path_knight_units]
    too returns the two centers with two points on corridor lines between
    them, in board units: the first level with the source center, the
    second on the same vertical line. *)
Theorem knight_router_four_points (board : B) (move : Move) :
  0 ≤ from_square move < 64 →
  0 ≤ to_square move < 64 →
  knight_offset (from_square move) (to_square move) →
  let src := from_square move in
  let dst := to_square move in
  (∃ p1 p2,
     plan_knight_route_on_lines board move =
       Ok [rc_to_center_xy (square_rank src) (square_file src); p1; p2;
           rc_to_center_xy (square_rank dst) (square_file dst)]
     ∧ on_corridor_line p1 ∧ on_corridor_line p2
     ∧ half_step (rc_to_center_xy (square_rank src) (square_file src)) p1
     ∧ long_leg p1 p2
     ∧ half_step p2 (rc_to_center_xy (square_rank dst) (square_file dst)))
  ∧ (∃ q1 q2,
     path_knight_units (square_file src, square_rank src) (square_file dst, square_rank dst) =
       [center_of (square_file src, square_rank src); q1; q2;
        center_of (square_file dst, square_rank dst)]
     ∧ on_unit_line q1 ∧ on_unit_line q2
     ∧ Qeq q1.2 (center_of (square_file src, square_rank src)).2
     ∧ Qeq q2.1 q1.1).
Proof.
  intros Hsrc Hdst Hoff src dst.
  pose proof (square_rank_range src Hsrc) as Hr0.
  pose proof (square_rank_range dst Hdst) as Hr1.
  pose proof (square_file_range src) as Hc0.
  pose proof (square_file_range dst) as Hc1.
  unfold knight_offset in Hoff. fold src dst in Hoff. cbv zeta in Hoff.
  split.
  - unfold plan_knight_route_on_lines. fold src dst.
    cbv beta iota zeta delta [sq_to_rc rc_to_center_xy].
    set (r0 := square_rank src) in *. set (c0 := square_file src) in *.
    set (r1 := square_rank dst) in *. set (c1 := square_file dst) in *.
    destruct Hoff as [[Hdr Hdc]|[Hdr Hdc]].
    + rewrite (bool_decide_eq_true_2 _ Hdr), (bool_decide_eq_true_2 _ Hdc).
      cbn [andb]. eexists _, _. split; [reflexivity|].
      unfold on_corridor_line, half_step, long_leg. cbn [fst snd].
      destruct (0 <? c1 - c0) eqn:Hx; destruct (0 <? r1 - r0) eqn:Hy.
      all: first [apply Z.ltb_lt in Hx|apply Z.ltb_ge in Hx].
      all: first [apply Z.ltb_lt in Hy|apply Z.ltb_ge in Hy].
      all: split; [|split; [|split; [right; split; pixels|split; [|right; split; pixels]]]].
      1-6: exists (c0 + 1); (split; [lia|left; repeat split; pixels]).
      all: exists c0; (split; [lia|left; repeat split; pixels]).
    + assert (bool_decide (Z.abs (r1 - r0) = 2) = false) as ->
        by (apply bool_decide_eq_false_2; lia).
      rewrite (bool_decide_eq_true_2 _ Hdr), (bool_decide_eq_true_2 _ Hdc).
      cbn [andb]. eexists _, _. split; [reflexivity|].
      unfold on_corridor_line, half_step, long_leg. cbn [fst snd].
      destruct (0 <? c1 - c0) eqn:Hx; destruct (0 <? r1 - r0) eqn:Hy.
      all: first [apply Z.ltb_lt in Hx|apply Z.ltb_ge in Hx].
      all: first [apply Z.ltb_lt in Hy|apply Z.ltb_ge in Hy].
      all: split; [|split; [|split; [left; split; pixels|split; [|left; split; pixels]]]].
      1-3,7-9: exists (7 - r0); (split; [lia|right; repeat split; pixels]).
      all: exists (7 - r0 + 1); (split; [lia|right; repeat split; pixels]).
  - unfold path_knight_units, center_of, corridor_to_x, corridor_to_y, on_unit_line.
    cbn [fst snd].
    set (r0 := square_rank src) in *. set (c0 := square_file src) in *.
    set (r1 := square_rank dst) in *. set (c1 := square_file dst) in *.
    eexists _, _. split; [reflexivity|]. cbn [fst snd].
    destruct (c0 <? c1) eqn:Hx; destruct (r0 <? r1) eqn:Hy.
    all: first [apply Z.ltb_lt in Hx|apply Z.ltb_ge in Hx].
    all: first [apply Z.ltb_lt in Hy|apply Z.ltb_ge in Hy].
    all: split; [|split; [|split; reflexivity]].
    1-4: exists (c0 + 1); (split; [lia|left; repeat split; pixels]).
    all: exists (c1 + 1); (split; [lia|left; repeat split; pixels]).
Qed.

(** C6, as the code has it.  Off the eight knight offsets
    [plan_knight_route_on_lines] asserts nothing: it is [plan_corridor_path]
    on the same squares, that planner's failure included; and
    [path_knight_units] checks nothing at all, it returns four points for any
    two squares. *)
Theorem knight_router_falls_back (board : B) (move : Move) :
  ¬ knight_offset (from_square move) (to_square move) →
  plan_knight_route_on_lines board move =
    plan_corridor_path board (from_square move) (to_square move)
  ∧ ∀ fr_from fr_to, length (path_knight_units fr_from fr_to) = 4%nat.
Proof.
  intros Hoff. split.
  - unfold plan_knight_route_on_lines, knight_offset in *.
    cbv beta iota zeta delta [sq_to_rc rc_to_center_xy] in *.
    set (dr := square_rank (to_square move) - square_rank (from_square move)) in *.
    set (dc := square_file (to_square move) - square_file (from_square move)) in *.
    assert (bool_decide (Z.abs dr = 2) && bool_decide (Z.abs dc = 1) = false) as ->.
    { apply not_true_iff_false.
      intros [?%bool_decide_eq_true_1 ?%bool_decide_eq_true_1]%andb_true_iff. tauto. }
    assert (bool_decide (Z.abs dr = 1) && bool_decide (Z.abs dc = 2) = false) as ->.
    { apply not_true_iff_false.
      intros [?%bool_decide_eq_true_1 ?%bool_decide_eq_true_1]%andb_true_iff. tauto. }
    reflexivity.
  - intros [fx fy] [tx ty]. reflexivity.
Qed.
End knight_facts.

Lemma b1b2_no_knight_offset : ¬ knight_offset (from_square b1b2) (to_square b1b2).
Proof. intros [[Hr Hc]|[Hr Hc]]; vm_compute in Hr, Hc; discriminate. Qed.

(** C5 on the lone knight b1-c3: the four points of the (+1, +2) formula. *)
Lemma knight_router_four_points_witness :
  ∃ p1 p2,
    plan_knight_route_on_lines knight_board b1c3 =
      Ok [rc_to_center_xy 0 1; p1; p2; rc_to_center_xy 2 2]
    ∧ on_corridor_line p1 ∧ on_corridor_line p2
    ∧ half_step (rc_to_center_xy 0 1) p1 ∧ long_leg p1 p2 ∧ half_step p2 (rc_to_center_xy 2 2).
Proof.
  destruct (knight_router_four_points knight_board b1c3) as [Hsim _].
  - unfold b1c3. cbn [from_square]. lia.
  - unfold b1c3. cbn [to_square]. lia.
  - left. split; vm_compute; reflexivity.
  - exact Hsim.
Defined.

(** C6 fails as stated: asked for b1-b2, no knight move, the router raises
    nothing and answers with the planner's three-point corridor path; and
    [path_knight_units] answers with four points. *)
Lemma knight_router_reroutes_silently :
  ¬ knight_offset (from_square b1b2) (to_square b1b2)
  ∧ plan_knight_route_on_lines knight_board b1b2 =
      Ok (node_xy <$> [(TC, 0, 1); (TV, 0, 1); (TC, 1, 1)])
  ∧ length (path_knight_units (1, 0) (1, 1)) = 4%nat.
Proof.
  split; [exact b1b2_no_knight_offset|]. split; [vm_compute; reflexivity|reflexivity].
Qed.

Lemma knight_router_falls_back_witness :
  plan_knight_route_on_lines knight_board b1b2 = plan_corridor_path knight_board 1 9
  ∧ ∀ fr_from fr_to, length (path_knight_units fr_from fr_to) = 4%nat.
Proof. exact (knight_router_falls_back knight_board b1b2 b1b2_no_knight_offset). Defined.

(** ** The margin route *)

(** C7 (the code departs from the specification, and from its own docstring
    "along outside perimeter").  A piece captured on d8 and bound for the first
    graveyard slot: the nearest edge is the top one, the route steps half a
    square up onto it and 43.2 pixels beyond it, and then comes straight back
    down the d file to the slot's height: its fourth waypoint is a point of
    the play area. *)
Theorem margin_route_reenters_board :
  let cap_xy := rc_to_center_xy 7 3 in
  let grave_xy := next_grave_xy fresh_graveyard BLACK in
  Forall2 pt_eq (plan_margin_escape_path cap_xy grave_xy)
    [(284, 68); (284, 32); (284, -56 # 5); (284, 322 # 5); (664, 322 # 5)]%Q
  ∧ ∃ p, plan_margin_escape_path cap_xy grave_xy !! 3%nat = Some p ∧ inside_play_area p.
Proof.
  cbv zeta. split.
  - repeat constructor; vm_compute; reflexivity.
  - eexists. split; [vm_compute; reflexivity|]. repeat split; vm_compute; reflexivity.
Qed.

(** ** Graveyard slots *)

(** C8 (the code departs from the specification).  Both colours index the one grid
    [grave_positions] by their own count, so the first captured white piece
    is sent to the very slot the first captured black piece already
    occupies. *)
Theorem grave_slot_shared_between_colours :
  let first_black := next_grave_xy fresh_graveyard BLACK in
  let gy := record_capture fresh_graveyard BLACK first_black in
  captured_black gy = [first_black]
  ∧ next_grave_xy gy WHITE = first_black
  ∧ Some first_black = grave_positions gy !! 0%nat.
Proof. cbv zeta. split; [reflexivity|]. split; reflexivity. Qed.

(** Within one colour the slots never repeat: the point depends on the
    number of captures of that colour alone, and differs for different
    numbers. *)
Lemma next_grave_xy_slot gy color :
  grave_positions gy = grave_positions fresh_graveyard →
  next_grave_xy gy color =
    grave_slot (length (if color then captured_white gy else captured_black gy)).
Proof. intros Hg. unfold next_grave_xy, grave_slot. by rewrite Hg. Qed.

Lemma pt_eqb_eq p q : pt_eqb p q = true ↔ pt_eq p q.
Proof. unfold pt_eqb, pt_eq. by rewrite andb_true_iff, !Qeq_bool_iff. Qed.

Lemma grave_slot_grid i :
  (i < 20)%nat →
  ∃ p, grave_positions fresh_graveyard !! i = Some p ∧ grave_slot i = p
       ∧ (Qeq p.1 664 ∨ Qeq p.1 712).
Proof.
  intros Hi. unfold grave_slot.
  assert (forallb (fun p => Qeq_bool p.1 664 || Qeq_bool p.1 712)
            (grave_positions fresh_graveyard) = true) as Hall by (vm_compute; reflexivity).
  assert (length (grave_positions fresh_graveyard) = 20%nat) as Hlen by (vm_compute; reflexivity).
  destruct (lookup_lt_is_Some_2 (grave_positions fresh_graveyard) i) as [p Hp]; [lia|].
  exists p. rewrite Hp. split; [done|]. split; [done|].
  rewrite forallb_forall in Hall. specialize (Hall p).
  rewrite <- !Qeq_bool_iff. apply orb_true_iff, Hall.
  apply list_elem_of_In, list_elem_of_lookup. by exists i.
Qed.

Lemma grave_slot_overflow i :
  (20 ≤ i)%nat →
  grave_slot i = ((Zq BOARD_PIXELS + Zq SIDEBAR_W / 2)%Q,
                  Zq (WIN_H - INPUT_H - 20 - Z.of_nat i * 10)).
Proof.
  intros Hi. unfold grave_slot.
  assert (length (grave_positions fresh_graveyard) = 20%nat) as Hlen by (vm_compute; reflexivity).
  by rewrite (lookup_ge_None_2 _ i) by lia.
Qed.

Lemma grave_slot_inj i j : pt_eq (grave_slot i) (grave_slot j) → i = j.
Proof.
  intros Heq.
  destruct (decide (i < 20)%nat) as [Hi|Hi]; destruct (decide (j < 20)%nat) as [Hj|Hj].
  - assert (forallb (fun i => forallb (fun j =>
              implb (pt_eqb (grave_slot i) (grave_slot j)) (i =? j)%nat) (seq 0 20)) (seq 0 20)
            = true) as Hall by (vm_compute; reflexivity).
    rewrite forallb_forall in Hall. specialize (Hall i). rewrite forallb_forall in Hall.
    assert (In i (seq 0 20)) as Hini by (apply in_seq; lia).
    assert (In j (seq 0 20)) as Hinj by (apply in_seq; lia).
    specialize (Hall Hini j Hinj). apply pt_eqb_eq in Heq. rewrite Heq in Hall.
    by apply Nat.eqb_eq in Hall.
  - exfalso. destruct (grave_slot_grid i Hi) as (p & _ & Hp & Hx).
    rewrite Hp, (grave_slot_overflow j) in Heq by lia. destruct Heq as [Heq _]. cbn [fst] in Heq.
    assert (Qeq (Zq BOARD_PIXELS + Zq SIDEBAR_W / 2) 688) as H688 by (vm_compute; reflexivity).
    rewrite H688 in Heq. destruct Hx as [Hx|Hx]; rewrite Hx in Heq; discriminate.
  - exfalso. destruct (grave_slot_grid j Hj) as (p & _ & Hp & Hx).
    rewrite Hp, (grave_slot_overflow i) in Heq by lia. destruct Heq as [Heq _]. cbn [fst] in Heq.
    assert (Qeq (Zq BOARD_PIXELS + Zq SIDEBAR_W / 2) 688) as H688 by (vm_compute; reflexivity).
    rewrite H688 in Heq. destruct Hx as [Hx|Hx]; rewrite Hx in Heq; discriminate.
  - rewrite (grave_slot_overflow i), (grave_slot_overflow j) in Heq by lia.
    destruct Heq as [_ Heq]. cbn [snd] in Heq. unfold Zq in Heq.
    rewrite inject_Z_injective in Heq. lia.
Qed.


(** ** The Animator *)

Section animator_facts.
Context {F : Type} `{Arith F}.

Lemma load_nil_done (a0 : Animator F) sp : done (load a0 [] sp) = true.
Proof. reflexivity. Qed.

Lemma step_done (a : Animator F) : done a = true → step a = Ok (a, last_draw_path a).
Proof. intros Hd. unfold step. by rewrite Hd. Qed.

(** A tick that changes nothing is repeated for ever. *)
Lemma ticks_fixed (a : Animator F) tr : step a = Ok (a, tr) → ∀ n, ticks n a = Ok a.
Proof. intros Hstep. induction n as [|n IH]; [done|]. cbn [ticks]. by rewrite Hstep. Qed.

Lemma current_magnet_on_done (a : Animator F) : done a = true → current_magnet_on a = Ok false.
Proof. intros Hd. unfold current_magnet_on. by rewrite Hd. Qed.

(** C10.  Once [done] is set, and so right after loading a plan with no
    segment, [step] changes nothing (position, indices, flag and trace stay
    as they are) and returns the trace as it stands, however often it is
    called, and [current_magnet_on] answers [False]. *)
Theorem done_is_final (a : Animator F) :
  (done a = true ∨ ∃ a0 sp, a = load a0 [] sp) →
  step a = Ok (a, last_draw_path a)
  ∧ current_magnet_on a = Ok false
  ∧ ∀ n, ticks n a = Ok a.
Proof.
  intros Hdone.
  assert (done a = true) as Hd by (destruct Hdone as [?|(a0 & sp & ->)]; done).
  pose proof (step_done a Hd) as Hstep.
  split; [exact Hstep|]. split; [by apply current_magnet_on_done|].
  exact (ticks_fixed a _ Hstep).
Qed.
(** [step] returns the trace of the state it leaves. *)
Lemma step_returns_trace (a a' : Animator F) tr :
  step a = Ok (a', tr) → tr = last_draw_path a'.
Proof.
  unfold step. destruct (done a || is_nil (segments a)); [by intros [= <- <-]|].
  intros (seg & _ & Hst)%bind_Ok. destruct (is_nil (waypoints seg)); [by injection Hst as <- <-|].
  apply bind_Ok in Hst as (q & _ & Hst). apply bind_Ok in Hst as (t & _ & Hst).
  destruct (fltb _ lit_1e_3); by injection Hst as <- <-.
Qed.

(** One tick of an Animator that is somewhere in a two-segment plan. *)
Lemma step_at_cursor (w1 : list (F * F)) (p : F * F) (k : nat) (a : Animator F) :
  w1 ≠ [] → at_cursor w1 p k a → (k ≤ length w1)%nat → is_Some (pos a) →
  ∃ a', step a = Ok (a', last_draw_path a') ∧ tick_outcome w1 p k a a'.
Proof.
  intros Hw1 [Hsegs Hcur] Hk [q Hq].
  enough (∃ a' tr', step a = Ok (a', tr') ∧ tick_outcome w1 p k a a')
    as (a' & tr' & Hst & Hrest).
  { exists a'. split; [|exact Hrest]. by rewrite Hst, (step_returns_trace _ _ _ Hst). }
  destruct a as [segs si wi ps dn tr]. cbn [segments cur_seg_i cur_wp_i pos done last_draw_path] in *.
  subst segs ps. unfold step, tick_outcome, at_cursor, reached, gap, moved, speed_at.
  cbn [segments cur_seg_i cur_wp_i pos done last_draw_path].
  destruct (k <? length w1)%nat eqn:Hlt.
  - (* in segment 1, at waypoint k *)
    destruct Hcur as (-> & -> & ->). apply Nat.ltb_lt in Hlt.
    destruct (lookup_lt_is_Some_2 w1 k Hlt) as [t Ht].
    cbn [orb is_nil engaged_plan getidx lookup list_lookup mbind res_bind waypoints magnet_on].
    assert (is_nil w1 = false) as -> by (by destruct w1).
    assert (target_at w1 p k = t) as -> by (unfold target_at; by rewrite Ht).
    unfold getidx. rewrite Ht. cbn [mbind res_bind option_list andb]. cbv zeta.
    destruct (fltb _ lit_1e_3) eqn:Hr.
    + (* the waypoint is reached *)
      destruct t as [tx ty]. cbn [fst snd] in Hr |- *.
      destruct (length w1 <=? S k)%nat eqn:Hend.
      * apply Nat.leb_le in Hend. assert (S k = length w1) as HSk by lia.
        eexists _, _. split; [reflexivity|]. exists q. split; [reflexivity|]. rewrite Hr.
        cbn [_advance_segment segments cur_seg_i cur_wp_i pos done last_draw_path length].
        split; [|done]. split; [done|].
        rewrite <- HSk. rewrite Nat.ltb_irrefl, Nat.eqb_refl. done.
      * apply Nat.leb_gt in Hend.
        eexists _, _. split; [reflexivity|]. exists q. split; [reflexivity|]. rewrite Hr.
        cbn [segments cur_seg_i cur_wp_i pos done last_draw_path].
        split; [|done]. split; [done|].
        apply Nat.ltb_lt in Hend. rewrite Hend. done.
    + (* a step towards the waypoint *)
      eexists _, _. split; [reflexivity|]. exists q. split; [reflexivity|]. rewrite Hr.
      cbn [segments cur_seg_i cur_wp_i pos done last_draw_path].
      split; [done|]. split; [reflexivity|].
      unfold far_from_last. destruct (last tr) as [[lastx lasty]|]; [|reflexivity].
      cbn [fst snd]. by destruct (fltb lit_0_5 _).
  - (* in segment 2 *)
    apply Nat.ltb_ge in Hlt. assert (k = length w1) as -> by lia.
    rewrite Nat.eqb_refl in Hcur. destruct Hcur as (-> & -> & ->).
    assert (target_at w1 p (length w1) = p) as ->
      by (unfold target_at; by rewrite (lookup_ge_None_2 w1 (length w1)) by lia).
    rewrite (lookup_ge_None_2 w1 (length w1)) by lia.
    cbn [orb is_nil engaged_plan getidx lookup list_lookup mbind res_bind waypoints magnet_on
         option_list andb]. cbv zeta.
    destruct (fltb _ lit_1e_3) eqn:Hr.
    + eexists _, _. split; [reflexivity|]. exists q. split; [reflexivity|]. rewrite Hr.
      cbn [_advance_segment segments cur_seg_i cur_wp_i pos done last_draw_path length Nat.leb].
      split; [|split; [done|]].
      * split; [done|].
        assert ((S (length w1) <? length w1)%nat = false) as -> by (apply Nat.ltb_ge; lia).
        assert ((S (length w1) =? length w1)%nat = false) as -> by (apply Nat.eqb_neq; lia).
        done.
      * by rewrite app_nil_r.
    + eexists _, _. split; [reflexivity|]. exists q. split; [reflexivity|]. rewrite Hr.
      cbn [segments cur_seg_i cur_wp_i pos done last_draw_path].
      split; [|done]. split; [done|]. rewrite Nat.eqb_refl. done.
Qed.

Lemma current_magnet_on_at_cursor (w1 : list (F * F)) (p : F * F) (k : nat) (a : Animator F) :
  at_cursor w1 p k a → current_magnet_on a = Ok (k <? length w1)%nat.
Proof.
  intros [Hsegs Hcur]. unfold current_magnet_on. rewrite Hsegs.
  destruct (k <? length w1)%nat.
  - by destruct Hcur as (-> & _ & ->).
  - destruct (k =? length w1)%nat.
    + by destruct Hcur as (-> & _ & ->).
    + by rewrite Hcur.
Qed.

(** A tick keeps the Animator on its plan: it takes the cursor one waypoint
    further, or it leaves the cursor and moves the position. *)
Lemma tick_on_plan (w1 : list (F * F)) (p : F * F) (k : nat) (a a' : Animator F) (q : F * F) :
  on_plan w1 p k a → (k ≤ length w1)%nat → tick_outcome w1 p k a a' → pos a = Some q →
  if reached q (target_at w1 p k) then on_plan w1 p (S k) a' ∧ pos a' = Some q
  else on_plan w1 p k a' ∧ pos a' = Some (moved (speed_at w1 k) q (target_at w1 p k)).
Proof.
  intros (Hcur & Hk & Hpos & Hsub) Hle (q0 & Hq0 & Hout) Hq.
  assert (q0 = q) as -> by congruence.
  destruct (reached q _).
  - destruct Hout as (Hc & Hp & Htr). split; [|exact Hp].
    split; [exact Hc|]. split; [lia|]. split; [by eexists|].
    rewrite Htr. destruct (w1 !! k) as [t|] eqn:Ht.
    + rewrite (take_S_r _ _ _ Ht). by apply sublist_app.
    + apply lookup_ge_None_1 in Ht. rewrite !take_ge in * by lia.
      cbn. by rewrite app_nil_r.
  - cbv zeta in Hout. destruct Hout as (Hc & Hp & Htr). split; [|exact Hp].
    split; [exact Hc|]. split; [lia|]. split; [by eexists|].
    rewrite Htr. destruct (_ && _); [by apply sublist_inserts_r|done].
Qed.

Lemma past_plan_done (w1 : list (F * F)) (p : F * F) (k : nat) (a : Animator F) :
  at_cursor w1 p k a → (length w1 < k)%nat → done a = true.
Proof.
  intros [_ Hc] Hgt.
  assert ((k <? length w1)%nat = false) as Hf1 by (apply Nat.ltb_ge; lia).
  assert ((k =? length w1)%nat = false) as Hf2 by (apply Nat.eqb_neq; lia).
  by rewrite Hf1, Hf2 in Hc.
Qed.

Lemma ticks_on_plan (w1 : list (F * F)) (p : F * F) (n : nat) :
  w1 ≠ [] → ∀ k a, on_plan w1 p k a → ∃ a' k', ticks n a = Ok a' ∧ on_plan w1 p k' a'.
Proof.
  intros Hw1. induction n as [|n IH]; intros k a Hon; [by exists a, k|].
  pose proof Hon as (Hcur & Hk & Hpos & Hsub). cbn [ticks].
  destruct (decide (k ≤ length w1)%nat) as [Hle|Hgt].
  - destruct (step_at_cursor w1 p k a Hw1 Hcur Hle Hpos) as (a1 & -> & Hout).
    cbn [mbind res_bind fst]. destruct Hpos as [q Hq].
    pose proof (tick_on_plan _ _ _ _ _ _ Hon Hle Hout Hq) as Hon1.
    destruct (reached q _); destruct Hon1 as [Hon1 _].
    + by apply (IH (S k)).
    + by apply (IH k).
  - rewrite (step_done a (past_plan_done _ _ _ _ Hcur ltac:(lia))).
    cbn [mbind res_bind fst]. by apply (IH k).
Qed.

Lemma load_on_plan (w1 : list (F * F)) (p : F * F) (a0 : Animator F) (sp : option (F * F)) :
  w1 ≠ [] → on_plan w1 p 0 (load a0 (engaged_plan w1 p) sp).
Proof.
  intros Hw1. destruct w1 as [|w ws]; [done|].
  split; [by split|]. split; [cbn [length]; lia|]. split; [|apply sublist_nil_l].
  cbn. destruct sp; by eexists.
Qed.

(** What [animator_two_segment_run] states of every arithmetic. *)
Lemma two_segment_ticks (w : F * F) (ws : list (F * F)) (p : F * F)
    (a0 : Animator F) (sp : option (F * F)) (n : nat) :
  let w1 := w :: ws in
  ∃ a k,
    ticks n (load a0 (engaged_plan w1 p) sp) = Ok a
    ∧ on_plan w1 p k a
    ∧ current_magnet_on a = Ok (k <? length w1)%nat
    ∧ ((k ≤ length w1)%nat →
       ∃ a', step a = Ok (a', last_draw_path a') ∧ tick_outcome w1 p k a a')
    ∧ ((length w1 < k)%nat → done a = true ∧ step a = Ok (a, last_draw_path a)).
Proof.
  intros w1.
  assert (w1 ≠ []) as Hw1 by done.
  destruct (ticks_on_plan w1 p n Hw1 _ _ (load_on_plan w1 p a0 sp Hw1))
    as (a & k & Hticks & Hon).
  exists a, k. split; [exact Hticks|]. split; [exact Hon|].
  destruct Hon as (Hcur & Hk & Hpos & Hsub).
  split; [by apply current_magnet_on_at_cursor with p|]. split.
  - intros Hle. exact (step_at_cursor w1 p k a Hw1 Hcur Hle Hpos).
  - intros Hgt. pose proof (past_plan_done _ _ _ _ Hcur Hgt) as Hd.
    split; [exact Hd|by apply step_done].
Qed.
End animator_facts.

Section ticks_facts.
Context {F : Type} `{Arith F}.

Lemma ticks_add (m n : nat) (a : Animator F) :
  ticks (m + n) a = ticks m a ≫= ticks n.
Proof.
  revert a. induction m as [|m IH]; intros a; [reflexivity|].
  cbn [Nat.add ticks]. destruct (step a) as [r| |]; cbn [mbind res_bind]; [apply IH|done|done].
Qed.
End ticks_facts.

(** ** The run in exact arithmetic *)

Section real_run.
Local Open Scope R_scope.

Lemma reached_iff (q t : R * R) : reached q t = true ↔ gap q t < / 1000.
Proof.
  unfold reached. cbn [fltb real_arith lit_1e_3].
  destruct (Rlt_dec _ _) as [Hlt|Hge]; split; try done.
Qed.

Lemma gap_nonneg (q t : R * R) : 0 <= gap q t.
Proof. unfold gap. cbn [fhypot real_arith]. apply sqrt_pos. Qed.

(** A move brings the position nearer by a two-thousandth of a pixel at
    least. *)
Lemma moved_nearer (speed : R) (q t : R * R) :
  1 <= speed → reached q t = false →
  gap (moved speed q t) t <= gap q t - / 2000.
Proof.
  intros Hsp Hr.
  assert (/ 1000 <= gap q t) as Hd.
  { destruct (Rle_or_lt (/ 1000) (gap q t)) as [Hle|Hlt]; [exact Hle|].
    apply reached_iff in Hlt. congruence. }
  unfold moved, gap in *. cbn [fst snd fadd fsub fmul fdiv fltb fhypot real_arith lit_1e_9] in *.
  set (dx := t.1 - q.1) in *. set (dy := t.2 - q.2) in *.
  set (d := R_sqrt.sqrt (dx * dx + dy * dy)) in *.
  set (s := if if Rlt_dec d speed then true else false then d else speed).
  assert (/ 1000 <= s ∧ s <= d) as [Hs1 Hs2].
  { unfold s. destruct (Rlt_dec d speed) as [Hlt|Hge]; Lra.lra. }
  set (e := / 1000000000).
  assert (0 < e ∧ e <= / 1000) as [He1 He2] by (unfold e; Lra.lra).
  set (c := 1 - s / (d + e)).
  assert (t.1 - (q.1 + dx / (d + e) * s) = c * dx) as -> by (unfold c, dx; field; Lra.lra).
  assert (t.2 - (q.2 + dy / (d + e) * s) = c * dy) as -> by (unfold c, dy; field; Lra.lra).
  assert (0 <= c) as Hc.
  { assert (s / (d + e) <= 1); [|unfold c; Lra.lra].
    apply Rmult_le_reg_r with (d + e); [Lra.lra|].
    unfold Rdiv. rewrite Rmult_assoc, Rinv_l by Lra.lra. Lra.lra. }
  assert (c * dx * (c * dx) + c * dy * (c * dy) = c * c * (dx * dx + dy * dy)) as -> by ring.
  rewrite sqrt_mult_alt by (apply Rle_0_sqr). rewrite (sqrt_square c Hc). fold d.
  unfold c. apply Rmult_le_reg_r with (d + e); [Lra.lra|].
  assert ((1 - s / (d + e)) * d * (d + e) = (d + e - s) * d) as -> by (field; Lra.lra).
  Lra.nra.
Qed.

Lemma speed_at_pos (w1 : list (R * R)) (k : nat) : 1 <= speed_at w1 k.
Proof. unfold speed_at. destruct (_ <? _)%nat; cbn; Lra.lra. Qed.

(** From any position on the plan the waypoint ahead is consumed after
    finitely many ticks. *)
Lemma leg_runs (w1 : list (R * R)) (p : R * R) (k : nat) (N : nat) :
  w1 ≠ [] → (k ≤ length w1)%nat →
  ∀ (a : Animator R) (q : R * R),
    on_plan w1 p k a → pos a = Some q → gap q (target_at w1 p k) <= INR N * / 2000 →
    ∃ m a' q', ticks m a = Ok a' ∧ on_plan w1 p (S k) a' ∧ pos a' = Some q'
               ∧ reached q' (target_at w1 p k) = true.
Proof.
  intros Hw1 Hle. induction N as [|N IH]; intros a q Hon Hq Hgap.
  all: pose proof Hon as (Hcur & _ & Hpos & _).
  all: destruct (step_at_cursor w1 p k a Hw1 Hcur Hle Hpos) as (a1 & Hst & Hout).
  all: pose proof (tick_on_plan _ _ _ _ _ _ Hon Hle Hout Hq) as Hon1.
  all: destruct (reached q (target_at w1 p k)) eqn:Hr.
  1,3: exists 1%nat, a1, q; cbn [ticks]; rewrite Hst; cbn [mbind res_bind fst];
       destruct Hon1 as [Hon1 Hq1];
       (split; [reflexivity|split; [exact Hon1|split; [exact Hq1|exact Hr]]]).
  - exfalso. cbn [INR] in Hgap.
    assert (gap q (target_at w1 p k) < / 1000) as Hlt by Lra.lra.
    apply reached_iff in Hlt. congruence.
  - destruct Hon1 as [Hon1 Hq1].
    destruct (IH a1 _ Hon1 Hq1) as (m & a' & q' & Hm & Hon' & Hq' & Hr').
    { pose proof (moved_nearer (speed_at w1 k) q (target_at w1 p k) (speed_at_pos w1 k) Hr).
      rewrite S_INR in Hgap. Lra.lra. }
    exists (S m), a', q'. cbn [ticks]. rewrite Hst. cbn [mbind res_bind fst].
    split; [exact Hm|]. split; [exact Hon'|]. split; [exact Hq'|exact Hr'].
Qed.

Lemma plan_runs_from (w1 : list (R * R)) (p : R * R) (j : nat) :
  w1 ≠ [] →
  ∀ (k : nat) (a : Animator R),
    (k + j = length w1)%nat → on_plan w1 p k a →
    ∃ m a' q', ticks m a = Ok a' ∧ on_plan w1 p (S (length w1)) a' ∧ pos a' = Some q'
               ∧ reached q' p = true.
Proof.
  intros Hw1. induction j as [|j IH]; intros k a Hk Hon.
  all: pose proof Hon as (_ & _ & [q Hq] & _).
  all: destruct (INR_archimed (/ 2000) (gap q (target_at w1 p k)) ltac:(Lra.lra)) as [N HN].
  all: destruct (leg_runs w1 p k N Hw1 ltac:(lia) a q Hon Hq ltac:(Lra.lra))
         as (m & a1 & q1 & Hm & Hon1 & Hq1 & Hr1).
  - assert (k = length w1) as -> by lia. exists m, a1, q1.
    split; [exact Hm|]. split; [exact Hon1|]. split; [exact Hq1|].
    unfold target_at in Hr1. by rewrite (lookup_ge_None_2 w1 (length w1)) in Hr1 by lia.
  - destruct (IH (S k) a1 ltac:(lia) Hon1) as (m' & a' & q' & Hm' & Hon' & Hq' & Hr').
    exists (m + m')%nat, a', q'. rewrite ticks_add, Hm. cbn [mbind res_bind].
    split; [exact Hm'|]. split; [exact Hon'|]. split; [exact Hq'|exact Hr'].
Qed.

(** In exact arithmetic every two-segment plan is run to its end. *)
Lemma real_run_ends (w : R * R) (ws : list (R * R)) (p : R * R)
    (a0 : Animator R) (sp : option (R * R)) :
  ∃ n a q,
    ticks n (load a0 (engaged_plan (w :: ws) p) sp) = Ok a
    ∧ done a = true
    ∧ sublist (w :: ws) (last_draw_path a)
    ∧ pos a = Some q ∧ reached q p = true.
Proof.
  assert (w :: ws ≠ []) as Hw1 by done.
  destruct (plan_runs_from (w :: ws) p (length (w :: ws)) Hw1 0 _ ltac:(lia)
              (load_on_plan (w :: ws) p a0 sp Hw1)) as (m & a & q & Hm & Hon & Hq & Hr).
  exists m, a, q. split; [exact Hm|]. destruct Hon as (Hcur & _ & _ & Hsub).
  split; [by eapply past_plan_done; [exact Hcur|lia]|].
  split; [|by split]. by rewrite take_ge in Hsub by lia.
Qed.
End real_run.

Lemma ticks_until_done_spec {F} `{Arith F} (fuel : nat) (a : Animator F) (n : nat) :
  ticks_until_done fuel a = Some n →
  (n ≤ fuel)%nat ∧ ∃ a', ticks n a = Ok a' ∧ done a' = true.
Proof.
  revert a n. induction fuel as [|fuel IH]; intros a n; cbn [ticks_until_done].
  - destruct (done a) eqn:Hd; [|discriminate]. intros [= <-]. split; [lia|]. by exists a.
  - destruct (done a) eqn:Hd.
    + intros [= <-]. split; [lia|]. by exists a.
    + destruct (step a) as [r| |] eqn:Hst; [|discriminate|discriminate].
      destruct (ticks_until_done fuel r.1) as [m|] eqn:Hm; [|discriminate].
      cbn. intros [= <-]. destruct (IH _ _ Hm) as (Hle & a' & Ht & Hd').
      split; [lia|]. exists a'. cbn [ticks]. rewrite Hst. cbn [mbind res_bind]. by split.
Qed.

(** ** The run in floats, on the plans of the planner *)

Lemma open_board_runs_all :
  forallb (fun s => forallb (fun d => runs_within 300 s d) (range 64)) (range 64) = true.
Proof. vm_compute. reflexivity. Qed.

Lemma float_run_ends (src dst : Z) :
  0 ≤ src < 64 → 0 ≤ dst < 64 →
  ∃ segs n a,
    plan_normal_move empty_board {| from_square := src; to_square := dst |} = Ok segs
    ∧ (n ≤ 300)%nat
    ∧ ticks n (load new_animator (float_plan segs) None) = Ok a
    ∧ done a = true.
Proof.
  intros Hs Hd. pose proof open_board_runs_all as Hall.
  rewrite forallb_forall in Hall.
  specialize (Hall src ltac:(apply list_elem_of_In, elem_of_range; lia)).
  rewrite forallb_forall in Hall.
  specialize (Hall dst ltac:(apply list_elem_of_In, elem_of_range; lia)).
  unfold runs_within in Hall.
  destruct (plan_normal_move _ _) as [segs| |]; [|discriminate|discriminate].
  apply bool_decide_eq_true_1 in Hall as [n Hn].
  destruct (ticks_until_done_spec _ _ _ Hn) as (Hle & a & Ht & Hdone).
  by exists segs, n, a.
Qed.

(** C9, as the code has it.  Load an engaged travel segment [w :: ws]
    followed by a one-point disengage segment.  In every arithmetic: after
    any number of ticks the Animator has raised nothing and stands at a
    cursor [k] of the plan; [current_magnet_on] is true exactly while the
    cursor is in segment 1; the waypoints of segment 1 behind the cursor
    are in the trace, in order.  The next tick tests [dist < 1e-3]: if so it
    consumes waypoint [k] and nothing else (the position is left where it
    is, and in segment 1 the waypoint is appended to the trace, duplicate or
    not); if not it leaves the cursor and sets the position to [moved] (in
    segment 1 that position is appended to the trace when the trace is
    empty or ends more than 0.5 away; in segment 2 the trace stays as it
    is).  Past the last waypoint the Animator is done.  In exact arithmetic
    every such plan is run to that end, in finitely many ticks: the
    Animator is then done, within [1e-3] of the last waypoint, with every
    waypoint of segment 1 in its trace, in order.  In floats the plan
    [plan_normal_move] makes for a move between any two squares of the
    empty board is run to its end within 300 ticks. *)
Theorem animator_two_segment_run :
  (∀ (F : Type) (A : Arith F) (w : F * F) (ws : list (F * F)) (p : F * F)
     (a0 : Animator F) (sp : option (F * F)) (n : nat),
     let w1 := w :: ws in
     ∃ a k,
       ticks n (load a0 (engaged_plan w1 p) sp) = Ok a
       ∧ on_plan w1 p k a
       ∧ current_magnet_on a = Ok (k <? length w1)%nat
       ∧ ((k ≤ length w1)%nat →
          ∃ a', step a = Ok (a', last_draw_path a') ∧ tick_outcome w1 p k a a')
       ∧ ((length w1 < k)%nat → done a = true ∧ step a = Ok (a, last_draw_path a)))
  ∧ (∀ (w : R * R) (ws : list (R * R)) (p : R * R) (a0 : Animator R) (sp : option (R * R)),
       ∃ n a q,
         ticks n (load a0 (engaged_plan (w :: ws) p) sp) = Ok a
         ∧ done a = true
         ∧ sublist (w :: ws) (last_draw_path a)
         ∧ pos a = Some q ∧ reached q p = true)
  ∧ (∀ src dst : Z, 0 ≤ src < 64 → 0 ≤ dst < 64 →
       ∃ segs n a,
         plan_normal_move empty_board {| from_square := src; to_square := dst |} = Ok segs
         ∧ (n ≤ 300)%nat
         ∧ ticks n (load new_animator (float_plan segs) None) = Ok a
         ∧ done a = true).
Proof.
  split; [|split].
  - intros F A w ws p a0 sp n. exact (two_segment_ticks w ws p a0 sp n).
  - intros w ws p a0 sp. exact (real_run_ends w ws p a0 sp).
  - exact float_run_ends.
Qed.

(** C10 on a freshly loaded empty plan, in floats. *)
Lemma done_is_final_witness :
  let a := load new_animator ([] : list (segment (float * float))) None in
  step a = Ok (a, []) ∧ current_magnet_on a = Ok false ∧ ∀ n, ticks n a = Ok a.
Proof.
  cbv zeta.
  apply (done_is_final (load new_animator ([] : list (segment (float * float))) None)).
  right. by eexists _, _.
Defined.

(** C9 fails as stated, in Python floats.  Dragging from (0, 0) to (10, 0):
    after five ticks the Animator is done, its trace holds the two positions
    it passed through besides the two waypoints, and its position is where
    the last step left it, short of (10, 0).  Dragging from (1e17, 0) to
    (1e17 + 1008, 0): the step of 5 is lost in rounding, the second tick
    changes nothing at all, and the Animator is never done. *)
#[warnings="-inexact-float"]
Lemma animator_trace_holds_more_than_waypoints :
  let a5 := unwrap new_animator (ticks 5 (load new_animator drag_plan None)) in
  let b1 := unwrap new_animator (ticks 1 (load new_animator far_plan None)) in
  (done a5 = true
   ∧ last_draw_path a5 = [(0, 0); (4.9999999995, 0); (9.9999999984999999, 0); (10, 0)]%float
   ∧ pos a5 = Some (9.9999999984999999, 0)%float)
  ∧ (done b1 = false ∧ ∀ n, ticks n b1 = Ok b1).
Proof.
  cbv zeta. split; [split; [|split]|split]; try (vm_compute; reflexivity).
  apply ticks_fixed with (tr := [(1e17, 0)%float]). vm_compute. reflexivity.
Qed.

(** * Further properties *)

Lemma a_star_complete start goal blk :
  is_Some (EDGES !! start) →
  a_star start goal blk = Ok None → ∀ l, ¬ route_to EDGES start goal blk goal l.
Proof. exact (a_star_with_complete EDGES start goal blk EDGES_closed EDGES_fuel). Qed.

Lemma a_star_finds_a_route_or_none_aux start goal blk :
  is_Some (EDGES !! start) →
  (a_star start goal blk = Ok None ∧ ∀ l, ¬ route_to EDGES start goal blk goal l)
  ∨ (∃ l, a_star start goal blk = Ok (Some l) ∧ route_to EDGES start goal blk goal l).
Proof.
  intros Hin. destruct (a_star_total start goal blk Hin) as [Hnone|Hsome]; [left|by right].
  split; [exact Hnone|]. by apply a_star_complete.
Qed.

(** From a node of the corridor graph [a_star] always answers, raising
    nothing: with [None] exactly when no corridor route to the goal exists
    under the blocked predicate, and otherwise with such a route (which need
    not be a shortest one). *)
Theorem a_star_finds_a_route_or_none start goal blk :
  is_Some (EDGES !! start) →
  (a_star start goal blk = Ok None ∧ ∀ l, ¬ route_to EDGES start goal blk goal l)
  ∨ (∃ l, a_star start goal blk = Ok (Some l) ∧ route_to EDGES start goal blk goal l).
Proof. apply a_star_finds_a_route_or_none_aux. Qed.

Lemma a_star_finds_a_route_or_none_witness :
  (a_star (TC, 0, 1) (TC, 3, 0) a3_blocked = Ok None
   ∧ ∀ l, ¬ route_to EDGES (TC, 0, 1) (TC, 3, 0) a3_blocked (TC, 3, 0) l)
  ∨ (∃ l, a_star (TC, 0, 1) (TC, 3, 0) a3_blocked = Ok (Some l)
          ∧ route_to EDGES (TC, 0, 1) (TC, 3, 0) a3_blocked (TC, 3, 0) l).
Proof.
  apply (a_star_finds_a_route_or_none (TC, 0, 1) (TC, 3, 0) a3_blocked).
  exact (center_in_graph 1 ltac:(lia)).
Defined.

Section planner_completeness.
Context {B : Type} `{ChessBoard B}.

(** [plan_corridor_path] raises "No corridor path found." exactly when no
    corridor route exists under the occupancy. *)
Theorem plan_corridor_path_raises_iff (board : B) (src dst : Z) :
  0 ≤ src < 64 →
  plan_corridor_path board src dst = Raise no_corridor_path ↔
  ∀ l, ¬ route_to EDGES (TC, square_rank src, square_file src)
           (TC, square_rank dst, square_file dst)
           (blocked (board_occupied_rc board) (square_rank src) (square_file src))
           (TC, square_rank dst, square_file dst) l.
Proof.
  intros Hsrc. rewrite plan_corridor_path_unfold.
  destruct (a_star_finds_a_route_or_none_aux _ (TC, square_rank dst, square_file dst)
              (blocked (board_occupied_rc board) (square_rank src) (square_file src))
              (center_in_graph src Hsrc)) as [[-> Hno]|(l & -> & Hr)].
  - split; [by intros _|done].
  - split.
    + destruct l; [by apply route_to_last in Hr|]. intros [=].
    + intros Hno. by destruct (Hno l).
Qed.
End planner_completeness.

Lemma plan_corridor_path_raises_iff_witness :
  plan_corridor_path walled_board 0 63 = Raise no_corridor_path ↔
  ∀ l, ¬ route_to EDGES (TC, square_rank 0, square_file 0) (TC, square_rank 63, square_file 63)
           (blocked (board_occupied_rc walled_board) (square_rank 0) (square_file 0))
           (TC, square_rank 63, square_file 63) l.
Proof. apply (plan_corridor_path_raises_iff walled_board 0 63). lia. Defined.

(** The Python loop [for nb in EDGES[cur]] walks a set, in an order the
    language does not fix.  Whatever the order, the loop leaves the same
    open list, the same [came] and the same [g]: so [a_star], modelled with
    one order, stands for all of them. *)
Theorem neighbour_order_irrelevant goal blk cur (l l' : list node) st :
  NoDup l → l ≡ₚ l' →
  for_each (relax goal blk cur) l st = for_each (relax goal blk cur) l' st.
Proof. apply relax_perm. Qed.

Lemma neighbour_order_irrelevant_witness :
  let st := {| openh := []; came := {[(TC, 0, 0) := None]}; gsc := {[(TC, 0, 0) := 0]} |} in
  for_each (relax (TC, 7, 7) (fun _ _ => false) (TC, 0, 0)) [(TH, 0, 0); (TV, 0, 0)] st =
  for_each (relax (TC, 7, 7) (fun _ _ => false) (TC, 0, 0)) [(TV, 0, 0); (TH, 0, 0)] st.
Proof.
  cbv zeta. apply neighbour_order_irrelevant.
  - apply NoDup_cons. split; [|apply NoDup_singleton].
    intros [=]%list_elem_of_singleton.
  - apply perm_swap.
Defined.

(** Within one colour the graveyard slots of [printer_sim.py] never repeat:
    on the initialised grid, two calls of [next_grave_xy] return the same
    point only when the two lists they index by are equally long. *)
Theorem grave_slots_distinct_within_colour (gy gy' : graveyard) (color color' : bool) :
  grave_positions gy = grave_positions fresh_graveyard →
  grave_positions gy' = grave_positions fresh_graveyard →
  pt_eq (next_grave_xy gy color) (next_grave_xy gy' color') →
  length (if color then captured_white gy else captured_black gy) =
  length (if color' then captured_white gy' else captured_black gy').
Proof.
  intros Hg Hg'. rewrite (next_grave_xy_slot gy color Hg), (next_grave_xy_slot gy' color' Hg').
  apply grave_slot_inj.
Qed.

Lemma grave_slots_distinct_within_colour_witness :
  let first_black := next_grave_xy fresh_graveyard BLACK in
  let gy := record_capture fresh_graveyard BLACK first_black in
  ¬ pt_eq (next_grave_xy fresh_graveyard BLACK) (next_grave_xy gy BLACK).
Proof.
  cbv zeta. intros Heq.
  apply (grave_slots_distinct_within_colour fresh_graveyard
           (record_capture fresh_graveyard BLACK (next_grave_xy fresh_graveyard BLACK))
           BLACK BLACK) in Heq; [discriminate|reflexivity|reflexivity].
Defined.



Ltac line_at k :=
  exists k; split; [lia|]; first [left; vm_compute; reflexivity|right; vm_compute; reflexivity].

Ltac find_line :=
  first [line_at 0|line_at 1|line_at 2|line_at 3|line_at 4|line_at 5|line_at 6|line_at 7
        |line_at 8].

Ltac one_of_four :=
  first [left; vm_compute; reflexivity
        |right; left; vm_compute; reflexivity
        |right; right; left; vm_compute; reflexivity
        |right; right; right; vm_compute; reflexivity].

(** The head of the margin route, for every square and every slot: five
    waypoints from the captured square's center to the slot, the first three
    on one straight line; the second is half a square away from the center
    and lies on a grid line; the third is beyond the board, past its nearest
    edge by more than half a square and less than a whole one.  (The fourth
    is where the route can come back in.) *)
Theorem margin_route_exits (r c : Z) (grave_xy : point) :
  0 ≤ r < 8 → 0 ≤ c < 8 →
  ∃ p1 p2 p3,
    plan_margin_escape_path (rc_to_center_xy r c) grave_xy =
      [rc_to_center_xy r c; p1; p2; p3; grave_xy]
    ∧ Qeq (manhattan (rc_to_center_xy r c) p1) (Zq SQUARE / 2)
    ∧ on_grid_line p1
    ∧ ((Qeq p1.1 (rc_to_center_xy r c).1 ∧ Qeq p2.1 (rc_to_center_xy r c).1)
       ∨ (Qeq p1.2 (rc_to_center_xy r c).2 ∧ Qeq p2.2 (rc_to_center_xy r c).2))
    ∧ beyond_board p2
    ∧ Qlt (nearest_edge_distance (rc_to_center_xy r c) + Zq SQUARE / 2)
          (manhattan (rc_to_center_xy r c) p2)
    ∧ Qlt (manhattan (rc_to_center_xy r c) p2)
          (nearest_edge_distance (rc_to_center_xy r c) + Zq SQUARE)
    ∧ (Qeq p3.1 grave_xy.1 ∨ Qeq p3.2 grave_xy.2).
Proof.
  intros Hr Hc. destruct grave_xy as [gx gy].
  assert (r = 0 ∨ r = 1 ∨ r = 2 ∨ r = 3 ∨ r = 4 ∨ r = 5 ∨ r = 6 ∨ r = 7) as Hrs by lia.
  assert (c = 0 ∨ c = 1 ∨ c = 2 ∨ c = 3 ∨ c = 4 ∨ c = 5 ∨ c = 6 ∨ c = 7) as Hcs by lia.
  clear Hr Hc.
  destruct Hrs as [->|[->|[->|[->|[->|[->|[->| ->]]]]]]];
    destruct Hcs as [->|[->|[->|[->|[->|[->|[->| ->]]]]]]];
    (eexists _, _, _; split; [reflexivity|];
     split; [vm_compute; reflexivity|];
     split; [find_line|];
     split; [first [left; split; vm_compute; reflexivity|right; split; vm_compute; reflexivity]|];
     split; [unfold beyond_board; cbn [fst snd]; one_of_four|];
     split; [vm_compute; reflexivity|];
     split; [vm_compute; reflexivity|first [left; reflexivity|right; reflexivity]]).
Qed.

Lemma margin_route_exits_witness :
  ∃ p1 p2 p3,
    plan_margin_escape_path (rc_to_center_xy 4 3) (next_grave_xy fresh_graveyard BLACK) =
      [rc_to_center_xy 4 3; p1; p2; p3; next_grave_xy fresh_graveyard BLACK]
    ∧ beyond_board p2.
Proof.
  destruct (margin_route_exits 4 3 (next_grave_xy fresh_graveyard BLACK))
    as (p1 & p2 & p3 & Hpath & _ & _ & _ & Hout & _); [lia|lia|].
  by exists p1, p2, p3.
Defined.

(** * Further properties of the code *)

(** ** The shape of the corridor graph *)

Lemma in_graph_C r c : in_graph (TC, r, c) = true ↔ 0 ≤ r < 8 ∧ 0 ≤ c < 8.
Proof. cbn. rewrite !andb_true_iff, !Z.leb_le, !Z.ltb_lt. lia. Qed.

Lemma in_graph_H r c : in_graph (TH, r, c) = true ↔ 0 ≤ r < 8 ∧ 0 ≤ c < 7.
Proof. cbn. rewrite !andb_true_iff, !Z.leb_le, !Z.ltb_lt. lia. Qed.

Lemma in_graph_V r c : in_graph (TV, r, c) = true ↔ 0 ≤ r < 7 ∧ 0 ≤ c < 8.
Proof. cbn. rewrite !andb_true_iff, !Z.leb_le, !Z.ltb_lt. lia. Qed.

Lemma elem_of_grid (t : tag) (n m : nat) (x : node) :
  x ∈ (r ← range n; c ← range m; [(t, r, c)]) ↔
  ntag x = t ∧ 0 ≤ nrow x < Z.of_nat n ∧ 0 ≤ ncol x < Z.of_nat m.
Proof.
  destruct x as [[t' r] c]. cbn [ntag nrow ncol fst snd].
  rewrite list_elem_of_bind. split.
  - intros (r' & (c' & Hx%list_elem_of_singleton & Hc%elem_of_range)%list_elem_of_bind
              & Hr%elem_of_range).
    injection Hx as -> -> ->. done.
  - intros (-> & Hr & Hc). exists r. rewrite elem_of_range. split; [|done].
    apply list_elem_of_bind. exists c. rewrite elem_of_range. split; [|done].
    by apply list_elem_of_singleton.
Qed.

Lemma elem_of_all_nodes n : n ∈ all_nodes ↔ in_graph n = true.
Proof.
  unfold all_nodes. rewrite !elem_of_app, !elem_of_grid.
  destruct n as [[[] r] c]; cbn [ntag nrow ncol fst snd];
    rewrite ?in_graph_C, ?in_graph_H, ?in_graph_V; split.
  all: try (intros [(_ & ? & ?)|[([=] & _)|([=] & _)]]; lia).
  all: try (intros [([=] & _)|[(_ & ? & ?)|([=] & _)]]; lia).
  all: try (intros [([=] & _)|[([=] & _)|(_ & ? & ?)]]; lia).
  - intros ?. left. split; [done|lia].
  - intros ?. right. left. split; [done|lia].
  - intros ?. right. right. split; [done|lia].
Qed.

(** What [EDGES] holds is on the grid. *)
Lemma EDGES_on_grid n s :
  EDGES !! n = Some s →
  in_graph n = true ∧ ∀ m, m ∈ s → in_graph m = true ∧ m ∈ flank n.
Proof.
  assert (bool_decide (map_Forall (fun n s =>
            in_graph n = true
            ∧ set_Forall (fun m => in_graph m = true ∧ m ∈ flank n) s) EDGES) = true) as Hall
    by (vm_compute; reflexivity).
  apply bool_decide_eq_true_1 in Hall.
  intros Hn. destruct (Hall n s Hn) as [Hg Hs]. clear Hn Hall.
  split; [exact Hg|]. intros m Hm. exact (Hs m Hm).
Qed.

(** What is on the grid is in [EDGES]. *)
Lemma EDGES_of_grid n :
  in_graph n = true →
  ∃ s, EDGES !! n = Some s ∧ ∀ m, m ∈ flank n → in_graph m = true → m ∈ s.
Proof.
  assert (forallb (fun n =>
            match EDGES !! n with
            | Some s => forallb (fun m => implb (in_graph m) (bool_decide (m ∈ s))) (flank n)
            | None => false
            end) all_nodes = true) as Hall
    by (vm_compute; reflexivity).
  rewrite forallb_forall in Hall.
  intros Hn%elem_of_all_nodes%list_elem_of_In. specialize (Hall n Hn).
  destruct (EDGES !! n) as [s|]; [|done]. exists s. split; [done|].
  rewrite forallb_forall in Hall. intros m Hm%list_elem_of_In Hg.
  specialize (Hall m Hm). rewrite Hg in Hall. by apply bool_decide_eq_true_1 in Hall.
Qed.

Lemma EDGES_link a b :
  (∃ s, EDGES !! a = Some s ∧ b ∈ s) ↔
  in_graph a = true ∧ in_graph b = true ∧ b ∈ flank a.
Proof.
  split.
  - intros (s & Hs & Hb). destruct (EDGES_on_grid a s Hs) as [Ha Hall].
    destruct (Hall b Hb) as [Hb1 Hb2]. exact (conj Ha (conj Hb1 Hb2)).
  - intros (Ha & Hb & Hf). destruct (EDGES_of_grid a Ha) as (s & Hs & Hall).
    exists s. split; [exact Hs|]. exact (Hall b Hf Hb).
Qed.

Lemma flank_sym a b : b ∈ flank a → a ∈ flank b.
Proof.
  destruct a as [[[] ra] ca], b as [[tb rb] cb]; cbn [flank];
    rewrite !elem_of_cons, !elem_of_nil; intros Hb.
  all: repeat (destruct Hb as [Hb|Hb]); try done.
  all: injection Hb as -> -> ->; cbn [flank]; rewrite !elem_of_cons.
  all: solve [ repeat first [ left; solve [repeat f_equal; lia] | right ] ].
Qed.

(** The graph built by [build_corridor_graph]: its nodes are the 64 Centers,
    the 56 horizontal and the 56 vertical midpoints of the grid, and two
    nodes are linked exactly when one is a midpoint and the other one of
    the two Centers it lies between; so every link goes both ways. *)
Theorem corridor_graph_shape (n m : node) :
  (n ∈ NODES ↔ in_graph n = true)
  ∧ ((∃ s, EDGES !! n = Some s ∧ m ∈ s) ↔
     in_graph n = true ∧ in_graph m = true ∧ m ∈ flank n)
  ∧ ((∃ s, EDGES !! n = Some s ∧ m ∈ s) ↔ (∃ s, EDGES !! m = Some s ∧ n ∈ s))
  ∧ size NODES = (64 + 56 + 56)%nat.
Proof.
  split; [|split; [|split]].
  - rewrite <- EDGES_dom, elem_of_dom. split.
    + intros [s Hs]. exact (proj1 (EDGES_on_grid n s Hs)).
    + intros Hn. destruct (EDGES_of_grid n Hn) as (s & Hs & _). exists s. exact Hs.
  - apply EDGES_link.
  - rewrite !EDGES_link. split; intros (? & ? & ?); split; try done; split; try done;
      by apply flank_sym.
  - rewrite <- EDGES_dom, size_dom. apply EDGES_size.
Qed.

(** ** The route [a_star] returns visits no node twice *)

Section a_star_simple.
Variables (edges : gmap node (gset node)) (start goal : node) (blk : Z → Z → bool).
Hypothesis edges_closed :
  ∀ n s m, edges !! n = Some s → m ∈ s → is_Some (edges !! m).
Hypothesis edges_fuel :
  Z.of_nat (size edges) * Z.of_nat (size edges) + 1 < Z.of_nat A_STAR_FUEL.

(** Walking [came] back, the scores go down strictly. *)
Lemma walk_back_scores st fuel n v acc :
  inv edges start goal blk st → gsc st !! n = Some v → v < Z.of_nat fuel →
  ∃ l, walk_back fuel (came st) (Some n) acc = Ok (acc ++ l)
       ∧ NoDup l
       ∧ Forall (fun m => ∃ vm, gsc st !! m = Some vm ∧ vm ≤ v) l.
Proof.
  intros Hi. revert n v acc. induction fuel as [|fuel IH]; intros n v acc Hv Hf.
  { destruct (inv_g _ _ _ _ _ Hi n v Hv) as ([? ?] & _). lia. }
  destruct (inv_g _ _ _ _ _ Hi n v Hv) as (_ & _ & [p Hp]).
  simpl. unfold getitem. rewrite Hp. simpl. destruct p as [p|].
  - destruct (inv_link _ _ _ _ _ Hi n p Hp) as (Hs & vn & vp & Hvn & Hvp & Hle).
    assert (vn = v) as -> by congruence.
    destruct (IH p vp (acc ++ [n]) Hvp) as (l & Hl & Hnd & Hall); [lia|].
    exists (n :: l). rewrite Hl, <- app_assoc. split; [reflexivity|]. split.
    + constructor; [|exact Hnd]. intros Hin.
      rewrite Forall_forall in Hall. destruct (Hall n Hin) as (vm & Hvm & Hlt).
      assert (vm = v) by congruence. lia.
    + constructor; [exists v; split; [exact Hvn|lia]|].
      eapply Forall_impl; [exact Hall|]. intros m (vm & Hvm & Hlt). exists vm. split; [done|lia].
  - exists [n]. split; [by destruct fuel|]. split.
    + apply NoDup_singleton.
    + constructor; [|constructor]. exists v. split; [done|lia].
Qed.

Lemma a_star_loop_simple fuel st l :
  inv edges start goal blk st → measure edges st < Z.of_nat fuel →
  a_star_loop edges fuel goal blk st = Ok (Some l) →
  NoDup l ∧ (length l ≤ size edges)%nat.
Proof.
  revert st. induction fuel as [|fuel IH]; intros st Hi Hm.
  { pose proof (measure_nonneg _ _ _ _ _ Hi). lia. }
  cbn [a_star_loop]. destruct (openh st) as [|[f cur] rest] eqn:Hopen; cbn [heappop]; [done|].
  destruct (inv_open _ _ _ _ _ Hi (f, cur)) as [v Hv]; [rewrite Hopen; by left|]. simpl in Hv.
  destruct (inv_g _ _ _ _ _ Hi cur v Hv) as ([Hv0 Hvs] & [nbs Hnbs] & _).
  case_bool_decide as Hgoal.
  - subst cur. cbn [came].
    destruct (walk_back_scores st A_STAR_FUEL goal v [] Hi Hv) as (l' & Hl & Hnd & Hall).
    { pose proof (inv_size _ _ _ _ _ Hi). nia. }
    rewrite Hl. cbn [mbind res_bind app]. intros [= <-].
    assert (NoDup (reverse l')) as Hnd' by (by rewrite reverse_Permutation).
    split; [exact Hnd'|]. rewrite length_reverse.
    rewrite <- (size_list_to_set (C := gset node) l' Hnd), <- (size_dom edges).
    apply subseteq_size. intros m Hin%elem_of_list_to_set.
    apply (inv_dom _ _ _ _ _ Hi). rewrite Forall_forall in Hall.
    destruct (Hall m Hin) as (vm & Hvm & _). apply elem_of_dom. by exists vm.
  - assert (getitem edges cur = Ok nbs) as Hget by (unfold getitem; by rewrite Hnbs).
    rewrite !Hget. cbn [mbind res_bind].
    set (st0 := {| openh := rest; came := came st; gsc := gsc st |}).
    assert (inv edges start goal blk st0) as Hi0.
    { constructor; simpl.
      - exact (inv_start_came _ _ _ _ _ Hi).
      - exact (inv_start_g _ _ _ _ _ Hi).
      - exact (inv_root _ _ _ _ _ Hi).
      - exact (inv_link _ _ _ _ _ Hi).
      - exact (inv_g _ _ _ _ _ Hi).
      - intros e He. apply (inv_open _ _ _ _ _ Hi). rewrite Hopen. by right. }
    destruct (for_each_relax_spec edges start goal blk edges_closed cur nbs (elements nbs) st0 Hi0)
      as (st1 & Hst1 & Hi1 & Hm1);
      [by exists v|done|by intros nb ?%elem_of_elements|].
    rewrite !Hst1. cbn [mbind res_bind]. apply IH; [done|].
    unfold measure in *. rewrite Hopen in Hm. simpl in *. lia.
Qed.

Lemma a_star_with_simple l :
  is_Some (edges !! start) →
  a_star_loop edges A_STAR_FUEL goal blk
    {| openh := heappush [] (0%Q, start); came := {[start := None]}; gsc := {[start := 0]} |}
    = Ok (Some l) →
  NoDup l ∧ (length l ≤ size edges)%nat.
Proof.
  intros He. apply a_star_loop_simple; [by apply inv_init|].
  unfold measure, pot; cbn [openh gsc heappush length].
  rewrite map_size_singleton.
  assert (sumg {[start := 0]} = 0) as ->.
  { unfold sumg. by rewrite map_fold_singleton. }
  assert (0 < size edges)%nat.
  { destruct He as [s Hs]. destruct (decide (size edges = 0%nat)) as [Hz|]; [|lia].
    apply map_size_empty_inv in Hz. rewrite Hz, lookup_empty in Hs. done. }
  nia.
Qed.
End a_star_simple.

Lemma a_star_simple start goal blk l :
  a_star start goal blk = Ok (Some l) → NoDup l ∧ (length l ≤ 176)%nat.
Proof.
  intros Hl. destruct (decide (is_Some (EDGES !! start))) as [Hin|Hout].
  - rewrite <- EDGES_size.
    exact (a_star_with_simple EDGES start goal blk EDGES_closed EDGES_fuel l Hin Hl).
  - apply eq_None_not_Some in Hout.
    assert (∃ k, A_STAR_FUEL = S k) as [k Hk] by (eexists; reflexivity).
    unfold a_star in Hl. rewrite Hk in Hl.
    destruct (a_star_loop_outside EDGES start goal blk k l Hout Hl) as [_ ->].
    clear. split; [apply NoDup_singleton|simpl; lia].
Qed.

(** ** The geometry of a corridor route *)

Lemma node_xy_inj n m :
  in_graph n = true → in_graph m = true → pt_eq (node_xy n) (node_xy m) → n = m.
Proof.
  assert (forallb (fun n => forallb (fun m =>
            implb (pt_eqb (node_xy n) (node_xy m)) (bool_decide (n = m))) all_nodes) all_nodes
          = true) as Hall by (vm_compute; reflexivity).
  intros Hn%elem_of_all_nodes%list_elem_of_In Hm%elem_of_all_nodes%list_elem_of_In Heq%pt_eqb_eq.
  rewrite forallb_forall in Hall. specialize (Hall n Hn). rewrite forallb_forall in Hall.
  specialize (Hall m Hm). rewrite Heq in Hall. by apply bool_decide_eq_true_1 in Hall.
Qed.

Lemma half_stepb_spec p q : half_stepb p q = true ↔ half_step p q.
Proof.
  unfold half_stepb, half_step. by rewrite orb_true_iff, !andb_true_iff, !Qeq_bool_iff.
Qed.

Lemma linked_half_step n m : linked n m → half_step (node_xy n) (node_xy m).
Proof.
  assert (forallb (fun n => forallb (fun m =>
            implb (in_graph m) (half_stepb (node_xy n) (node_xy m))) (flank n)) all_nodes
          = true) as Hall by (vm_compute; reflexivity).
  intros (Hn%elem_of_all_nodes%list_elem_of_In & Hm & Hf%list_elem_of_In).
  rewrite forallb_forall in Hall. specialize (Hall n Hn). rewrite forallb_forall in Hall.
  specialize (Hall m Hf). rewrite Hm in Hall. by apply half_stepb_spec.
Qed.

Lemma linked_is_center n m : linked n m → is_center m = negb (is_center n).
Proof.
  intros (_ & _ & Hf). destruct n as [[[] r] c]; cbn [flank] in Hf.
  all: rewrite !elem_of_cons, elem_of_nil in Hf.
  all: repeat (destruct Hf as [Hf|Hf]); try done; by subst m.
Qed.

Lemma chain_snoc {A} (R : A → A → Prop) (l : list A) (p n : A) :
  chain R l → last l = Some p → R p n → chain R (l ++ [n]).
Proof.
  induction l as [|a [|b l] IH]; [done| |].
  - intros _ [= ->] Hr. by split.
  - intros [Hab Hc] Hl Hr. split; [exact Hab|]. by apply IH.
Qed.

Lemma chain_fmap {A C} (R : A → A → Prop) (R' : C → C → Prop) (f : A → C) (l : list A) :
  (∀ a b, R a b → R' (f a) (f b)) → chain R l → chain R' (f <$> l).
Proof.
  intros Hf. induction l as [|a [|b l] IH]; [done|done|].
  intros [Hab Hc]. split; [by apply Hf|]. by apply IH.
Qed.

Lemma chain_lookup {A} (R : A → A → Prop) (l : list A) (i : nat) (a b : A) :
  chain R l → l !! i = Some a → l !! S i = Some b → R a b.
Proof.
  revert i. induction l as [|x [|y l] IH]; [done|done|].
  intros [|i] [Hxy Hc]; cbn.
  - by intros [= ->] [= ->].
  - intros Ha Hb. by apply (IH i).
Qed.

(** A corridor route goes from node to linked node. *)
Lemma route_to_chain start goal blk n l :
  route_to EDGES start goal blk n l → chain linked l.
Proof.
  induction 1 as [|p n l Hr IH [Hlink _]]; [done|].
  apply EDGES_link in Hlink.
  eapply chain_snoc; [exact IH| |exact Hlink].
  exact (route_to_last _ _ _ _ _ _ Hr).
Qed.

Lemma chain_linked_in_graph l a :
  chain linked l → head l = Some a → in_graph a = true → Forall (fun n => in_graph n = true) l.
Proof.
  revert a. induction l as [|x [|y l] IH]; intros a Hc Hh Ha; [done| |].
  - assert (a = x) as -> by (cbn in Hh; congruence). by constructor.
  - assert (a = x) as -> by (cbn in Hh; congruence).
    destruct Hc as [(_ & Hy & _) Hc]. constructor; [done|].
    by apply (IH y).
Qed.

(** Centers and midpoints alternate along a chain of linked nodes. *)
Lemma chain_linked_parity l a b :
  chain linked l → head l = Some a → last l = Some b →
  Nat.odd (length l) = Bool.eqb (is_center a) (is_center b).
Proof.
  revert a. induction l as [|x [|y l] IH]; intros a Hc Hh Hl; [done| |].
  - assert (a = x) as -> by (cbn in Hh; congruence).
    assert (b = x) as -> by (cbn in Hl; congruence). by destruct (is_center x).
  - assert (a = x) as -> by (cbn in Hh; congruence). destruct Hc as [Hxy Hc].
    change (length (x :: y :: l)) with (S (length (y :: l))).
    rewrite Nat.odd_succ, <- Nat.negb_odd, (IH y Hc eq_refl Hl), (linked_is_center _ _ Hxy).
    by destruct (is_center x), (is_center b).
Qed.

(** What [a_star] returns, whatever the start: a chain of linked nodes that
    repeats none. *)
Lemma a_star_chain start goal blk l :
  a_star start goal blk = Ok (Some l) →
  chain linked l ∧ (in_graph start = true → Forall (fun n => in_graph n = true) l).
Proof.
  intros Hl. destruct (decide (is_Some (EDGES !! start))) as [Hin|Hout].
  - destruct (a_star_total start goal blk Hin) as [Hnone|(l' & Hsome & Hr)]; [congruence|].
    assert (l' = l) as -> by congruence. clear Hin Hl Hsome.
    pose proof (route_to_chain _ _ _ _ _ Hr) as Hc. split; [exact Hc|].
    intros Hs. eapply chain_linked_in_graph; [exact Hc| |exact Hs].
    exact (route_to_head _ _ _ _ _ _ Hr).
  - apply eq_None_not_Some in Hout.
    assert (∃ k, A_STAR_FUEL = S k) as [k Hk] by (eexists; reflexivity).
    unfold a_star in Hl. rewrite Hk in Hl.
    destruct (a_star_loop_outside EDGES start goal blk k l Hout Hl) as [_ ->].
    clear. split; [exact I|]. intros Hs. by constructor.
Qed.

Section corridor_geometry.
Context {B : Type} `{ChessBoard B}.

(** What [plan_corridor_path] returns is the image of a list of nodes
    [a_star] found. *)
Lemma plan_corridor_path_nodes (board : B) (src dst : Z) (path : list point) :
  plan_corridor_path board src dst = Ok path →
  ∃ l, a_star (TC, square_rank src, square_file src) (TC, square_rank dst, square_file dst)
         (blocked (board_occupied_rc board) (square_rank src) (square_file src)) = Ok (Some l)
       ∧ path = node_xy <$> l.
Proof.
  rewrite plan_corridor_path_unfold. intros (nodes & Ha & Hp)%bind_Ok.
  destruct nodes as [[|n l]|]; [discriminate| |discriminate].
  injection Hp as <-. by exists (n :: l).
Qed.

(** A corridor path moves along one axis at a time, half a square per
    waypoint: from a Center to the midpoint of one of its sides, from a
    midpoint to one of the two Centers beside it.  So it never cuts across a
    square, and it has an odd number of waypoints. *)
Theorem corridor_path_half_steps (board : B) (src dst : Z) (path : list point) :
  plan_corridor_path board src dst = Ok path →
  chain half_step path ∧ Nat.odd (length path) = true.
Proof.
  intros (l & Ha & ->)%plan_corridor_path_nodes.
  destruct (a_star_chain _ _ _ _ Ha) as [Hc _].
  destruct (a_star_ends _ _ _ _ Ha) as [Hh Hl]. split.
  - eapply chain_fmap; [|exact Hc]. exact linked_half_step.
  - rewrite length_fmap. by rewrite (chain_linked_parity l _ _ Hc Hh Hl).
Qed.

(** A corridor path passes through no point twice, and so has at most as
    many waypoints as the graph has nodes. *)
Theorem corridor_path_simple (board : B) (src dst : Z) (path : list point) :
  plan_corridor_path board src dst = Ok path →
  (∀ i j p q, path !! i = Some p → path !! j = Some q → pt_eq p q → i = j)
  ∧ (length path ≤ 176)%nat.
Proof.
  intros (l & Ha & ->)%plan_corridor_path_nodes.
  destruct (a_star_simple _ _ _ _ Ha) as [Hnd Hlen].
  destruct (a_star_chain _ _ _ _ Ha) as [Hc Hg].
  split; [|by rewrite length_fmap].
  intros i j p q Hi Hj Hpq.
  apply list_lookup_fmap_Some in Hi as (n & -> & Hn).
  apply list_lookup_fmap_Some in Hj as (m & -> & Hm).
  destruct (decide (in_graph (TC, square_rank src, square_file src) = true)) as [Hs|Hs].
  - specialize (Hg Hs). rewrite Forall_forall in Hg.
    assert (n = m) as <-.
    { apply node_xy_inj; [| |exact Hpq]; apply Hg; by eapply list_elem_of_lookup_2. }
    by eapply NoDup_lookup.
  - assert (EDGES !! (TC, square_rank src, square_file src) = None) as Hout.
    { destruct (EDGES !! _) as [s|] eqn:Hs'; [|reflexivity].
      destruct Hs. exact (proj1 (EDGES_on_grid _ _ Hs')). }
    assert (∃ k, A_STAR_FUEL = S k) as [k Hk] by (eexists; reflexivity).
    unfold a_star in Ha. rewrite Hk in Ha.
    destruct (a_star_loop_outside EDGES _ _ _ k l Hout Ha) as [_ ->].
    clear -Hn Hm. destruct i, j; done.
Qed.
End corridor_geometry.

Lemma corridor_path_half_steps_witness :
  chain half_step
    (node_xy <$> [(TC, 0, 1); (TH, 0, 1); (TC, 0, 2); (TV, 0, 2); (TC, 1, 2);
                  (TV, 1, 2); (TC, 2, 2)])
  ∧ Nat.odd 7 = true.
Proof.
  apply (corridor_path_half_steps walled_board 1 18). vm_compute. reflexivity.
Defined.

Lemma corridor_path_simple_witness :
  (∀ i j p q,
     (node_xy <$> [(TC, 0, 1); (TH, 0, 1); (TC, 0, 2); (TV, 0, 2); (TC, 1, 2);
                   (TV, 1, 2); (TC, 2, 2)]) !! i = Some p →
     (node_xy <$> [(TC, 0, 1); (TH, 0, 1); (TC, 0, 2); (TV, 0, 2); (TC, 1, 2);
                   (TV, 1, 2); (TC, 2, 2)]) !! j = Some q →
     pt_eq p q → i = j)
  ∧ (7 ≤ 176)%nat.
Proof.
  apply (corridor_path_simple walled_board 1 18). vm_compute. reflexivity.
Defined.

(** ** The planner at and beyond the edge of the board *)

Lemma square_on_board sq :
  in_graph (TC, square_rank sq, square_file sq) = true ↔ 0 ≤ sq < 64.
Proof.
  rewrite in_graph_C, square_rank_div. pose proof (square_file_range sq).
  split.
  - intros [Hr _]. pose proof (Z.div_mod sq 8 ltac:(lia)). pose proof (Z.mod_pos_bound sq 8). lia.
  - intros Hsq. split; [|done]. split; [apply Z.div_pos; lia|apply Z.div_lt_upper_bound; lia].
Qed.

Lemma off_graph_lookup n : in_graph n = false → EDGES !! n = None.
Proof.
  intros Hn. destruct (EDGES !! n) as [s|] eqn:Hs; [|reflexivity].
  pose proof (proj1 (EDGES_on_grid n s Hs)) as Hg. clear Hs. congruence.
Qed.

Lemma on_graph_lookup n : in_graph n = true → is_Some (EDGES !! n).
Proof. intros Hn. destruct (EDGES_of_grid n Hn) as (s & Hs & _). exists s. exact Hs. Qed.

(** Asked for a route from a node to itself, [a_star] answers at once. *)
Lemma a_star_same n blk : a_star n n blk = Ok (Some [n]).
Proof.
  unfold a_star. assert (∃ k, A_STAR_FUEL = S (S k)) as [k Hk] by (eexists; reflexivity).
  rewrite Hk. cbn [a_star_loop heappush heappop openh came gsc].
  rewrite bool_decide_eq_true_2 by reflexivity. rewrite Hk.
  cbn [walk_back]. unfold getitem. rewrite lookup_singleton_eq. cbn [mbind res_bind].
  reflexivity.
Qed.

(** A start off the graph that is not the goal: [EDGES[cur]] raises. *)
Lemma a_star_off_graph start goal blk :
  in_graph start = false → start ≠ goal → a_star start goal blk = Raise KeyError.
Proof.
  intros Hs%off_graph_lookup Hne. unfold a_star.
  assert (∃ k, A_STAR_FUEL = S k) as [k Hk] by (eexists; reflexivity).
  rewrite Hk. cbn [a_star_loop heappush heappop openh came gsc].
  rewrite bool_decide_eq_false_2 by exact Hne.
  unfold getitem. rewrite Hs. reflexivity.
Qed.

(** No route leads to a node off the graph, the start apart. *)
Lemma route_to_in_graph start goal blk n l :
  route_to EDGES start goal blk n l → n = start ∨ in_graph n = true.
Proof.
  induction 1 as [|p n l Hr IH [Hlink _]]; [by left|].
  apply EDGES_link in Hlink as (_ & Hn & _). by right.
Qed.

Lemma a_star_goal_off_graph start goal blk :
  in_graph start = true → in_graph goal = false → a_star start goal blk = Ok None.
Proof.
  intros Hs Hg.
  destruct (a_star_total start goal blk (on_graph_lookup _ Hs)) as [Hnone|(l & _ & Hr)];
    [exact Hnone|].
  exfalso. apply route_to_in_graph in Hr as [->|Hin]; congruence.
Qed.

(** All [a_star] ever raises is [KeyError], and it always ends. *)
Lemma a_star_outcome start goal blk :
  (∃ r, a_star start goal blk = Ok r) ∨ a_star start goal blk = Raise KeyError.
Proof.
  destruct (in_graph start) eqn:Hs.
  - left. destruct (a_star_total start goal blk (on_graph_lookup _ Hs)) as [->|(l & -> & _)];
      by eexists.
  - destruct (decide (start = goal)) as [->|Hne].
    + left. rewrite a_star_same. by eexists.
    + right. by apply a_star_off_graph.
Qed.

Section planner_bounds.
Context {B : Type} `{ChessBoard B}.

(** [plan_corridor_path] at the edges of its domain.  From a square to
    itself the path is that square's centre alone, whatever the square and
    whatever stands on it.  A source that is no square of the board raises
    [KeyError]; a destination that is none raises [RuntimeError "No corridor
    path found."], as an unreachable square does. *)
Theorem plan_corridor_path_bounds (board : B) (src dst : Z) :
  plan_corridor_path board src src = Ok [rc_to_center_xy (square_rank src) (square_file src)]
  ∧ (¬ 0 ≤ src < 64 → dst ≠ src → plan_corridor_path board src dst = Raise KeyError)
  ∧ (0 ≤ src < 64 → ¬ 0 ≤ dst < 64 →
     plan_corridor_path board src dst = Raise no_corridor_path).
Proof.
  split; [|split].
  - rewrite plan_corridor_path_unfold, a_star_same. reflexivity.
  - intros Hsrc Hne. rewrite plan_corridor_path_unfold, a_star_off_graph; [reflexivity| |].
    + apply not_true_is_false. by rewrite square_on_board.
    + intros [= Hr Hf]. apply Hne. symmetry. apply sq_to_rc_inj. unfold sq_to_rc. congruence.
  - intros Hsrc Hdst. rewrite plan_corridor_path_unfold, a_star_goal_off_graph; [reflexivity| |].
    + by apply square_on_board.
    + apply not_true_is_false. by rewrite square_on_board.
Qed.
End planner_bounds.

Lemma plan_corridor_path_bounds_witness :
  plan_corridor_path walled_board 0 0 = Ok [rc_to_center_xy 0 0]
  ∧ plan_corridor_path walled_board 64 0 = Raise KeyError
  ∧ plan_corridor_path walled_board 1 64 = Raise no_corridor_path.
Proof.
  split; [|split].
  - exact (proj1 (plan_corridor_path_bounds walled_board 0 0)).
  - apply (plan_corridor_path_bounds walled_board 64 0); lia.
  - apply (plan_corridor_path_bounds walled_board 1 64); lia.
Defined.

(** ** A piece hemmed in along its rank and file *)

Section hemmed_in.
Context {B : Type} `{ChessBoard B}.

Lemma blocked_spec (occ : gset (Z * Z)) rs cs r c :
  blocked occ rs cs r c = true ↔ (r, c) ∈ occ ∧ (r, c) ≠ (rs, cs).
Proof.
  unfold blocked. rewrite andb_true_iff, negb_true_iff, andb_false_iff,
    bool_decide_eq_true, !bool_decide_eq_false.
  split; intros [Ho Hne]; (split; [exact Ho|]).
  - intros [= -> ->]. destruct Hne; congruence.
  - destruct (decide (r = rs)) as [->|]; [|by left]. right. congruence.
Qed.

(** A piece whose neighbours along its rank and its file are all occupied
    cannot be routed to any square but these (or its own): every corridor out
    of its square ends on an occupied Center.  A bishop or a queen behind
    its own pawns is planned no move. *)
Theorem hemmed_in_piece_has_no_path (board : B) (src dst : Z) :
  0 ≤ src < 64 →
  (∀ rc, rc ∈ orthogonal (square_rank src) (square_file src) → on_board rc →
         rc ∈ board_occupied_rc board) →
  sq_to_rc dst ∉ orthogonal (square_rank src) (square_file src) →
  dst ≠ src →
  plan_corridor_path board src dst = Raise no_corridor_path.
Proof.
  intros Hsrc Hocc Hdst Hne. rewrite plan_corridor_path_unfold.
  set (rs := square_rank src) in *. set (cs := square_file src) in *.
  set (start := (TC, rs, cs)). set (goal := (TC, square_rank dst, square_file dst)).
  set (blk := blocked (board_occupied_rc board) rs cs).
  assert (in_graph start = true) as Hs by (by apply square_on_board).
  assert (∀ n l, route_to EDGES start goal blk n l → n = start ∨ n ∈ flank start) as Hreg.
  { intros n l Hr. induction Hr as [|p n l Hr IH [Hlink Hpass]]; [by left|].
    apply EDGES_link in Hlink as (Hp & Hn & Hf).
    destruct IH as [->|Hpf]; [by right|]. left.
    assert (ntag n = TC ∧ (n = start ∨ (nrow n, ncol n) ∈ orthogonal rs cs)) as [Ht Hcase].
    { unfold start in Hpf. cbn [flank] in Hpf. unfold orthogonal.
      rewrite !elem_of_cons, elem_of_nil in Hpf.
      destruct Hpf as [->|[->|[->|[->|[]]]]]; cbn [flank] in Hf;
        rewrite !elem_of_cons, elem_of_nil in Hf; destruct Hf as [->|[->|[]]];
        (split; [reflexivity|]); cbn [nrow ncol fst snd]; rewrite !elem_of_cons.
      all: first [ left; unfold start; repeat f_equal; lia
                 | right; left; repeat f_equal; lia
                 | right; right; left; repeat f_equal; lia
                 | right; right; right; left; repeat f_equal; lia
                 | right; right; right; right; left; repeat f_equal; lia ]. }
    destruct Hcase as [Hst|Horth]; [exact Hst|]. exfalso.
    destruct n as [[t r] c]. cbn [ntag nrow ncol fst snd] in *. subst t.
    assert ((TC, r, c) = goal) as Hg.
    { apply Hpass; [reflexivity|]. apply blocked_spec. split.
      - apply Hocc; [exact Horth|]. by apply in_graph_C.
      - intros [= -> ->]. unfold orthogonal in Horth. rewrite !elem_of_cons, elem_of_nil in Horth.
        destruct Horth as [[=]|[[=]|[[=]|[[=]|[]]]]]; lia. }
    injection Hg as -> ->. apply Hdst. exact Horth. }
  destruct (a_star_total start goal blk (on_graph_lookup _ Hs)) as [->|(l & _ & Hr)];
    [reflexivity|].
  exfalso. destruct (Hreg _ _ Hr) as [Heq|Hf].
  - injection Heq as Hr' Hf'. apply Hne. apply sq_to_rc_inj. unfold sq_to_rc.
    subst rs cs. congruence.
  - unfold start, goal in Hf. cbn [flank] in Hf. rewrite !elem_of_cons, elem_of_nil in Hf.
    destruct Hf as [[=]|[[=]|[[=]|[[=]|[]]]]].
Qed.
End hemmed_in.

Lemma hemmed_in_piece_has_no_path_witness :
  plan_corridor_path walled_board 0 63 = Raise no_corridor_path.
Proof.
  apply (hemmed_in_piece_has_no_path walled_board 0 63); [lia| | |lia].
  - intros rc Hrc Hon. apply elem_of_board_occupied_rc.
    change (orthogonal (square_rank 0) (square_file 0)) with [(0, -1); (0, 1); (-1, 0); (1, 0)] in Hrc.
    rewrite !elem_of_cons, elem_of_nil in Hrc. unfold on_board in Hon.
    destruct Hrc as [->|[->|[->|[->|[]]]]]; cbn in Hon; try lia.
    + exists 1. split; [lia|]. split; [by eexists|reflexivity].
    + exists 8. split; [lia|]. split; [by eexists|reflexivity].
  - change (sq_to_rc 63) with (7, 7).
    change (orthogonal (square_rank 0) (square_file 0)) with [(0, -1); (0, 1); (-1, 0); (1, 0)].
    rewrite !elem_of_cons, elem_of_nil. intros [[=]|[[=]|[[=]|[[=]|[]]]]].
Defined.

(** ** The open board *)

(** The search looks at the blocked predicate through [skipped] alone. *)
Lemma a_star_loop_ext edges fuel goal blk blk' st :
  (∀ nb, skipped goal blk nb = skipped goal blk' nb) →
  a_star_loop edges fuel goal blk st = a_star_loop edges fuel goal blk' st.
Proof.
  intros Hext. revert st. induction fuel as [|fuel IH]; intros st; [reflexivity|].
  cbn [a_star_loop]. destruct (heappop (openh st)) as [[[f cur] rest]|]; [|reflexivity].
  destruct (bool_decide (cur = goal)); [reflexivity|].
  destruct (getitem edges cur) as [nbs| |]; cbn [mbind res_bind]; [|reflexivity..].
  assert (∀ l s, for_each (relax goal blk cur) l s = for_each (relax goal blk' cur) l s) as ->.
  { induction l as [|nb l IHl]; intros s; [reflexivity|]. cbn [for_each].
    rewrite !relax_unfold, Hext. destruct (skipped goal blk' nb); cbn [mbind res_bind].
    - apply IHl.
    - destruct (gsc s !! cur) as [g|]; [|reflexivity].
      destruct (_ <? _); cbn [mbind res_bind]; apply IHl. }
  destruct (for_each _ _ _) as [st'| |]; cbn [mbind res_bind]; [|reflexivity..].
  apply IH.
Qed.

Lemma a_star_ext start goal blk blk' :
  (∀ nb, skipped goal blk nb = skipped goal blk' nb) →
  a_star start goal blk = a_star start goal blk'.
Proof. intros Hext. unfold a_star. by apply a_star_loop_ext. Qed.

Lemma direct_from_all : forallb (fun rs => forallb (fun cs => direct_from rs cs) (range 8)) (range 8) = true.
Proof. vm_compute. reflexivity. Qed.

Lemma a_star_open_board rs cs rd cd :
  0 ≤ rs < 8 → 0 ≤ cs < 8 → 0 ≤ rd < 8 → 0 ≤ cd < 8 →
  ∃ l, a_star (TC, rs, cs) (TC, rd, cd) open_blk = Ok (Some l)
       ∧ Z.of_nat (length l) = direct_length rs cs rd cd.
Proof.
  intros Hrs Hcs Hrd Hcd. pose proof direct_from_all as Hall.
  rewrite forallb_forall in Hall.
  specialize (Hall rs ltac:(apply list_elem_of_In, elem_of_range; lia)).
  rewrite forallb_forall in Hall.
  specialize (Hall cs ltac:(apply list_elem_of_In, elem_of_range; lia)).
  unfold direct_from in Hall. rewrite forallb_forall in Hall.
  specialize (Hall rd ltac:(apply list_elem_of_In, elem_of_range; lia)).
  rewrite forallb_forall in Hall.
  specialize (Hall cd ltac:(apply list_elem_of_In, elem_of_range; lia)).
  destruct (a_star _ _ _) as [[l|]| |]; try discriminate.
  exists l. split; [reflexivity|]. by apply Z.eqb_eq.
Qed.

Lemma linked_half_grid n m :
  linked n m →
  Z.abs ((half_grid n).1 - (half_grid m).1) + Z.abs ((half_grid n).2 - (half_grid m).2) = 1.
Proof.
  intros (_ & _ & Hf). destruct n as [[[] r] c]; cbn [flank] in Hf.
  all: rewrite !elem_of_cons, elem_of_nil in Hf.
  all: repeat (destruct Hf as [Hf|Hf]); try done; subst m; cbn; lia.
Qed.

(** A chain of linked nodes is at least as long as its ends are apart. *)
Lemma chain_linked_length l a b :
  chain linked l → head l = Some a → last l = Some b →
  Z.abs ((half_grid a).1 - (half_grid b).1) + Z.abs ((half_grid a).2 - (half_grid b).2) + 1
  ≤ Z.of_nat (length l).
Proof.
  revert a. induction l as [|x [|y l] IH]; intros a Hc Hh Hl; [done| |].
  - assert (a = x) as -> by (cbn in Hh; congruence).
    assert (b = x) as -> by (cbn in Hl; congruence). cbn. lia.
  - assert (a = x) as -> by (cbn in Hh; congruence). destruct Hc as [Hxy Hc].
    pose proof (IH y Hc eq_refl Hl) as IHy. pose proof (linked_half_grid _ _ Hxy) as Hstep.
    change (length (x :: y :: l)) with (S (length (y :: l))). lia.
Qed.

Lemma skipped_open goal nb : skipped goal open_blk nb = false.
Proof. unfold skipped, open_blk. apply andb_false_r. Qed.

Lemma skipped_false goal blk nb :
  (ntag nb = TC → blk (nrow nb) (ncol nb) = true → nb = goal) → skipped goal blk nb = false.
Proof.
  intros Hp. unfold skipped. apply andb_false_iff.
  destruct (decide (ntag nb = TC)) as [Ht|Ht]; [right|left; by apply bool_decide_eq_false_2].
  apply andb_false_iff.
  destruct (blk (nrow nb) (ncol nb)) eqn:Hb; [right|left; reflexivity].
  apply negb_false_iff, bool_decide_eq_true_2. by apply Hp.
Qed.

Section open_board.
Context {B : Type} `{ChessBoard B}.

Lemma open_board_blocked (board : B) (src dst : Z) r c :
  (∀ sq, 0 ≤ sq < 64 → is_Some (piece_at board sq) → sq = src ∨ sq = dst) →
  blocked (board_occupied_rc board) (square_rank src) (square_file src) r c = true →
  (TC, r, c) = (TC, square_rank dst, square_file dst).
Proof.
  intros Hocc Hb.
  apply blocked_spec in Hb as [(sq & Hsq & Hp & Hrc)%elem_of_board_occupied_rc Hne].
  destruct (Hocc sq Hsq Hp) as [->| ->].
  - destruct Hne. by rewrite <- Hrc.
  - unfold sq_to_rc in Hrc. congruence.
Qed.

Lemma open_board_a_star (board : B) (src dst : Z) :
  0 ≤ src < 64 → 0 ≤ dst < 64 →
  (∀ sq, 0 ≤ sq < 64 → is_Some (piece_at board sq) → sq = src ∨ sq = dst) →
  ∃ l, a_star (TC, square_rank src, square_file src) (TC, square_rank dst, square_file dst)
         (blocked (board_occupied_rc board) (square_rank src) (square_file src)) = Ok (Some l)
       ∧ Z.of_nat (length l) =
         direct_length (square_rank src) (square_file src) (square_rank dst) (square_file dst).
Proof.
  intros Hsrc Hdst Hocc.
  pose proof (proj2 (square_on_board src) Hsrc) as Hs%in_graph_C.
  pose proof (proj2 (square_on_board dst) Hdst) as Hg%in_graph_C.
  destruct (a_star_open_board (square_rank src) (square_file src)
              (square_rank dst) (square_file dst)) as (l & Hl & Hlen); try tauto.
  exists l. split; [|exact Hlen]. rewrite <- Hl. apply a_star_ext.
  intros nb. rewrite skipped_open. apply skipped_false.
  destruct nb as [[t r] c]. cbn [ntag nrow ncol fst snd]. intros -> Hb.
  by eapply open_board_blocked.
Qed.

(** On a board where nothing stands but on the source and the destination,
    every move is planned, and along a shortest corridor route: two
    waypoints for each square crossed, and no corridor route between the two
    Centers has fewer. *)
Theorem open_board_path_is_direct (board : B) (src dst : Z) :
  0 ≤ src < 64 → 0 ≤ dst < 64 →
  (∀ sq, 0 ≤ sq < 64 → is_Some (piece_at board sq) → sq = src ∨ sq = dst) →
  let start := (TC, square_rank src, square_file src) in
  let goal := (TC, square_rank dst, square_file dst) in
  ∃ path,
    plan_corridor_path board src dst = Ok path
    ∧ Z.of_nat (length path) =
        direct_length (square_rank src) (square_file src) (square_rank dst) (square_file dst)
    ∧ ∀ blk l, route_to EDGES start goal blk goal l → (length path ≤ length l)%nat.
Proof.
  intros Hsrc Hdst Hocc start goal.
  destruct (open_board_a_star board src dst Hsrc Hdst Hocc) as (l & Ha & Hlen).
  exists (node_xy <$> l). rewrite plan_corridor_path_unfold, Ha.
  destruct l as [|n l]; [unfold direct_length in Hlen; cbn [length] in Hlen; lia|].
  split; [reflexivity|]. split.
  - by rewrite length_fmap.
  - intros blk l' Hr. rewrite length_fmap.
    pose proof (chain_linked_length l' start goal (route_to_chain _ _ _ _ _ Hr)
                  (route_to_head _ _ _ _ _ _ Hr) (route_to_last _ _ _ _ _ _ Hr)) as Hlow.
    unfold direct_length in Hlen. unfold start, goal in Hlow. cbn [half_grid fst snd] in Hlow.
    lia.
Qed.
End open_board.

Lemma open_board_path_is_direct_witness :
  ∃ path,
    plan_corridor_path knight_board 1 18 = Ok path
    ∧ Z.of_nat (length path) = direct_length 0 1 2 2
    ∧ ∀ blk l, route_to EDGES (TC, 0, 1) (TC, 2, 2) blk (TC, 2, 2) l →
        (length path ≤ length l)%nat.
Proof.
  apply (open_board_path_is_direct knight_board 1 18); [lia|lia|].
  intros sq Hsq [p Hp]. left.
  change (piece_at knight_board sq) with (({[1 := white KNIGHT]} : gmap Z Piece) !! sq) in Hp.
  by apply lookup_singleton_Some in Hp as [<- _].
Defined.

(** ** The node nearest to a point *)

Lemma nearest_node_to_xy_fold order xy :
  nearest_node_to_xy order xy = (foldl (nearer xy) (None, Zq (10 ^ 18)) order).1.
Proof.
  unfold nearest_node_to_xy. f_equal. generalize (None : option node, Zq (10 ^ 18)).
  induction order as [|n order IH]; intros acc; [reflexivity|]. cbn [foldl].
  rewrite <- IH. f_equal. destruct acc as [best bestd].
  unfold nearer, node_distance. cbn [fst snd]. by destruct (node_xy n).
Qed.

Lemma nearer_fold xy order acc :
  let res := foldl (nearer xy) acc order in
  (∀ n, n ∈ order → res.2 <= node_distance xy n)%Q
  ∧ (res = acc
     ∨ ∃ n, n ∈ order ∧ res = (Some n, node_distance xy n) ∧ (node_distance xy n < acc.2)%Q).
Proof.
  revert acc. induction order as [|m order IH]; intros acc; cbn [foldl].
  { split; [by intros n ?%elem_of_nil|by left]. }
  destruct (IH (nearer xy acc m)) as [Hmin Hres]. cbv zeta.
  set (res := foldl (nearer xy) (nearer xy acc m) order) in *.
  assert (res.2 <= (nearer xy acc m).2)%Q as Hle.
  { destruct Hres as [->|(n & _ & -> & Hlt)]; [apply Qle_refl|]. cbn [snd]. by apply Qlt_le_weak. }
  split.
  - intros n [->|Hn]%elem_of_cons; [|by apply Hmin].
    eapply Qle_trans; [exact Hle|]. unfold nearer.
    destruct (Qlt_le_dec _ _) as [Hlt|Hge]; cbn [snd]; [apply Qle_refl|exact Hge].
  - destruct Hres as [Hres|(n & Hn & Hres & Hlt)].
    + rewrite Hres. unfold nearer. destruct (Qlt_le_dec _ _) as [Hlt|Hge]; [|by left].
      right. exists m. split; [by left|]. by split.
    + right. exists n. split; [by right|]. split; [exact Hres|].
      eapply Qlt_le_trans; [exact Hlt|]. unfold nearer.
      destruct (Qlt_le_dec _ _) as [Hlt'|Hge]; cbn [snd]; [by apply Qlt_le_weak|apply Qle_refl].
Qed.

Lemma nearest_spec (order : list node) (xy : point) :
  match nearest_node_to_xy order xy with
  | Some n =>
      n ∈ order ∧ (node_distance xy n < Zq (10 ^ 18))%Q
      ∧ ∀ m, m ∈ order → (node_distance xy n <= node_distance xy m)%Q
  | None => ∀ m, m ∈ order → (Zq (10 ^ 18) <= node_distance xy m)%Q
  end.
Proof.
  rewrite nearest_node_to_xy_fold.
  destruct (nearer_fold xy order (None, Zq (10 ^ 18))) as [Hmin Hres]. cbv zeta in *.
  destruct Hres as [Hres|(n & Hn & Hres & Hlt)]; rewrite Hres in *; cbn [fst snd] in *.
  - exact Hmin.
  - split; [exact Hn|]. split; [exact Hlt|exact Hmin].
Qed.

Lemma node_distance_self n : (node_distance (node_xy n) n == 0)%Q.
Proof.
  unfold node_distance.
  assert (∀ a : Q, (Qabs (a - a) == 0)%Q) as Hz.
  { intros a. assert (a - a == 0)%Q as -> by ring. reflexivity. }
  rewrite !Hz. reflexivity.
Qed.

Lemma node_distance_zero n m : (node_distance (node_xy m) n <= 0)%Q → pt_eq (node_xy n) (node_xy m).
Proof.
  unfold node_distance, pt_eq. intros Hle.
  pose proof (Qabs_nonneg ((node_xy n).1 - (node_xy m).1)) as H1.
  pose proof (Qabs_nonneg ((node_xy n).2 - (node_xy m).2)) as H2.
  assert (Qabs ((node_xy n).1 - (node_xy m).1) <= 0)%Q as Hx by lra.
  assert (Qabs ((node_xy n).2 - (node_xy m).2) <= 0)%Q as Hy by lra.
  apply Qabs_Qle_condition in Hx, Hy. split; lra.
Qed.

Lemma nearest_node_to_xy_of_node_aux (order : list node) (n : node) :
  (∀ m, m ∈ order → in_graph m = true) → n ∈ order →
  nearest_node_to_xy order (node_xy n) = Some n.
Proof.
  intros Hall Hn.
  pose proof (nearest_spec order (node_xy n)) as Hspec.
  pose proof (node_distance_self n) as Hz.
  destruct (nearest_node_to_xy order (node_xy n)) as [m|].
  - destruct Hspec as (Hm & _ & Hmin). f_equal.
    apply node_xy_inj; [by apply Hall|by apply Hall|].
    apply node_distance_zero. rewrite <- Hz. by apply Hmin.
  - exfalso. specialize (Hspec n Hn). rewrite Hz in Hspec.
    assert (Zq (10 ^ 18) <= 0)%Q as Habs by exact Hspec. vm_compute in Habs. by apply Habs.
Qed.

Lemma node_xy_span n :
  in_graph n = true →
  (0 <= (node_xy n).1 ∧ (node_xy n).1 <= 640 ∧ 0 <= (node_xy n).2 ∧ (node_xy n).2 <= 640)%Q.
Proof.
  intros Hn. apply elem_of_all_nodes in Hn.
  assert (forallb (fun n => Qle_bool 0 (node_xy n).1 && Qle_bool (node_xy n).1 640
                            && Qle_bool 0 (node_xy n).2 && Qle_bool (node_xy n).2 640)
            all_nodes = true) as Hall by (vm_compute; reflexivity).
  rewrite forallb_forall in Hall. apply list_elem_of_In in Hn. specialize (Hall n Hn).
  rewrite !andb_true_iff, !Qle_bool_iff in Hall. tauto.
Qed.

(** A point with whole pixel coordinates is far from no node of the graph. *)
Lemma pixel_near_graph (x y : Z) n :
  Z.abs x ≤ 2 ^ 31 → Z.abs y ≤ 2 ^ 31 → in_graph n = true →
  Qlt (node_distance (Zq x, Zq y) n) (Zq (10 ^ 18)).
Proof.
  intros Hx Hy Hn. destruct (node_xy_span n Hn) as (H1 & H2 & H3 & H4).
  unfold node_distance. cbn [fst snd].
  assert (- Zq (2 ^ 31) <= Zq x ∧ Zq x <= Zq (2 ^ 31))%Q as [Hx1 Hx2].
  { unfold Zq. rewrite <- inject_Z_opp, <- !Zle_Qle. lia. }
  assert (- Zq (2 ^ 31) <= Zq y ∧ Zq y <= Zq (2 ^ 31))%Q as [Hy1 Hy2].
  { unfold Zq. rewrite <- inject_Z_opp, <- !Zle_Qle. lia. }
  assert (Zq (2 ^ 31) == 2147483648)%Q as E1 by reflexivity.
  assert (Zq (10 ^ 18) == 1000000000000000000)%Q as E2 by reflexivity.
  rewrite E1 in *. rewrite E2.
  assert (Qabs ((node_xy n).1 - Zq x) <= 640 + 2147483648)%Q as Ha
    by (apply Qabs_Qle_condition; split; lra).
  assert (Qabs ((node_xy n).2 - Zq y) <= 640 + 2147483648)%Q as Hb
    by (apply Qabs_Qle_condition; split; lra).
  lra.
Qed.

(** At a point with whole pixel coordinates (below [2^31], so that the
    code's floating-point distances are exact) [nearest_node_to_xy] returns
    a node of least Manhattan distance among those it walks, and [None]
    only when it walks none.  A node's own coordinates lead back to the
    node, in whatever order the nodes of the graph are walked. *)
Theorem nearest_node_to_xy_is_nearest (order : list node) (x y : Z) :
  (∀ m, m ∈ order → in_graph m = true) →
  Z.abs x ≤ 2 ^ 31 → Z.abs y ≤ 2 ^ 31 →
  match nearest_node_to_xy order (Zq x, Zq y) with
  | Some n =>
      n ∈ order
      ∧ ∀ m, m ∈ order → (node_distance (Zq x, Zq y) n <= node_distance (Zq x, Zq y) m)%Q
  | None => order = []
  end
  ∧ ∀ n, n ∈ order → nearest_node_to_xy order (node_xy n) = Some n.
Proof.
  intros Hall Hx Hy. split.
  - pose proof (nearest_spec order (Zq x, Zq y)) as Hspec.
    destruct (nearest_node_to_xy order (Zq x, Zq y)) as [n|].
    + destruct Hspec as (Hn & _ & Hmin). by split.
    + destruct order as [|m order]; [reflexivity|]. exfalso.
      assert (m ∈ m :: order) as Hm by (apply elem_of_cons; by left).
      apply (Qlt_not_le _ _ (pixel_near_graph x y m Hx Hy (Hall m Hm))), Hspec, Hm.
  - intros n. by apply nearest_node_to_xy_of_node_aux.
Qed.

Lemma elements_NODES_in_graph m : m ∈ elements NODES ↔ in_graph m = true.
Proof.
  rewrite elem_of_elements, <- EDGES_dom, elem_of_dom. split.
  - intros [s Hs]. exact (proj1 (EDGES_on_grid m s Hs)).
  - apply on_graph_lookup.
Qed.

Lemma nearest_node_to_xy_is_nearest_witness :
  match nearest_node_to_xy (elements NODES) (Zq 100, Zq 300) with
  | Some n =>
      n ∈ elements NODES
      ∧ ∀ m, m ∈ elements NODES →
             (node_distance (Zq 100, Zq 300) n <= node_distance (Zq 100, Zq 300) m)%Q
  | None => elements NODES = []
  end
  ∧ ∀ n, n ∈ elements NODES → nearest_node_to_xy (elements NODES) (node_xy n) = Some n.
Proof.
  apply (nearest_node_to_xy_is_nearest (elements NODES) 100 300).
  - intros m Hm. by apply elements_NODES_in_graph.
  - vm_compute. discriminate.
  - vm_compute. discriminate.
Defined.

(** ** Routes between points, and the way back after a capture *)

Section point_routes.
Context {B : Type} `{ChessBoard B}.

Lemma corridor_between_points_nodes (order : list node) (board : B)
    (xy_start xy_end : point) (path : list point) :
  corridor_between_points order board xy_start xy_end = Ok path →
  ∃ start goal,
    nearest_node_to_xy order xy_start = Some start
    ∧ nearest_node_to_xy order xy_end = Some goal
    ∧ head path = Some (node_xy start)
    ∧ last path = Some (node_xy goal)
    ∧ chain half_step path.
Proof.
  unfold corridor_between_points.
  destruct (nearest_node_to_xy order xy_start) as [start|]; [|discriminate].
  destruct (nearest_node_to_xy order xy_end) as [goal|]; [|discriminate].
  intros (nodes & Ha & Hp)%bind_Ok.
  destruct nodes as [[|n l]|]; [discriminate| |discriminate].
  injection Hp as <-. exists start, goal.
  destruct (a_star_ends _ _ _ _ Ha) as [Hh Hl].
  destruct (a_star_chain _ _ _ _ Ha) as [Hc _]. clear Ha.
  split; [reflexivity|]. split; [reflexivity|]. split; [|split].
  - cbn in Hh. injection Hh as ->. reflexivity.
  - change (last (node_xy <$> n :: l) = Some (node_xy goal)). by rewrite fmap_last, Hl.
  - change (chain half_step (node_xy <$> n :: l)).
    eapply chain_fmap; [|exact Hc]. exact linked_half_step.
Qed.

(** [corridor_between_points] routes between the nodes nearest to its two
    points: the path begins and ends on those nodes, not on the points. *)
Theorem corridor_between_points_ends (order : list node) (board : B)
    (xy_start xy_end : point) (path : list point) :
  corridor_between_points order board xy_start xy_end = Ok path →
  ∃ start goal,
    nearest_node_to_xy order xy_start = Some start
    ∧ nearest_node_to_xy order xy_end = Some goal
    ∧ head path = Some (node_xy start)
    ∧ last path = Some (node_xy goal)
    ∧ chain half_step path.
Proof.
  exact (corridor_between_points_nodes order board xy_start xy_end path).
Qed.

Lemma plan_knight_route_head (board : B) (move : Move) (pts : list point) :
  plan_knight_route_on_lines board move = Ok pts →
  head pts =
    Some (rc_to_center_xy (square_rank (from_square move)) (square_file (from_square move))).
Proof.
  unfold plan_knight_route_on_lines.
  cbv beta iota zeta delta [sq_to_rc rc_to_center_xy].
  destruct (_ && _); [by intros [= <-]|].
  destruct (_ && _); [by intros [= <-]|].
  intros Hp. by apply plan_corridor_path_ends in Hp as [Hh _].
Qed.

(** The fifth and sixth segments of a capture plan, and the calls that
    made them. *)
Lemma plan_capture_sequence_legs order gy (board : B) (move : Move) segs col gxy :
  plan_capture_sequence order gy board move = Ok (segs, col, gxy) →
  let src := from_square move in
  let cap_sq :=
    if is_en_passant board move
    then square (square_file (to_square move)) (square_rank src)
    else to_square move in
  let temp := remove_piece_at board cap_sq in
  ∃ path_back path_src_to_dst,
    segs !! 4%nat = Some {| waypoints := path_back; magnet_on := false |}
    ∧ segs !! 5%nat = Some {| waypoints := path_src_to_dst; magnet_on := true |}
    ∧ corridor_between_points order temp gxy
        (rc_to_center_xy (square_rank src) (square_file src)) = Ok path_back
    ∧ (if is_knight (piece_at board src)
       then plan_knight_route_on_lines temp move
       else plan_corridor_path temp src (to_square move)) = Ok path_src_to_dst.
Proof.
  intros Hplan src cap_sq temp. unfold plan_capture_sequence in Hplan.
  fold src cap_sq temp in Hplan.
  apply bind_Ok in Hplan as (path_to_target & Hp1 & Hplan).
  destruct (is_nil path_to_target); [discriminate|].
  set (cap_xy := rc_to_center_xy (sq_to_rc cap_sq).1 (sq_to_rc cap_sq).2) in *.
  set (ccol := match piece_at board cap_sq with Some p => color p | None => WHITE end) in *.
  set (gxy0 := next_grave_xy gy ccol) in *.
  set (margin := if is_nil (plan_margin_escape_path cap_xy gxy0) then [cap_xy; gxy0]
                 else plan_margin_escape_path cap_xy gxy0) in *.
  apply bind_Ok in Hplan as (path_back & Hp5 & Hplan).
  apply bind_Ok in Hplan as (path_src_to_dst & Hp6 & Hplan).
  apply bind_Ok in Hplan as (e1 & _ & Hplan).
  apply bind_Ok in Hplan as (e3 & _ & Hplan).
  apply bind_Ok in Hplan as (e6 & _ & Hplan).
  injection Hplan as <- <- <-.
  exists path_back, path_src_to_dst.
  split; [reflexivity|]. split; [reflexivity|]. split; [exact Hp5|exact Hp6].
Qed.

(** After the captured piece is dropped, the fifth segment of a capture
    plan brings the magnet, switched off, back to the Center of the moving
    piece's square, where the sixth segment picks the piece up; the fifth
    segment begins on the node nearest to the slot. *)
Theorem capture_plan_returns_to_source (order : list node) (gy : graveyard) (board : B)
    (move : Move) (segs : list (segment point)) (col : bool) (gxy : point) :
  (∀ m, m ∈ order → in_graph m = true) →
  (TC, square_rank (from_square move), square_file (from_square move)) ∈ order →
  plan_capture_sequence order gy board move = Ok (segs, col, gxy) →
  let src_xy :=
    rc_to_center_xy (square_rank (from_square move)) (square_file (from_square move)) in
  ∃ s5 s6 near,
    segs !! 4%nat = Some s5 ∧ segs !! 5%nat = Some s6
    ∧ magnet_on s5 = false ∧ magnet_on s6 = true
    ∧ nearest_node_to_xy order gxy = Some near
    ∧ head (waypoints s5) = Some (node_xy near)
    ∧ last (waypoints s5) = Some src_xy
    ∧ head (waypoints s6) = Some src_xy.
Proof.
  intros Hall Hsrc Hplan src_xy.
  pose proof (plan_capture_sequence_legs _ _ _ _ _ _ _ Hplan) as Hlegs. cbv zeta in Hlegs.
  destruct Hlegs as (p5 & p6 & Hs5 & Hs6 & Hp5 & Hp6). clear Hplan.
  apply corridor_between_points_nodes in Hp5 as (near & goal & Hnear & Hgoal & Hh5 & Hl5 & _).
  change (rc_to_center_xy (square_rank (from_square move)) (square_file (from_square move)))
    with (node_xy (TC, square_rank (from_square move), square_file (from_square move)))
    in Hgoal.
  rewrite (nearest_node_to_xy_of_node_aux order _ Hall Hsrc) in Hgoal. injection Hgoal as <-.
  exists {| waypoints := p5; magnet_on := false |}, {| waypoints := p6; magnet_on := true |}, near.
  split; [exact Hs5|]. split; [exact Hs6|]. split; [reflexivity|]. split; [reflexivity|].
  split; [exact Hnear|]. split; [exact Hh5|]. split; [exact Hl5|].
  cbn [waypoints]. destruct (is_knight _).
  - by apply plan_knight_route_head in Hp6.
  - by apply plan_corridor_path_ends in Hp6 as [? _].
Qed.
(** What [corridor_between_points] raises.  A point [1e18] or more from
    every node has no nearest node, and [start[0]] raises [TypeError];
    between two nearest nodes, [RuntimeError "No path between points."] is
    raised exactly when no corridor route joins them, the Centers among the
    two being exempt from the occupancy. *)
Theorem corridor_between_points_raises (order : list node) (board : B)
    (xy_start xy_end : point) :
  (∀ m, m ∈ order → in_graph m = true) →
  match nearest_node_to_xy order xy_start, nearest_node_to_xy order xy_end with
  | Some start, Some goal =>
      let exempt : gset (Z * Z) :=
        (if bool_decide (ntag start = TC) then {[(nrow start, ncol start)]} else ∅)
        ∪ (if bool_decide (ntag goal = TC) then {[(nrow goal, ncol goal)]} else ∅) in
      let blk := blocked_exempt (board_occupied_rc board) exempt in
      (corridor_between_points order board xy_start xy_end = Raise no_path_between
       ↔ ∀ l, ¬ route_to EDGES start goal blk goal l)
      ∧ ((∃ l, route_to EDGES start goal blk goal l)
         → ∃ path, corridor_between_points order board xy_start xy_end = Ok path)
  | _, _ => corridor_between_points order board xy_start xy_end = Raise TypeError
  end.
Proof.
  intros Hall. unfold corridor_between_points.
  pose proof (nearest_spec order xy_start) as Hs.
  destruct (nearest_node_to_xy order xy_start) as [start|]; [|reflexivity].
  destruct (nearest_node_to_xy order xy_end) as [goal|]; [|reflexivity].
  destruct Hs as (Hs%Hall%on_graph_lookup & _). cbv zeta.
  assert ((if bool_decide (ntag goal = TC)
           then (if bool_decide (ntag start = TC)
                 then (∅ : gset (Z * Z)) ∪ {[(nrow start, ncol start)]} else ∅)
                ∪ {[(nrow goal, ncol goal)]}
           else (if bool_decide (ntag start = TC)
                 then (∅ : gset (Z * Z)) ∪ {[(nrow start, ncol start)]} else ∅))
          = (if bool_decide (ntag start = TC) then {[(nrow start, ncol start)]} else ∅)
            ∪ (if bool_decide (ntag goal = TC) then {[(nrow goal, ncol goal)]} else ∅)) as ->.
  { destruct (bool_decide (ntag start = TC)), (bool_decide (ntag goal = TC));
      by rewrite ?(left_id_L ∅ (∪)), ?(right_id_L ∅ (∪)). }
  set (blk := blocked_exempt _ _).
  destruct (a_star_total start goal blk Hs) as [Hnone|(l & Hsome & Hr)].
  - pose proof (a_star_complete start goal blk Hs Hnone) as Hno. rewrite Hnone.
    clear Hs Hnone. split.
    + split; [intros _; exact Hno|reflexivity].
    + intros [l Hl]. destruct (Hno l Hl).
  - rewrite Hsome. clear Hs Hsome. cbn [mbind res_bind].
    assert (l ≠ []) as Hnil.
    { intros ->. by apply route_to_last in Hr. }
    destruct l as [|n l]; [done|]. cbn [path_or_raise]. split.
    + split; [discriminate|]. intros Hno. destruct (Hno _ Hr).
    + intros _. by eexists.
Qed.

(** Aimed at the centre of a square, [corridor_to_point] plans what
    [plan_corridor_path] plans for that square, and fails when it fails,
    under its own message. *)
Theorem corridor_to_point_at_center (order : list node) (board : B) (src dst : Z) :
  (∀ m, m ∈ order → in_graph m = true) →
  (TC, square_rank dst, square_file dst) ∈ order →
  let xy := rc_to_center_xy (square_rank dst) (square_file dst) in
  (∀ path, corridor_to_point order board src xy = Ok path
           ↔ plan_corridor_path board src dst = Ok path)
  ∧ (corridor_to_point order board src xy = Raise no_path_to_point
     ↔ plan_corridor_path board src dst = Raise no_corridor_path).
Proof.
  intros Hall Hdst xy. unfold corridor_to_point. rewrite plan_corridor_path_unfold.
  change xy with (node_xy (TC, square_rank dst, square_file dst)).
  rewrite (nearest_node_to_xy_of_node_aux order _ Hall Hdst).
  change (sq_to_rc src) with (square_rank src, square_file src). cbv beta iota zeta.
  destruct (a_star_outcome (TC, square_rank src, square_file src)
              (TC, square_rank dst, square_file dst)
              (blocked (board_occupied_rc board) (square_rank src) (square_file src)))
    as [[[[|n l]|] ->]| ->]; cbn [mbind res_bind path_or_raise].
  - split; [intros path; split; discriminate|]. split; intros _; reflexivity.
  - split; [intros path; reflexivity|]. split; discriminate.
  - split; [intros path; split; discriminate|]. split; intros _; reflexivity.
  - split; [intros path; split; discriminate|]. split; discriminate.
Qed.
End point_routes.

Lemma corridor_between_points_ends_witness :
  let path := unwrap [] (corridor_between_points (elements NODES) capture_board
                           (664, 322 # 5)%Q (rc_to_center_xy 3 4)) in
  ∃ start goal,
    nearest_node_to_xy (elements NODES) (664, 322 # 5)%Q = Some start
    ∧ nearest_node_to_xy (elements NODES) (rc_to_center_xy 3 4) = Some goal
    ∧ head path = Some (node_xy start)
    ∧ last path = Some (node_xy goal)
    ∧ chain half_step path.
Proof.
  cbv zeta. apply (corridor_between_points_ends (elements NODES) capture_board).
  vm_compute. reflexivity.
Defined.

Lemma capture_plan_returns_to_source_witness :
  let plan := unwrap ([], true, (0, 0)%Q)
                (plan_capture_sequence (elements NODES) fresh_graveyard capture_board e4d5) in
  ∃ s5 s6 near,
    plan.1.1 !! 4%nat = Some s5 ∧ plan.1.1 !! 5%nat = Some s6
    ∧ magnet_on s5 = false ∧ magnet_on s6 = true
    ∧ nearest_node_to_xy (elements NODES) plan.2 = Some near
    ∧ head (waypoints s5) = Some (node_xy near)
    ∧ last (waypoints s5) = Some (rc_to_center_xy 3 4)
    ∧ head (waypoints s6) = Some (rc_to_center_xy 3 4).
Proof.
  cbv zeta.
  apply (capture_plan_returns_to_source (elements NODES) fresh_graveyard capture_board e4d5
           _ (unwrap ([], true, (0, 0)%Q)
                (plan_capture_sequence (elements NODES) fresh_graveyard capture_board e4d5)).1.2).
  - intros m Hm. by apply elements_NODES_in_graph.
  - apply elements_NODES_in_graph. reflexivity.
  - vm_compute. reflexivity.
Defined.

Lemma corridor_between_points_raises_witness :
  ∃ path,
    corridor_between_points (elements NODES) capture_board (664, 322 # 5)%Q
      (rc_to_center_xy 3 4) = Ok path.
Proof.
  pose proof (corridor_between_points_raises (elements NODES) capture_board
                (664, 322 # 5)%Q (rc_to_center_xy 3 4)) as Hthm.
  assert (nearest_node_to_xy (elements NODES) (664, 322 # 5)%Q = Some (TC, 7, 7)) as Hs
    by (vm_compute; reflexivity).
  assert (nearest_node_to_xy (elements NODES) (rc_to_center_xy 3 4) = Some (TC, 3, 4)) as Hg
    by (vm_compute; reflexivity).
  rewrite Hs, Hg in Hthm. cbv zeta in Hthm.
  destruct Hthm as [_ Hok].
  - intros m Hm. by apply elements_NODES_in_graph.
  - apply Hok.
    exists ([(TC, 7, 7)] ++ [(TV, 6, 7); (TC, 6, 7); (TV, 5, 7); (TC, 5, 7); (TV, 4, 7);
                             (TC, 4, 7); (TV, 3, 7); (TC, 3, 7); (TH, 3, 6); (TC, 3, 6);
                             (TH, 3, 5); (TC, 3, 5); (TH, 3, 4); (TC, 3, 4)]).
    apply (steps_ok_route EDGES (TC, 7, 7) (TC, 3, 4) _ (TC, 7, 7) [(TC, 7, 7)]
             [(TV, 6, 7); (TC, 6, 7); (TV, 5, 7); (TC, 5, 7); (TV, 4, 7);
              (TC, 4, 7); (TV, 3, 7); (TC, 3, 7); (TH, 3, 6); (TC, 3, 6);
              (TH, 3, 5); (TC, 3, 5); (TH, 3, 4); (TC, 3, 4)]).
    + apply route_here.
    + vm_compute. reflexivity.
Defined.

Lemma corridor_to_point_at_center_witness :
  (∀ path, corridor_to_point (elements NODES) walled_board 1 (rc_to_center_xy 2 2) = Ok path
           ↔ plan_corridor_path walled_board 1 18 = Ok path)
  ∧ (corridor_to_point (elements NODES) walled_board 1 (rc_to_center_xy 2 2)
       = Raise no_path_to_point
     ↔ plan_corridor_path walled_board 1 18 = Raise no_corridor_path).
Proof.
  apply (corridor_to_point_at_center (elements NODES) walled_board 1 18).
  - intros m Hm. by apply elements_NODES_in_graph.
  - apply elements_NODES_in_graph. reflexivity.
Defined.

(** ** The mouse hit test *)

Lemma Qfloor_spec (x : Q) (k : Z) :
  Qfloor x = k ↔ (inject_Z k <= x ∧ x < inject_Z (k + 1))%Q.
Proof.
  split.
  - intros <-. split; [apply Qfloor_le|apply Qlt_floor].
  - intros [Hle Hlt].
    pose proof (Qfloor_resp_le _ _ Hle) as H1. rewrite Qfloor_Z in H1.
    pose proof (Qfloor_le x) as H2.
    assert (inject_Z (Qfloor x) < inject_Z (k + 1))%Q as H3 by (eapply Qle_lt_trans; eauto).
    rewrite <- Zlt_Qlt in H3. lia.
Qed.

Lemma Qleb_spec a b : Qleb a b = true ↔ (a <= b)%Q.
Proof.
  unfold Qleb. destruct (Qlt_le_dec b a) as [Hlt|Hle]; split; try done.
  intros Hle. exfalso. by apply (Qlt_not_le _ _ Hlt).
Qed.

Lemma Qltb_spec a b : Qltb a b = true ↔ (a < b)%Q.
Proof.
  unfold Qltb. destruct (Qlt_le_dec a b) as [Hlt|Hle]; split; try done.
  intros Hlt. exfalso. by apply (Qlt_not_le _ _ Hlt).
Qed.

(** The column (or the row from the top) a pixel coordinate falls in. *)
Lemma column_of_pixel (mx : Q) (c : Z) :
  Qfloor ((mx - Zq MARGIN) / Zq SQUARE) = c ↔
  (Zq (MARGIN + c * SQUARE) <= mx ∧ mx < Zq (MARGIN + (c + 1) * SQUARE))%Q.
Proof.
  rewrite Qfloor_spec. unfold Zq. rewrite SQUARE_72, MARGIN_32.
  rewrite !inject_Z_plus, !inject_Z_mult, inject_Z_plus.
  change (inject_Z 32) with 32%Q. change (inject_Z 72) with 72%Q. change (inject_Z 1) with 1%Q.
  generalize (inject_Z c). intros k.
  assert ((mx - 32) / 72 == (mx - 32) * (1 # 72))%Q as -> by reflexivity.
  split; intros [H1 H2]; split; lra.
Qed.

Lemma column_in_range (mx : Q) :
  (Zq MARGIN <= mx ∧ mx < Zq (BOARD_PIXELS - MARGIN))%Q ↔
  0 ≤ Qfloor ((mx - Zq MARGIN) / Zq SQUARE) ≤ 7.
Proof.
  pose proof (proj1 (column_of_pixel mx _) eq_refl) as [Hlo Hhi].
  set (c := Qfloor _) in *. unfold Zq in *.
  rewrite BOARD_PIXELS_640, MARGIN_32. rewrite SQUARE_72, MARGIN_32 in Hlo, Hhi.
  change (inject_Z 32) with 32%Q. change (inject_Z (640 - 32)) with 608%Q.
  split.
  - intros [H1 H2].
    assert (inject_Z (32 + c * 72) < inject_Z (32 + 8 * 72))%Q as Ha
      by (eapply Qle_lt_trans; [exact Hlo|exact H2]).
    assert (inject_Z (32 + 0 * 72) < inject_Z (32 + (c + 1) * 72))%Q as Hb
      by (eapply Qle_lt_trans; [exact H1|exact Hhi]).
    rewrite <- Zlt_Qlt in Ha, Hb. lia.
  - intros Hc. split.
    + eapply Qle_trans; [|exact Hlo]. change 32%Q with (inject_Z 32). rewrite <- Zle_Qle. lia.
    + eapply Qlt_le_trans; [exact Hhi|]. change 608%Q with (inject_Z 608).
      rewrite <- Zle_Qle. lia.
Qed.

Lemma rc_to_sq_inj r c r' c' :
  0 ≤ c < 8 → 0 ≤ c' < 8 → rc_to_sq r c = rc_to_sq r' c' → r = r' ∧ c = c'.
Proof. unfold rc_to_sq, square. lia. Qed.

Lemma mouse_to_square_cases mx my :
  (in_play_area mx my
   ∧ mouse_to_square mx my
     = Some (rc_to_sq (7 - Qfloor ((my - Zq MARGIN) / Zq SQUARE))
                      (Qfloor ((mx - Zq MARGIN) / Zq SQUARE))))
  ∨ (¬ in_play_area mx my ∧ mouse_to_square mx my = None).
Proof.
  unfold mouse_to_square, in_play_area.
  destruct (negb _) eqn:Hn.
  - right. split; [|reflexivity]. intros (H1 & H2 & H3 & H4).
    apply negb_true_iff in Hn.
    rewrite (proj2 (Qleb_spec _ _) H1), (proj2 (Qltb_spec _ _) H2),
      (proj2 (Qleb_spec _ _) H3), (proj2 (Qltb_spec _ _) H4) in Hn. discriminate.
  - left. apply negb_false_iff in Hn. rewrite !andb_true_iff in Hn.
    rewrite !Qleb_spec, !Qltb_spec in Hn. destruct Hn as [[H1 H2] [H3 H4]].
    split; [tauto|].
    pose proof (proj1 (column_in_range mx) (conj H1 H2)) as Hc.
    pose proof (proj1 (column_in_range my) (conj H3 H4)) as Hr.
    cbv zeta.
    assert (∀ a b c d, a = true → b = true → c = true → d = true → a && b && (c && d) = true)
      as Hand by (by intros ? ? ? ? -> -> -> ->).
    rewrite Hand; [reflexivity|apply Z.leb_le; lia..].
Qed.

(** [mouse_to_square] answers a square exactly for the points of that
    square's rectangle on the screen; so the centre [rc_to_center_xy] gives
    for a square leads back to the square.  It answers [None] exactly for
    the points off the play area: the test of the row and the column that
    follows the test of the pixel never fails. *)
Theorem mouse_to_square_hit (r c : Z) (mx my : Q) :
  0 ≤ r < 8 → 0 ≤ c < 8 →
  (mouse_to_square mx my = Some (rc_to_sq r c) ↔ in_square_rect r c mx my)
  ∧ mouse_to_square (rc_to_center_xy r c).1 (rc_to_center_xy r c).2 = Some (rc_to_sq r c)
  ∧ (mouse_to_square mx my = None ↔ ¬ in_play_area mx my).
Proof.
  intros Hr Hc.
  assert (∀ x y, mouse_to_square x y = Some (rc_to_sq r c) ↔ in_square_rect r c x y) as Hhit.
  { intros x y. unfold in_square_rect.
    replace (MARGIN + (8 - r) * SQUARE) with (MARGIN + (7 - r + 1) * SQUARE) by lia.
    destruct (mouse_to_square_cases x y) as [[(H1 & H2 & H3 & H4) ->]|[Hout ->]].
    - pose proof (proj1 (column_in_range x) (conj H1 H2)) as Hcx.
      pose proof (proj1 (column_in_range y) (conj H3 H4)) as Hry.
      split.
      + intros Heq. apply (inj Some) in Heq.
        apply rc_to_sq_inj in Heq as [Hr' Hc']; [|lia..].
        pose proof (proj1 (column_of_pixel x c) Hc').
        pose proof (proj1 (column_of_pixel y (7 - r)) ltac:(lia)). tauto.
      + intros (Hx1 & Hx2 & Hy1 & Hy2).
        rewrite (proj2 (column_of_pixel x c) (conj Hx1 Hx2)).
        rewrite (proj2 (column_of_pixel y (7 - r)) (conj Hy1 Hy2)).
        do 2 f_equal. lia.
    - split; [discriminate|]. intros (Hx1 & Hx2 & Hy1 & Hy2). exfalso. apply Hout.
      unfold in_play_area.
      pose proof (proj2 (column_in_range x)) as Hx.
      rewrite (proj2 (column_of_pixel x c) (conj Hx1 Hx2)) in Hx.
      pose proof (proj2 (column_in_range y)) as Hy.
      rewrite (proj2 (column_of_pixel y (7 - r)) (conj Hy1 Hy2)) in Hy.
      specialize (Hx ltac:(lia)). specialize (Hy ltac:(lia)). tauto. }
  split; [apply Hhit|]. split; [|
    destruct (mouse_to_square_cases mx my) as [[Hin ->]|[Hout ->]]; split; done].
  apply Hhit. unfold in_square_rect, rc_to_center_xy. cbn [fst snd].
  unfold Zq. rewrite SQUARE_72, MARGIN_32. rewrite <- !Z.add_opp_r.
  rewrite !inject_Z_plus, !inject_Z_mult, !inject_Z_plus, !inject_Z_opp.
  change (inject_Z 32) with 32%Q. change (inject_Z 72) with 72%Q. change (inject_Z 1) with 1%Q.
  change (inject_Z 8) with 8%Q. change (inject_Z 7) with 7%Q.
  generalize (inject_Z c) (inject_Z r). intros qc qr.
  assert (72 / 2 == 36)%Q as -> by reflexivity.
  repeat split; lra.
Qed.

Lemma mouse_to_square_hit_witness :
  (mouse_to_square 300 100 = Some (rc_to_sq 7 3) ↔ in_square_rect 7 3 300 100)
  ∧ mouse_to_square (rc_to_center_xy 7 3).1 (rc_to_center_xy 7 3).2 = Some (rc_to_sq 7 3)
  ∧ (mouse_to_square 300 100 = None ↔ ¬ in_play_area 300 100).
Proof. apply (mouse_to_square_hit 7 3 300 100); lia. Defined.

(** ** Castling *)

(** A route never enters a region it starts outside of when every way in
    leads over a blocked Center. *)
Lemma route_avoids_region start goal blk (S : list node) :
  start ∉ S →
  (∀ p n, linked p n → n ∈ S → p ∉ S →
     p ≠ start ∧ ntag p = TC ∧ blk (nrow p) (ncol p) = true ∧ p ≠ goal) →
  ∀ n l, route_to EDGES start goal blk n l → n ∉ S.
Proof.
  intros Hs Hwall n l Hr. induction Hr as [|p n l Hr IH [Hlink Hpass]]; [exact Hs|].
  apply EDGES_link in Hlink. intros Hn.
  destruct (Hwall p n Hlink Hn IH) as (Hps & Ht & Hb & Hpg).
  assert (p ∈ l) as Hin by (eapply last_Some_elem_of, route_to_last; exact Hr).
  destruct (route_to_allowed _ _ _ _ _ _ p Hr Hin) as [Heq|Hal]; [by apply Hps|].
  by apply Hpg, Hal.
Qed.

Section planner_avoids.
Context {B : Type} `{ChessBoard B}.

(** A corridor path keeps off the centre of every occupied square but the
    source and the destination. *)
Lemma plan_corridor_path_avoids (board : B) (src dst sq : Z) (path : list point) (p : point) :
  plan_corridor_path board src dst = Ok path →
  0 ≤ src < 64 → 0 ≤ sq < 64 → is_Some (piece_at board sq) → sq ≠ src → sq ≠ dst →
  p ∈ path → ¬ pt_eq p (rc_to_center_xy (square_rank sq) (square_file sq)).
Proof.
  intros (l & Ha & ->)%plan_corridor_path_nodes Hsrc Hsq Hocc Hns Hnd Hp Heq.
  apply list_elem_of_fmap in Hp as (n & -> & Hn).
  pose proof (proj2 (square_on_board src) Hsrc) as Hs.
  destruct (a_star_total _ (TC, square_rank dst, square_file dst)
              (blocked (board_occupied_rc board) (square_rank src) (square_file src))
              (on_graph_lookup _ Hs)) as [Hnone|(l' & Hsome & Hr)];
    [congruence|].
  assert (l' = l) as -> by congruence. clear Hsome.
  destruct (a_star_chain _ _ _ _ Ha) as [_ Hg]. specialize (Hg Hs).
  rewrite Forall_forall in Hg.
  assert (n = (TC, square_rank sq, square_file sq)) as ->.
  { apply node_xy_inj; [by apply Hg|by apply square_on_board|exact Heq]. }
  destruct (route_to_allowed _ _ _ _ _ _ _ Hr Hn) as [Hst|Hal].
  - injection Hst as Hr' Hf'. apply Hns, sq_to_rc_inj. unfold sq_to_rc. congruence.
  - assert ((TC, square_rank sq, square_file sq) = (TC, square_rank dst, square_file dst))
      as Hgo.
    { apply Hal; [reflexivity|]. cbn [nrow ncol fst snd]. apply blocked_spec. split.
      - apply elem_of_board_occupied_rc. exists sq. by split.
      - intros [= Hr' Hf']. apply Hns, sq_to_rc_inj. unfold sq_to_rc. congruence. }
    injection Hgo as Hr' Hf'. apply Hnd, sq_to_rc_inj. unfold sq_to_rc. congruence.
Qed.
End planner_avoids.

Lemma square_file_square f r : 0 ≤ f < 8 → square_file (square f r) = f.
Proof. intros Hf. pose proof (sq_to_rc_square f r Hf) as Hs. unfold sq_to_rc in Hs. congruence. Qed.

Lemma square_rank_square f r : 0 ≤ f < 8 → square_rank (square f r) = r.
Proof. intros Hf. pose proof (sq_to_rc_square f r Hf) as Hs. unfold sq_to_rc in Hs. congruence. Qed.

(** The castling plan, for a board kept as a map. *)
Lemma plan_castling_unfold (b : MapBoard) (move : Move) :
  let src := from_square move in
  let dst := to_square move in
  let kingside := square_file src <? square_file dst in
  let rook_from := square (if kingside then FILE_h else FILE_a) (square_rank src) in
  let rook_to := square (if kingside then FILE_f else FILE_d) (square_rank src) in
  plan_castling b move =
  (rook_path ← plan_corridor_path b rook_from rook_to;
   tmp ← push b {| from_square := rook_from; to_square := rook_to |};
   king_path ← plan_corridor_path tmp src dst;
   rook_end ← last_item rook_path;
   king_end ← last_item king_path;
   Ok [ {| waypoints := rook_path; magnet_on := true |};
        {| waypoints := [rook_end]; magnet_on := false |};
        {| waypoints := king_path; magnet_on := true |};
        {| waypoints := [king_end]; magnet_on := false |} ]).
Proof. cbv zeta. unfold plan_castling. by destruct (_ <? _). Qed.

(** The king is routed with the rook already on its new square, and goes
    round it: on a board kept as a map, the king's segment of a castling
    plan runs from the king's square to its destination and never passes
    over the centre of the square the rook has moved to. *)
Theorem castling_king_goes_round_the_rook (b : MapBoard) (move : Move)
    (segs : list (segment point)) :
  let src := from_square move in
  let dst := to_square move in
  let rook_to :=
    square (if square_file src <? square_file dst then FILE_f else FILE_d) (square_rank src) in
  0 ≤ src < 64 → rook_to ≠ src → rook_to ≠ dst →
  plan_castling b move = Ok segs →
  ∃ king,
    segs !! 2%nat = Some king ∧ magnet_on king = true
    ∧ head (waypoints king) = Some (rc_to_center_xy (square_rank src) (square_file src))
    ∧ last (waypoints king) = Some (rc_to_center_xy (square_rank dst) (square_file dst))
    ∧ ∀ p, p ∈ waypoints king →
        ¬ pt_eq p (rc_to_center_xy (square_rank rook_to) (square_file rook_to)).
Proof.
  intros src dst rook_to Hsrc Hrs Hrd. rewrite plan_castling_unfold. fold src dst.
  set (rook_from := square _ _). fold rook_to.
  intros (rook_path & _ & (tmp & Hpush & (king_path & Hking &
            (re & _ & (ke & _ & [= <-])%bind_Ok)%bind_Ok)%bind_Ok)%bind_Ok)%bind_Ok.
  exists {| waypoints := king_path; magnet_on := true |}.
  split; [reflexivity|]. split; [reflexivity|]. cbn [waypoints].
  destruct (plan_corridor_path_ends _ _ _ _ Hking) as [Hh Hl].
  split; [exact Hh|]. split; [exact Hl|]. intros p Hp.
  apply (plan_corridor_path_avoids tmp src dst rook_to king_path p Hking Hsrc); try done.
  - unfold rook_to, square, FILE_f, FILE_d.
    pose proof (square_rank_range src Hsrc). destruct (_ <? _); lia.
  - cbn in Hpush. destruct (mb_pieces b !! rook_from) as [pc|]; [|discriminate].
    injection Hpush as <-. cbn. rewrite lookup_insert_eq. by eexists.
Qed.

Lemma castling_king_goes_round_the_rook_witness :
  ∃ king,
    unwrap [] (plan_castling castling_board e1g1) !! 2%nat = Some king
    ∧ magnet_on king = true
    ∧ head (waypoints king) = Some (rc_to_center_xy 0 4)
    ∧ last (waypoints king) = Some (rc_to_center_xy 0 6)
    ∧ ∀ p, p ∈ waypoints king → ¬ pt_eq p (rc_to_center_xy 0 5).
Proof.
  apply (castling_king_goes_round_the_rook castling_board e1g1).
  - cbn. lia.
  - vm_compute. discriminate.
  - vm_compute. discriminate.
  - vm_compute. reflexivity.
Defined.

Section planner_outcome.
Context {B : Type} `{ChessBoard B}.

(** From a square of the board, [plan_corridor_path] returns a path or
    raises its [RuntimeError]; nothing else. *)
Lemma plan_corridor_path_outcome (board : B) (src dst : Z) :
  0 ≤ src < 64 →
  (∃ path, plan_corridor_path board src dst = Ok path)
  ∨ plan_corridor_path board src dst = Raise no_corridor_path.
Proof.
  intros Hsrc%square_on_board%on_graph_lookup. rewrite plan_corridor_path_unfold.
  destruct (a_star_total _ (TC, square_rank dst, square_file dst)
              (blocked (board_occupied_rc board) (square_rank src) (square_file src)) Hsrc)
    as [->|(l & -> & Hr)]; [by right|].
  clear Hsrc. destruct l as [|n l]; [by right|]. left. by eexists.
Qed.

Lemma plan_corridor_path_no_route (board : B) (src dst : Z) :
  0 ≤ src < 64 →
  (∀ l, ¬ route_to EDGES (TC, square_rank src, square_file src)
          (TC, square_rank dst, square_file dst)
          (blocked (board_occupied_rc board) (square_rank src) (square_file src))
          (TC, square_rank dst, square_file dst) l) →
  plan_corridor_path board src dst = Raise no_corridor_path.
Proof.
  intros Hsrc%square_on_board%on_graph_lookup Hno. rewrite plan_corridor_path_unfold.
  destruct (a_star_total _ (TC, square_rank dst, square_file dst)
              (blocked (board_occupied_rc board) (square_rank src) (square_file src)) Hsrc)
    as [->|(l & _ & Hr)]; [reflexivity|].
  destruct (Hno l Hr).
Qed.
End planner_outcome.

Lemma node_eq (t : tag) (r c r' c' : Z) : r = r' → c = c' → (t, r, c) = (t, r', c').
Proof. by intros -> ->. Qed.

Ltac in_region :=
  unfold castle_region; rewrite !elem_of_cons;
  solve [ repeat first [ left; solve [apply node_eq; lia] | right ] ].

(** The corridors into the castling region all come from the rook's new
    square or from the rank in front of (or behind) the king's. *)
Lemma castle_region_wall (kr : Z) (kingside : bool) (p n : node) :
  linked p n → n ∈ castle_region kr kingside → p ∉ castle_region kr kingside →
  ntag p = TC
  ∧ ((nrow p = kr ∧ ncol p = (if kingside then FILE_f else FILE_d))
     ∨ ((nrow p = kr - 1 ∨ nrow p = kr + 1) ∧ ncol p ∈ castle_files kingside)).
Proof.
  intros (Hp & _ & Hf%flank_sym) Hn HpS.
  destruct kingside; unfold castle_region in Hn; rewrite !elem_of_cons, elem_of_nil in Hn.
  all: repeat (destruct Hn as [Hn|Hn]); try done; subst n; cbn [flank] in Hf.
  all: rewrite !elem_of_cons, elem_of_nil in Hf.
  all: repeat (destruct Hf as [Hf|Hf]); try done; subst p.
  all: try (exfalso; apply HpS; in_region).
  all: try (exfalso; apply in_graph_H in Hp; lia).
  all: cbn [ntag nrow ncol fst snd castle_files]; (split; [reflexivity|]).
  all: rewrite ?elem_of_cons; unfold FILE_f, FILE_d.
  all: first [ left; split; [lia|reflexivity]
             | right; split; [lia|tauto] ].
Qed.

(** Castling cannot be planned while the squares in front of the king's
    landing place are occupied, as they are in the opening.  The king is
    routed with the rook already moved: on the king side the rook on f
    shuts g and h in behind the pieces on the next rank, on the queen side
    the rook on d shuts in c, b and a; [plan_castling] raises
    [RuntimeError "No corridor path found."]. *)
Theorem castling_walled_in (b : MapBoard) (kr : Z) (kingside : bool) :
  0 ≤ kr < 8 →
  is_Some (mb_pieces b !! square (if kingside then FILE_h else FILE_a) kr) →
  (∀ f r, f ∈ castle_files kingside → (r = kr - 1 ∨ r = kr + 1) → 0 ≤ r < 8 →
          is_Some (mb_pieces b !! square f r)) →
  plan_castling b (castling_move kr kingside) = Raise no_corridor_path.
Proof.
  intros Hkr [rook Hrook] Hpawns. rewrite plan_castling_unfold.
  cbn [castling_move from_square to_square].
  rewrite (square_file_square 4 kr), (square_rank_square 4 kr) by lia.
  assert (square_file (square (if kingside then 6 else 2) kr) = if kingside then 6 else 2)
    as -> by (destruct kingside; apply square_file_square; lia).
  assert ((4 <? (if kingside then 6 else 2)) = kingside) as -> by (by destruct kingside).
  set (rook_from := square (if kingside then FILE_h else FILE_a) kr) in *.
  set (rook_to := square (if kingside then FILE_f else FILE_d) kr).
  set (src := square 4 kr). set (dst := square (if kingside then 6 else 2) kr).
  assert (0 ≤ src < 64) as Hsrc by (unfold src, square; lia).
  assert (0 ≤ rook_from < 64) as Hrf
    by (unfold rook_from, square, FILE_h, FILE_a; destruct kingside; lia).
  destruct (plan_corridor_path_outcome b rook_from rook_to Hrf) as [[rook_path ->]| ->];
    [|reflexivity].
  cbn [mbind res_bind]. change (push b ?m) with
    (match mb_pieces b !! from_square m with
     | Some p => Ok {| mb_pieces := <[to_square m := p]> (delete (from_square m) (mb_pieces b));
                       mb_ep := None |}
     | None => Raise AssertionError
     end).
  cbn [from_square to_square]. rewrite Hrook. cbn [mbind res_bind].
  set (tmp := {| mb_pieces := _; mb_ep := None |}).
  rewrite (plan_corridor_path_no_route tmp src dst Hsrc); [reflexivity|].
  assert (square_rank src = kr ∧ square_file src = 4) as [-> ->]
    by (unfold src; rewrite square_rank_square, square_file_square by lia; done).
  assert (square_rank dst = kr ∧ square_file dst = if kingside then 6 else 2) as [-> ->]
    by (unfold dst; destruct kingside;
        rewrite square_rank_square, square_file_square by lia; done).
  set (blk := blocked (board_occupied_rc tmp) kr 4).
  assert (∀ r f, 0 ≤ r < 8 →
            (r = kr ∧ f = (if kingside then FILE_f else FILE_d))
            ∨ ((r = kr - 1 ∨ r = kr + 1) ∧ f ∈ castle_files kingside) →
            blk r f = true) as Hblk.
  { intros r f Hr Hcase. apply blocked_spec.
    assert (0 ≤ f < 8 ∧ (r, f) ≠ (kr, 4)) as [Hf Hne].
    { destruct Hcase as [[-> ->]|[Hr' Hf]].
      - unfold FILE_f, FILE_d. destruct kingside; (split; [lia|intros [=]]).
      - unfold castle_files in Hf. destruct kingside; rewrite !elem_of_cons, elem_of_nil in Hf;
          (split; [lia|intros [= ? ?]; lia]). }
    split; [|exact Hne]. apply elem_of_board_occupied_rc. exists (square f r).
    split; [unfold square; lia|]. split; [|by apply sq_to_rc_square].
    change (piece_at tmp (square f r))
      with ((<[rook_to := rook]> (delete rook_from (mb_pieces b))) !! square f r).
    destruct Hcase as [[-> ->]|[Hr' Hfm]].
    - fold rook_to. rewrite lookup_insert_eq. by eexists.
    - assert (rook_to ≠ square f r ∧ rook_from ≠ square f r) as [Hn1 Hn2].
      { unfold rook_to, rook_from, square, FILE_f, FILE_d, FILE_h, FILE_a.
        destruct kingside; lia. }
      rewrite lookup_insert_ne, lookup_delete_ne by done. by apply Hpawns. }
  intros l Hr.
  apply (route_avoids_region _ _ _ (castle_region kr kingside)) in Hr.
  - apply Hr. destruct kingside; in_region.
  - unfold castle_region. destruct kingside; rewrite !elem_of_cons, elem_of_nil;
      intros Hin; repeat (destruct Hin as [Hin|Hin]); try done; injection Hin; lia.
  - intros p n Hlink Hn HpS.
    pose proof Hlink as (Hpg & _ & _).
    destruct (castle_region_wall kr kingside p n Hlink Hn HpS) as [Ht Hcase].
    destruct p as [[t r] f]. cbn [ntag nrow ncol fst snd] in *. subst t.
    apply in_graph_C in Hpg as [Hr' Hf'].
    split; [|split; [reflexivity|split; [by apply Hblk|]]].
    + intros [= -> ->]. destruct Hcase as [[_ Hf4]|[Hr4 _]]; [|lia].
      unfold FILE_f, FILE_d in Hf4. destruct kingside; lia.
    + intros [= -> ->]. destruct Hcase as [[_ Hf4]|[Hr4 _]]; [|lia].
      unfold FILE_f, FILE_d in Hf4. destruct kingside; lia.
Qed.

Lemma castling_walled_in_witness :
  plan_castling opening_board (castling_move 0 true) = Raise no_corridor_path.
Proof.
  apply (castling_walled_in opening_board 0 true); [lia|by eexists|].
  intros f r Hf Hr Hr8. assert (r = 1) as -> by lia.
  unfold castle_files in Hf. rewrite !elem_of_cons, elem_of_nil in Hf.
  destruct Hf as [->|[->|[]]]; by eexists.
Defined.

(** ** The legs of the knight's route *)



Section knight_legs.
Context {B : Type} `{ChessBoard B}.


End knight_legs.


(** ** [pathfinder.py]: the rook's and the king's castling paths *)

Lemma range_S n : range (S n) = 0 :: ((fun k => k + 1) <$> range n).
Proof.
  unfold range. cbn [seq fmap list_fmap]. f_equal.
  rewrite <- fmap_S_seq, <- !list_fmap_compose. apply list_fmap_ext.
  intros _ k _. cbn. lia.
Qed.

Lemma grid_lines_S c step n sy :
  grid_lines c step (S n) sy = (Zq c, sy) :: grid_lines (c + step) step n sy.
Proof.
  unfold grid_lines. rewrite range_S. cbn [fmap list_fmap]. f_equal.
  - do 2 f_equal. lia.
  - rewrite <- list_fmap_compose. apply list_fmap_ext. intros _ k _. cbn. do 2 f_equal. lia.
Qed.

(** The loop stops after the line [x1]: [n + 1] turns when [x1] is [n]
    lines ahead. *)
Lemma rook_loop_lines (n : nat) (fuel : nat) (step x1 : Z) (sy : Q) (c : Z) (pts : list point) :
  (step = 1 ∨ step = -1) → c + Z.of_nat n * step = x1 → (n < fuel)%nat →
  rook_loop fuel step x1 sy c pts = Ok (pts ++ grid_lines c step (S n) sy).
Proof.
  revert fuel c pts. induction n as [|n IH]; intros fuel c pts Hstep Hc Hfuel.
  - destruct fuel as [|fuel]; [lia|]. cbn [rook_loop].
    assert (((0 <? step) && (x1 <=? c)) || ((step <? 0) && (c <=? x1)) = true) as ->.
    { destruct Hstep as [-> | ->]; cbn [Z.ltb Z.compare andb orb];
        [rewrite orb_false_r|]; apply Z.leb_le; lia. }
    rewrite (grid_lines_S c step 0). reflexivity.
  - destruct fuel as [|fuel]; [lia|]. cbn [rook_loop].
    assert (((0 <? step) && (x1 <=? c)) || ((step <? 0) && (c <=? x1)) = false) as ->.
    { destruct Hstep as [-> | ->]; cbn [Z.ltb Z.compare andb orb];
        [rewrite orb_false_r|]; apply Z.leb_gt; lia. }
    rewrite (IH fuel (c + step)); [|done|lia|lia].
    rewrite (grid_lines_S c step (S n)). by rewrite <- app_assoc.
Qed.

(** [path_rook_castle_units] always returns: its loop ends.  Moving right
    the rook crosses the grid lines between the two files, one waypoint per
    line.  Moving left (or staying on its file) it starts on the line at the
    left of its own square and goes on to the line at the left of the
    destination square, half a square beyond the centre it then comes
    back to: one waypoint more than there are lines between the two
    files. *)
Theorem path_rook_castle_units_lines (x0 y0 x1 y1 : Z) :
  let sy := (center_of (x0, y0)).2 in
  path_rook_castle_units (x0, y0) (x1, y1) =
    Ok ([center_of (x0, y0)]
        ++ (if x0 <? x1
            then grid_lines (x0 + 1) 1 (Z.to_nat (x1 - x0)) sy
            else grid_lines x0 (-1) (S (Z.to_nat (x0 - x1))) sy)
        ++ [center_of (x1, y1)]).
Proof.
  unfold path_rook_castle_units. cbn [center_of fst snd].
  destruct (x0 <? x1) eqn:Hlt.
  - apply Z.ltb_lt in Hlt. cbn [Z.ltb Z.compare].
    assert (∃ n, Z.to_nat (x1 - x0) = S n) as [n Hn] by (exists (Z.to_nat (x1 - x0 - 1)); lia).
    rewrite (rook_loop_lines n); [|by left|lia|lia].
    cbn [mbind res_bind]. rewrite Hn, <- app_assoc.
    replace (x0 `min` x1 + 1) with (x0 + 1) by lia. reflexivity.
  - apply Z.ltb_ge in Hlt. cbn [Z.ltb Z.compare].
    rewrite (rook_loop_lines (Z.to_nat (x0 - x1))); [|by right|lia|lia].
    cbn [mbind res_bind]. rewrite <- app_assoc.
    replace (x0 `max` x1) with x0 by lia. reflexivity.
Qed.

(** ** [pathfinder.py]: the dispatcher, the knight and the removal path *)

(** Whatever the piece and the flags, the path [path_for_move_units]
    returns leads from the centre of the source square to the centre of the
    destination square; it has four waypoints for a knight and for a
    castling king and two otherwise; and [is_capture] has no part in it. *)
Theorem path_for_move_units_ends (piece_type : PieceType) (fr_from fr_to : Z * Z)
    (is_capture is_castling : bool) :
  let path := path_for_move_units piece_type fr_from fr_to is_capture is_castling in
  head path = Some (center_of fr_from)
  ∧ last path = Some (center_of fr_to)
  ∧ length path =
      (if bool_decide (piece_type = KNIGHT) || (bool_decide (piece_type = KING) && is_castling)
       then 4%nat else 2%nat)
  ∧ path = path_for_move_units piece_type fr_from fr_to (negb is_capture) is_castling.
Proof.
  destruct fr_from as [fx fy], fr_to as [tx ty]. unfold path_for_move_units.
  destruct (bool_decide (piece_type = KNIGHT)); [done|].
  destruct (bool_decide (piece_type = KING) && is_castling); done.
Qed.

(** For a knight bound two files to the left, the first leg of
    [path_knight_units] runs from the source centre along the middle of the
    source rank to the grid line [x = fx - 1], the line on the right of the
    destination file: a square and a half, over the centre of the square
    next to the knight. *)
Theorem path_knight_units_crosses_a_centre (fx fy ty : Z) :
  ∃ p1 p2 p3,
    path_knight_units (fx, fy) (fx - 2, ty) = [center_of (fx, fy); p1; p2; p3]
    ∧ pt_eq p1 (Zq (fx - 1), (center_of (fx, fy)).2)
    ∧ on_segment (center_of (fx - 1, fy)) (center_of (fx, fy)) p1
    ∧ ¬ pt_eq (center_of (fx - 1, fy)) (center_of (fx, fy))
    ∧ ¬ pt_eq (center_of (fx - 1, fy)) p1.
Proof.
  unfold path_knight_units, center_of, corridor_to_x, corridor_to_y. cbn [fst snd].
  assert ((fx <? fx - 2) = false) as -> by (apply Z.ltb_ge; lia).
  eexists _, _, _. split; [reflexivity|].
  unfold on_segment, pt_eq. cbn [fst snd]. split; [|split; [|split]].
  - split; [pixels|reflexivity].
  - left. split; [reflexivity|]. split; [reflexivity|]. right. split; pixels.
  - intros [Hx _]. revert Hx. pixels.
  - intros [Hx _]. revert Hx. pixels.
Qed.

(** The removal path of [pathfinder.py] takes the next graveyard slot and
    leads to it in six waypoints; on its way out it runs along the middle of
    the captured piece's rank to the right edge of the board, over the
    centre of every square to the right of the captured one. *)
Theorem path_remove_captured_units_rank (pf : PathFinder) (f r : Z) :
  let '(path, pf') := path_remove_captured_units pf (f, r) in
  cg_count (pf_graveyard pf') = cg_count (pf_graveyard pf) + 1
  ∧ length path = 6%nat
  ∧ head path = Some (center_of (f, r))
  ∧ last path = Some (next_slot (pf_graveyard pf)).1
  ∧ ∃ p1 p2, path !! 1%nat = Some p1 ∧ path !! 2%nat = Some p2
      ∧ ∀ k, f < k < 8 → on_segment (center_of (k, r)) p1 p2.
Proof.
  unfold path_remove_captured_units, center_of, corridor_to_x, corridor_to_y. cbn [fst snd].
  split; [reflexivity|]. split; [reflexivity|]. split; [reflexivity|]. split; [reflexivity|].
  eexists _, _. split; [reflexivity|]. split; [reflexivity|].
  intros k Hk. unfold on_segment. cbn [fst snd]. left.
  split; [reflexivity|]. split; [reflexivity|]. left. split; pixels.
Qed.

(** ** The Animator on any plan *)

Section animator_safety.
Context {F : Type} `{Arith F}.

Lemma load_cursor_ok (a0 : Animator F) segs sp : cursor_ok (load a0 segs sp).
Proof.
  unfold cursor_ok, load. cbn [done segments cur_seg_i cur_wp_i].
  destruct segs as [|s segs]; [by left|]. right. exists s. split; [reflexivity|].
  destruct (waypoints s); [by left|right; cbn; lia].
Qed.

Lemma advance_cursor_ok (a : Animator F) : cursor_ok (_advance_segment a).
Proof.
  unfold cursor_ok, _advance_segment. cbn [done segments cur_seg_i cur_wp_i].
  destruct (length (segments a) <=? S (cur_seg_i a))%nat eqn:Hend; [by left|].
  right. apply Nat.leb_gt in Hend. destruct (lookup_lt_is_Some_2 _ _ Hend) as [s Hs].
  exists s. split; [exact Hs|]. destruct (waypoints s); [by left|right; cbn; lia].
Qed.

(** One tick of an Animator whose cursor is in order: it raises nothing,
    leaves the cursor in order and the plan as it is, never steps back, and
    adds at most one point to the trace, and that only while the magnet is
    on. *)
Lemma step_safe (a : Animator F) :
  cursor_ok a →
  ∃ a', step a = Ok (a', last_draw_path a')
    ∧ cursor_ok a' ∧ segments a' = segments a
    ∧ (cur_seg_i a ≤ cur_seg_i a')%nat
    ∧ (last_draw_path a' = last_draw_path a
       ∨ ∃ q, last_draw_path a' = last_draw_path a ++ [q] ∧ current_magnet_on a = Ok true).
Proof.
  intros Hok. unfold step, current_magnet_on.
  destruct (done a || is_nil (segments a)) eqn:Hidle.
  { exists a. split; [reflexivity|]. split; [exact Hok|]. split; [reflexivity|].
    split; [lia|by left]. }
  apply orb_false_iff in Hidle as [Hdone Hnil].
  destruct Hok as [Hd|(seg & Hseg & Hwp)]; [congruence|].
  unfold getidx. rewrite Hseg. cbn [mbind res_bind].
  destruct (waypoints seg) as [|w ws] eqn:Hwps.
  { cbn [is_nil]. exists (_advance_segment a). split; [reflexivity|].
    split; [apply advance_cursor_ok|]. split; [reflexivity|]. split; [cbn; lia|by left]. }
  cbn [is_nil]. destruct Hwp as [[[=] _]|Hlt].
  destruct (lookup_lt_is_Some_2 (w :: ws) (cur_wp_i a) Hlt) as [target Ht].
  assert (∃ p, match pos a with
               | None => match (w :: ws) !! 0%nat with
                         | Some x => Ok x | None => Raise IndexError end
               | Some p => Ok p
               end = Ok p) as [p ->] by (destruct (pos a); by eexists).
  cbn [mbind res_bind]. rewrite Ht. cbn [mbind res_bind].
  destruct (fltb _ lit_1e_3).
  - (* the waypoint is reached *)
    set (tr := if magnet_on seg then last_draw_path a ++ [(target.1, target.2)]
               else last_draw_path a).
    assert (tr = last_draw_path a
            ∨ ∃ q, tr = last_draw_path a ++ [q] ∧ Ok (magnet_on seg) = Ok true) as Htr.
    { unfold tr. destruct (magnet_on seg); [right; by eexists|by left]. }
    cbn [cur_wp_i]. destruct (length (w :: ws) <=? S (cur_wp_i a))%nat eqn:Hend.
    + eexists. split; [reflexivity|]. split; [apply advance_cursor_ok|].
      split; [reflexivity|]. split; [cbn; lia|exact Htr].
    + apply Nat.leb_gt in Hend. eexists. split; [reflexivity|].
      cbn [segments cur_seg_i cur_wp_i pos done last_draw_path].
      split; [|split; [reflexivity|split; [lia|exact Htr]]].
      right. exists seg. split; [exact Hseg|]. right. by rewrite Hwps.
  - (* a step towards the waypoint *)
    eexists. split; [reflexivity|].
    cbn [segments cur_seg_i cur_wp_i pos done last_draw_path].
    split; [|split; [reflexivity|split; [lia|]]].
    + right. exists seg. split; [exact Hseg|]. right. by rewrite Hwps.
    + destruct (magnet_on seg); [|by left].
      destruct (last (last_draw_path a)) as [[lastx lasty]|]; [|right; by eexists].
      destruct (fltb lit_0_5 _); [right; by eexists|by left].
Qed.

Lemma ticks_safe (n : nat) (a : Animator F) :
  cursor_ok a →
  ∃ a', ticks n a = Ok a' ∧ cursor_ok a' ∧ segments a' = segments a
        ∧ (cur_seg_i a ≤ cur_seg_i a')%nat
        ∧ last_draw_path a `prefix_of` last_draw_path a'.
Proof.
  revert a. induction n as [|n IH]; intros a Hok.
  { exists a. split; [reflexivity|]. split; [exact Hok|]. split; [reflexivity|]. split; [lia|done]. }
  destruct (step_safe a Hok) as (a1 & Hst & Hok1 & Hsegs1 & Hi1 & Htr1).
  destruct (IH a1 Hok1) as (a' & Hticks & Hok' & Hsegs' & Hi' & Htr').
  exists a'. cbn [ticks]. rewrite Hst. cbn [mbind res_bind fst]. split; [exact Hticks|].
  split; [exact Hok'|]. split; [congruence|]. split; [lia|].
  etrans; [|exact Htr']. destruct Htr1 as [->|(q & -> & _)]; [done|]. by apply prefix_app_r.
Qed.

(** Loaded with any plan, the Animator can be ticked for ever: [step]
    never raises and neither does [current_magnet_on], because the cursor
    never leaves the plan; and the plan itself is not touched. *)
Theorem animator_never_raises (a0 : Animator F) (segs : list (segment (F * F)))
    (start_pos : option (F * F)) (n : nat) :
  ∃ a', ticks n (load a0 segs start_pos) = Ok a'
    ∧ segments a' = segs
    ∧ (done a' = true ∨ (cur_seg_i a' < length segs)%nat)
    ∧ ∃ on, current_magnet_on a' = Ok on.
Proof.
  destruct (ticks_safe n _ (load_cursor_ok a0 segs start_pos)) as (a' & Ht & Hok & Hsegs & _).
  exists a'. split; [exact Ht|]. split; [exact Hsegs|]. cbn [load segments] in Hsegs.
  unfold current_magnet_on. destruct Hok as [Hd|(seg & Hseg & _)].
  - split; [by left|]. rewrite Hd. by eexists.
  - split.
    + right. rewrite <- Hsegs. by eapply lookup_lt_Some.
    + destruct (done a' || is_nil (segments a')); [by eexists|].
      unfold getidx. rewrite Hseg. by eexists.
Qed.

(** A tick adds at most one point to the trace, takes none away, and adds
    one only while the magnet is on. *)
Theorem trace_grows_while_engaged (a0 : Animator F) (segs : list (segment (F * F)))
    (start_pos : option (F * F)) (n : nat) (a a' : Animator F) (tr : list (F * F)) :
  ticks n (load a0 segs start_pos) = Ok a → step a = Ok (a', tr) →
  tr = last_draw_path a'
  ∧ (tr = last_draw_path a
     ∨ ∃ q, tr = last_draw_path a ++ [q] ∧ current_magnet_on a = Ok true).
Proof.
  intros Hticks Hstep.
  destruct (ticks_safe n _ (load_cursor_ok a0 segs start_pos)) as (a1 & Ht & Hok & _).
  assert (a1 = a) as -> by congruence.
  destruct (step_safe a Hok) as (a2 & Hst & _ & _ & _ & Htr).
  assert (a2 = a' ∧ last_draw_path a2 = tr) as [-> <-] by (split; congruence).
  split; [reflexivity|exact Htr].
Qed.
End animator_safety.

#[warnings="-inexact-float"]
Lemma trace_grows_while_engaged_witness :
  let a := unwrap new_animator (ticks 1 (load new_animator drag_plan None)) in
  let r := unwrap (new_animator, []) (step a) in
  r.2 = last_draw_path r.1
  ∧ (r.2 = last_draw_path a
     ∨ ∃ q, r.2 = last_draw_path a ++ [q] ∧ current_magnet_on a = Ok true).
Proof.
  cbv zeta.
  apply (trace_grows_while_engaged new_animator drag_plan None 1); vm_compute; reflexivity.
Defined.

(** ** The occupied squares *)

Section occupancy_spec.
Context {B : Type} `{ChessBoard B}.

(** [board_occupied_rc] holds exactly the rows and columns of the board on
    which a piece stands. *)
Theorem board_occupied_rc_spec (board : B) (r c : Z) :
  (r, c) ∈ board_occupied_rc board ↔
  on_board (r, c) ∧ is_Some (piece_at board (rc_to_sq r c)).
Proof.
  rewrite elem_of_board_occupied_rc. unfold on_board. cbn [fst snd]. split.
  - intros (sq & Hsq & Hp & Hrc). unfold sq_to_rc in Hrc. injection Hrc as <- <-.
    pose proof (proj2 (square_on_board _) Hsq) as Hg%in_graph_C.
    split; [exact Hg|]. unfold rc_to_sq. by rewrite <- square_split.
  - intros ([Hr Hc] & Hp). exists (rc_to_sq r c).
    split; [unfold rc_to_sq, square; lia|]. split; [exact Hp|].
    unfold rc_to_sq. by apply sq_to_rc_square.
Qed.

End occupancy_spec.

(** ** The grid of graveyard slots *)

(** The grid [init_grave_positions] lays out, in closed form: twenty
    slots in two columns at x = 664 and x = 712, filled row by row from
    y = 64.4 in steps of 64.8 (the heights are given to a millionth of a
    pixel, the code computing them in binary floating point); a colour with
    twenty or more captures is sent to the lane x = 688, ten pixels higher
    for each capture.  Every slot is to the right of the board. *)
Theorem grave_slot_closed_form (gy : graveyard) (color : bool) :
  grave_positions gy = grave_positions fresh_graveyard →
  let idx := length (if color then captured_white gy else captured_black gy) in
  let slot := next_grave_xy gy color in
  (if (idx <? 20)%nat
   then Qeq slot.1 (grid_slot (Z.of_nat idx)).1
        ∧ Qle (Qabs (slot.2 - (grid_slot (Z.of_nat idx)).2)) (1 # 1000000)
   else pt_eq slot (688%Q, Zq (620 - 10 * Z.of_nat idx)))
  ∧ (Zq BOARD_PIXELS < slot.1)%Q.
Proof.
  intros Hg idx slot. unfold slot. rewrite (next_grave_xy_slot gy color Hg). fold idx.
  destruct (idx <? 20)%nat eqn:Hlt.
  - apply Nat.ltb_lt in Hlt.
    assert (forallb (fun i =>
              Qeq_bool (grave_slot i).1 (grid_slot (Z.of_nat i)).1
              && Qleb (Qabs ((grave_slot i).2 - (grid_slot (Z.of_nat i)).2)) (1 # 1000000)
              && Qltb (Zq BOARD_PIXELS) (grave_slot i).1) (seq 0 20) = true)
      as Hall by (vm_compute; reflexivity).
    rewrite forallb_forall in Hall. specialize (Hall idx ltac:(apply in_seq; lia)).
    apply andb_true_iff in Hall as [Hall H3%Qltb_spec].
    apply andb_true_iff in Hall as [H1%Qeq_bool_iff H2%Qleb_spec]. by split.
  - apply Nat.ltb_ge in Hlt. rewrite (grave_slot_overflow idx Hlt). cbn [fst snd]. split.
    + split; [vm_compute; reflexivity|]. cbn [snd].
      assert (WIN_H - INPUT_H - 20 - Z.of_nat idx * 10 = 620 - 10 * Z.of_nat idx) as ->
        by (unfold WIN_H, INPUT_H; rewrite BOARD_PIXELS_640; lia).
      reflexivity.
    + vm_compute. reflexivity.
Qed.

Lemma grave_slot_closed_form_witness :
  (Qeq (next_grave_xy fresh_graveyard BLACK).1 (grid_slot 0).1
   ∧ Qle (Qabs ((next_grave_xy fresh_graveyard BLACK).2 - (grid_slot 0).2)) (1 # 1000000))
  ∧ (Zq BOARD_PIXELS < (next_grave_xy fresh_graveyard BLACK).1)%Q.
Proof. apply (grave_slot_closed_form fresh_graveyard BLACK). reflexivity. Defined.

(** ** How planning a move can end *)

Lemma margin_path_last cap_xy grave_xy :
  is_nil (plan_margin_escape_path cap_xy grave_xy) = false
  ∧ last (plan_margin_escape_path cap_xy grave_xy) = Some grave_xy.
Proof.
  unfold plan_margin_escape_path. destruct cap_xy as [cx cy], grave_xy as [gx gy0].
  cbv zeta. by destruct (min_by_key _ _).1.
Qed.

Lemma last_item_cons {A} (l : list A) : l ≠ [] → ∃ a, last_item l = Ok a.
Proof.
  intros Hl. unfold last_item. destruct (last l) as [a|] eqn:Hlast; [by eexists|].
  by apply last_None in Hlast.
Qed.

(** The first twenty slots are all within reach of a node. *)
Lemma grid_slot_near (i : nat) :
  (i < 20)%nat → Qlt (node_distance (grave_slot i) (TC, 0, 7)) (Zq (10 ^ 18)).
Proof.
  intros Hi.
  assert (forallb (fun i => Qltb (node_distance (grave_slot i) (TC, 0, 7)) (Zq (10 ^ 18)))
            (seq 0 20) = true) as Hall by (vm_compute; reflexivity).
  rewrite forallb_forall in Hall. apply Qltb_spec, Hall, in_seq. lia.
Qed.

Lemma nearest_is_Some order xy n :
  n ∈ order → (node_distance xy n < Zq (10 ^ 18))%Q → is_Some (nearest_node_to_xy order xy).
Proof.
  intros Hn Hd. pose proof (nearest_spec order xy) as Hspec.
  destruct (nearest_node_to_xy order xy); [by eexists|].
  exfalso. by apply (Qlt_not_le _ _ Hd), Hspec.
Qed.

Section plan_outcome.
Context {B : Type} `{ChessBoard B}.

Lemma plan_corridor_path_nonempty (board : B) (src dst : Z) (path : list point) :
  plan_corridor_path board src dst = Ok path → path ≠ [].
Proof. intros [Hh _]%plan_corridor_path_ends ->. discriminate. Qed.

Lemma plan_knight_route_outcome (board : B) (move : Move) :
  0 ≤ from_square move < 64 →
  (∃ path, plan_knight_route_on_lines board move = Ok path ∧ path ≠ [])
  ∨ plan_knight_route_on_lines board move = Raise no_corridor_path.
Proof.
  intros Hsrc. unfold plan_knight_route_on_lines.
  cbv beta iota zeta delta [sq_to_rc rc_to_center_xy].
  destruct (_ && _); [left; by eexists|].
  destruct (_ && _); [left; by eexists|].
  destruct (plan_corridor_path_outcome board (from_square move) (to_square move) Hsrc)
    as [[path Hp]|Hp]; [left|by right].
  exists path. split; [exact Hp|]. by eapply plan_corridor_path_nonempty.
Qed.

Lemma corridor_between_points_outcome (order : list node) (board : B) (xy_start xy_end : point) :
  (∀ m, m ∈ order → in_graph m = true) →
  is_Some (nearest_node_to_xy order xy_start) → is_Some (nearest_node_to_xy order xy_end) →
  (∃ path, corridor_between_points order board xy_start xy_end = Ok path)
  ∨ corridor_between_points order board xy_start xy_end = Raise no_path_between.
Proof.
  intros Hall [start Hs] [goal Hg]. unfold corridor_between_points.
  pose proof (nearest_spec order xy_start) as Hspec.
  rewrite Hs in *. rewrite Hg. destruct Hspec as (Hin%Hall%on_graph_lookup & _).
  cbv zeta. set (blk := blocked_exempt _ _).
  destruct (a_star_total start goal blk Hin) as [->|(l & -> & Hr)]; [by right|].
  clear Hin. cbn [mbind res_bind]. destruct l as [|n l]; [by right|]. left. by eexists.
Qed.

(** A move between two squares of the board that is no castling is
    planned, or its planning raises one of the planner's two
    [RuntimeError]s, while fewer than twenty pieces of each colour have been
    captured: nothing else is raised, and the check behind
    [RuntimeError "No path to captured piece."] never fires.  (Both squares
    are taken on the board: [board.piece_at] is defined there only.) *)
Theorem planned_move_outcome (order : list node) (gy : graveyard) (board : B) (move : Move)
    (is_capture : bool) :
  (∀ m, m ∈ order ↔ in_graph m = true) →
  0 ≤ from_square move < 64 →
  0 ≤ to_square move < 64 →
  grave_positions gy = grave_positions fresh_graveyard →
  (length (captured_white gy) < 20)%nat → (length (captured_black gy) < 20)%nat →
  (∃ segs, plan_move order gy board move false is_capture = Ok segs)
  ∨ plan_move order gy board move false is_capture = Raise no_corridor_path
  ∨ plan_move order gy board move false is_capture = Raise no_path_between.
Proof.
  intros Horder Hsrc _ Hgrid Hw Hb. unfold plan_move.
  assert (∀ m, m ∈ order → in_graph m = true) as Hall by (intros m; apply Horder).
  destruct is_capture.
  - unfold plan_capture_sequence.
    set (src := from_square move) in *. set (dst := to_square move).
    set (cap_sq := if is_en_passant board move
                   then square (square_file dst) (square_rank src) else dst).
    destruct (plan_corridor_path_outcome board src cap_sq Hsrc) as [[p1 Hp1]| ->];
      [|by right; left].
    rewrite Hp1. cbn [mbind res_bind].
    pose proof (plan_corridor_path_nonempty _ _ _ _ Hp1) as Hn1.
    assert (is_nil p1 = false) as -> by (by destruct p1).
    set (cap_xy := rc_to_center_xy (sq_to_rc cap_sq).1 (sq_to_rc cap_sq).2).
    set (col := match piece_at board cap_sq with Some p => color p | None => WHITE end).
    set (gxy := next_grave_xy gy col).
    destruct (margin_path_last cap_xy gxy) as [-> Hl3].
    set (temp := remove_piece_at board cap_sq).
    set (src_xy := rc_to_center_xy (sq_to_rc src).1 (sq_to_rc src).2).
    destruct (corridor_between_points_outcome order temp gxy src_xy Hall) as [[p5 ->]| ->];
      [| |cbn [mbind res_bind]|by right; right].
    { apply (nearest_is_Some _ _ (TC, 0, 7)); [by apply Horder|].
      unfold gxy. rewrite (next_grave_xy_slot gy col Hgrid). apply grid_slot_near.
      by destruct col. }
    { apply (nearest_is_Some _ _ (TC, square_rank src, square_file src)).
      - apply Horder. by apply square_on_board.
      - eapply Qle_lt_trans; [|by instantiate (1 := 0%Q)].
        apply Qle_lteq. right. apply node_distance_self. }
    assert ((∃ p6, (if is_knight (piece_at board src)
                    then plan_knight_route_on_lines temp move
                    else plan_corridor_path temp src dst) = Ok p6 ∧ p6 ≠ [])
            ∨ (if is_knight (piece_at board src)
               then plan_knight_route_on_lines temp move
               else plan_corridor_path temp src dst) = Raise no_corridor_path) as Hp6.
    { destruct (is_knight _).
      - by apply plan_knight_route_outcome.
      - destruct (plan_corridor_path_outcome temp src dst Hsrc) as [[p6 Hp6]|Hp6];
          [left|by right].
        exists p6. split; [exact Hp6|]. by eapply plan_corridor_path_nonempty. }
    destruct Hp6 as [(p6 & -> & Hn6)| ->]; [|by right; left].
    cbn [mbind res_bind].
    destruct (last_item_cons p1 Hn1) as [e1 ->].
    assert (last_item (plan_margin_escape_path cap_xy gxy) = Ok gxy) as ->
      by (unfold last_item; by rewrite Hl3).
    destruct (last_item_cons p6 Hn6) as [e6 ->].
    cbn [mbind res_bind fst]. left. by eexists.
  - unfold plan_normal_move.
    assert ((∃ p, (if is_knight (piece_at board (from_square move))
                   then plan_knight_route_on_lines board move
                   else plan_corridor_path board (from_square move) (to_square move)) = Ok p
                  ∧ p ≠ [])
            ∨ (if is_knight (piece_at board (from_square move))
               then plan_knight_route_on_lines board move
               else plan_corridor_path board (from_square move) (to_square move))
              = Raise no_corridor_path) as Hp.
    { destruct (is_knight _).
      - by apply plan_knight_route_outcome.
      - destruct (plan_corridor_path_outcome board _ (to_square move) Hsrc) as [[p Hp]|Hp];
          [left|by right].
        exists p. split; [exact Hp|]. by eapply plan_corridor_path_nonempty. }
    destruct Hp as [(p & -> & Hn)| ->]; [|by right; left].
    cbn [mbind res_bind]. destruct (last_item_cons p Hn) as [e ->].
    cbn [mbind res_bind]. left. by eexists.
Qed.
End plan_outcome.

Lemma planned_move_outcome_witness :
  (∃ segs, plan_move (elements NODES) fresh_graveyard capture_board e4d5 false true = Ok segs)
  ∨ plan_move (elements NODES) fresh_graveyard capture_board e4d5 false true
    = Raise no_corridor_path
  ∨ plan_move (elements NODES) fresh_graveyard capture_board e4d5 false true
    = Raise no_path_between.
Proof.
  apply (planned_move_outcome (elements NODES) fresh_graveyard capture_board e4d5 true).
  - apply elements_NODES_in_graph.
  - cbn. lia.
  - cbn. lia.
  - reflexivity.
  - cbn. lia.
  - cbn. lia.
Defined.
